(** * testreact-leaflet: the paginated GeoJSON endpoint and the map loader

    A shallow embedding of
      - [src/app/api/geojson/route.ts]  (module [Route]): cursor tokens and
        the keyset-paginated [GET] handler;
      - [src/components/MapView.tsx]    (module [MapView]): the geometry
        indexer [addCollection], the renderer [renderClusters], the cluster
        click handler and the asynchronous [load] loop, as a machine that
        runs from one [await] to the next; (module [Component]): the
        component over its renders, with every run of the load effect
        over the shared refs;
      - the view loading from the endpoint (module [EndToEnd]).

    What the sources import and do not define (Node's [Buffer], Leaflet,
    Supercluster) is in modules of its own, modelled from the
    specification, or a parameter ([Supercluster.Engine]) where it rests
    on floating point or on the size of the map on screen.

    JavaScript numbers that hold record ids, point ids, counters and zoom
    levels are integers well inside the safe range (ids are bounded by
    [MAX_RECORD_ID], zoom by [CLUSTER_MAX_ZOOM]); they are modelled by [Z]
    and [nat].  What [Number] reads from a text of the request
    ([Route.JsNumber]) can also be a fraction, an infinity or [NaN].
    Coordinates are modelled by rationals [Q]. *)

From Stdlib Require Import ZArith QArith Qminmax Qabs Qround Lqa Ascii String DecimalString DecimalZ.
From Equations Require Import Equations.
From stdpp Require Import base option list sorting gmap.

Set Warnings "-register-all".
Local Open Scope Z_scope.

(* ===================================================================== *)
(** ** Node collaborator: base64url over bytes (RFC 4648, section 5)        *)
(* ===================================================================== *)

Module Base64Url.


(** Modelled from the spec: [Buffer.from(..).toString("base64url")] and
    [Buffer.from(.., "base64url")] are Node's; the cursor is "an opaque,
    base64url-encoded token".  A 6-bit group, most significant bit
    first. *)
Definition sextet : Type := (bool * bool * bool * bool * bool * bool)%type.

Definition alphabet : string :=
  "ABCDEFGHIJKLMNOPQRSTUVWXYZabcdefghijklmnopqrstuvwxyz0123456789-_"%string.

Definition bit (b : bool) (w : nat) : nat := if b then w else 0%nat.

Definition sextet_index (s : sextet) : nat :=
  let '(b5, b4, b3, b2, b1, b0) := s in
  (bit b5 32 + bit b4 16 + bit b3 8 + bit b2 4 + bit b1 2 + bit b0 1)%nat.

Definition index_sextet (n : nat) : sextet :=
  (Nat.testbit n 5, Nat.testbit n 4, Nat.testbit n 3,
   Nat.testbit n 2, Nat.testbit n 1, Nat.testbit n 0).

Definition encode_sextet (s : sextet) : ascii :=
  match String.get (sextet_index s) alphabet with
  | Some c => c
  | None => "A"%char
  end.

Fixpoint position (c : ascii) (s : string) : option nat :=
  match s with
  | EmptyString => None
  | String d s' => if Ascii.eqb c d then Some 0%nat else S <$> position c s'
  end.

Definition decode_char (c : ascii) : option sextet :=
  index_sextet <$> position c alphabet.

(** Bytes are [ascii] values: [Ascii b0 .. b7] with [b0] the least
    significant bit.  Three bytes make four sextets; a trailing group of
    one or two bytes makes two or three characters (no padding). *)
Fixpoint encode (bytes : list ascii) : string :=
  match bytes with
  | [] => EmptyString
  | [Ascii a0 a1 a2 a3 a4 a5 a6 a7] =>
      String (encode_sextet (a7, a6, a5, a4, a3, a2))
     (String (encode_sextet (a1, a0, false, false, false, false))
      EmptyString)
  | [Ascii a0 a1 a2 a3 a4 a5 a6 a7; Ascii b0 b1 b2 b3 b4 b5 b6 b7] =>
      String (encode_sextet (a7, a6, a5, a4, a3, a2))
     (String (encode_sextet (a1, a0, b7, b6, b5, b4))
     (String (encode_sextet (b3, b2, b1, b0, false, false))
      EmptyString))
  | Ascii a0 a1 a2 a3 a4 a5 a6 a7 :: Ascii b0 b1 b2 b3 b4 b5 b6 b7
      :: Ascii c0 c1 c2 c3 c4 c5 c6 c7 :: rest =>
      String (encode_sextet (a7, a6, a5, a4, a3, a2))
     (String (encode_sextet (a1, a0, b7, b6, b5, b4))
     (String (encode_sextet (b3, b2, b1, b0, c7, c6))
     (String (encode_sextet (c5, c4, c3, c2, c1, c0))
      (encode rest))))
  end.

(** The leading run of characters that belong to the alphabet. *)
Fixpoint sextets (s : string) : list sextet :=
  match s with
  | EmptyString => []
  | String c s' =>
      match decode_char c with
      | Some x => x :: sextets s'
      | None => []
      end
  end.

Fixpoint pack (xs : list sextet) : list ascii :=
  match xs with
  | (a7, a6, a5, a4, a3, a2) :: (a1, a0, b7, b6, b5, b4)
      :: (b3, b2, b1, b0, c7, c6) :: (c5, c4, c3, c2, c1, c0) :: rest =>
      Ascii a0 a1 a2 a3 a4 a5 a6 a7 :: Ascii b0 b1 b2 b3 b4 b5 b6 b7
        :: Ascii c0 c1 c2 c3 c4 c5 c6 c7 :: pack rest
  | [(a7, a6, a5, a4, a3, a2); (a1, a0, b7, b6, b5, b4); (b3, b2, b1, b0, _, _)] =>
      [Ascii a0 a1 a2 a3 a4 a5 a6 a7; Ascii b0 b1 b2 b3 b4 b5 b6 b7]
  | [(a7, a6, a5, a4, a3, a2); (a1, a0, _, _, _, _)] =>
      [Ascii a0 a1 a2 a3 a4 a5 a6 a7]
  | _ => []
  end.

Definition decode (s : string) : list ascii := pack (sextets s).

End Base64Url.

(* ===================================================================== *)
(** ** GeoJSON values shared by the endpoint and the view                   *)
(* ===================================================================== *)

Module GeoJSON.

(** A position is [[longitude, latitude]]. *)
Definition Position : Type := (Q * Q)%type.

Inductive Geometry : Type :=
| Point (coordinates : Position)
| MultiPoint (coordinates : list Position)
| LineString (coordinates : list Position)
| MultiLineString (coordinates : list (list Position))
| Polygon (coordinates : list (list Position))
| MultiPolygon (coordinates : list (list (list Position)))
| GeometryCollection (geometries : list Geometry).

(** [properties: { id, cod_imovel }] as built by the endpoint. *)
Record Properties : Type := {
  prop_id : Z;
  cod_imovel : string
}.

(** [geometry] is [None] for a JSON [null]. *)
Record Feature : Type := {
  feature_id : Z;
  properties : Properties;
  geometry : option Geometry
}.

(** Every position a geometry holds, in document order. *)
Fixpoint positions (g : Geometry) : list Position :=
  match g with
  | Point c => [c]
  | MultiPoint cs => cs
  | LineString cs => cs
  | MultiLineString css => concat css
  | Polygon rings => concat rings
  | MultiPolygon polys => concat (concat polys)
  | GeometryCollection gs => flat_map positions gs
  end.

Definition nonempty_geometry (g : option Geometry) : Prop :=
  exists g', g = Some g' /\ positions g' <> [].

End GeoJSON.

(* ===================================================================== *)
(** ** src/app/api/geojson/route.ts                                         *)
(* ===================================================================== *)

Module Route.
Import GeoJSON.

Record SicarRow : Type := {
  id : Z;
  row_cod_imovel : string;
  geojson : option Geometry
}.

Record GeoJsonResponse : Type := {
  features : list Feature;
  nextCursor : option string
}.

Definition DEFAULT_LIMIT : Z := 5000.
Definition MAX_LIMIT : Z := 20000.
Definition MAX_RECORD_ID : Z := 2000000.

(** A JavaScript number as far as the handler can tell numbers apart: an
    integer, a finite number that is no integer, an infinity or [NaN].
    An integer is kept as it is written (the ids and the limits the
    handler works with are inside the safe range); a number that is no
    integer is a binary64. *)
Inductive JsNumber : Type :=
| Num (z : Z)
| Frac (q : Q)
| Infinity (negative : bool)
| NaN.

(** [String(value)] on an integer: a minus sign and decimal digits. *)
Definition String_of_number (value : Z) : string :=
  NilZero.string_of_int (Z.to_int value).

(** *** [Number(text)]: the grammar of [StringNumericLiteral] *)

(** The value of a decimal digit, by its code. *)
Definition digit (c : ascii) : option Z :=
  let code := Z.of_nat (nat_of_ascii c) in
  if (48 <=? code) && (code <=? 57) then Some (code - 48) else None.

Definition binary_digit (c : ascii) : option Z :=
  match c with
  | "0"%char => Some 0 | "1"%char => Some 1
  | _ => None
  end.

Definition octal_digit (c : ascii) : option Z :=
  match digit c with
  | Some d => if d <? 8 then Some d else None
  | None => None
  end.

Definition hex_digit (c : ascii) : option Z :=
  let code := Z.of_nat (nat_of_ascii c) in
  if (97 <=? code) && (code <=? 102) then Some (code - 87)
  else if (65 <=? code) && (code <=? 70) then Some (code - 55)
  else digit c.

(** The leading run of digits of [s] in base [base]: its value after
    [acc], how many digits there are, and what follows them. *)
Fixpoint digits (base : Z) (read : ascii -> option Z) (s : string)
  (acc : Z) (count : nat) : Z * nat * string :=
  match s with
  | EmptyString => (acc, count, s)
  | String c rest =>
      match read c with
      | Some d => digits base read rest (base * acc + d) (S count)
      | None => (acc, count, s)
      end
  end.

(** [StrWhiteSpaceChar]: the white space and the line terminators of
    ECMAScript, by the bytes of their UTF-8 encoding (strings are byte
    strings here).  [None] when [s] does not start with one, what follows
    it otherwise. *)
Definition white_space (s : string) : option string :=
  match s with
  | EmptyString => None
  | String c rest =>
      match c with
      | "009"%char | "010"%char | "011"%char | "012"%char | "013"%char
      | " "%char => Some rest
      | "194"%char =>                                   (* U+00A0 *)
          match rest with
          | String "160"%char r => Some r
          | _ => None
          end
      | "225"%char =>                                   (* U+1680 *)
          match rest with
          | String "154"%char (String "128"%char r) => Some r
          | _ => None
          end
      | "226"%char =>
          match rest with
          | String "128"%char (String x r) =>           (* U+2000 .. U+200A, *)
              let n := nat_of_ascii x in                (* U+2028, U+2029, U+202F *)
              if ((128 <=? n) && (n <=? 138) || (n =? 168) || (n =? 169)
                  || (n =? 175))%nat
              then Some r else None
          | String "129"%char (String "159"%char r) => Some r   (* U+205F *)
          | _ => None
          end
      | "227"%char =>                                   (* U+3000 *)
          match rest with
          | String "128"%char (String "128"%char r) => Some r
          | _ => None
          end
      | "239"%char =>                                   (* U+FEFF *)
          match rest with
          | String "187"%char (String "191"%char r) => Some r
          | _ => None
          end
      | _ => None
      end
  end.

Fixpoint skip_white (fuel : nat) (s : string) : string :=
  match fuel with
  | O => s
  | S fuel =>
      match white_space s with
      | Some rest => skip_white fuel rest
      | None => s
      end
  end.

Definition trim_start (s : string) : string := skip_white (String.length s) s.

(** Nothing but white space is left. *)
Definition only_white (s : string) : bool :=
  match trim_start s with
  | EmptyString => true
  | _ => false
  end.

Fixpoint strip_prefix (p s : string) : option string :=
  match p, s with
  | EmptyString, _ => Some s
  | String a p, String b s => if Ascii.eqb a b then strip_prefix p s else None
  | String _ _, EmptyString => None
  end.

(** The quotient [a / b] of two positive integers, rounded to the
    nearest integer, a tie to the even one. *)
Definition round_half_even (a b : Z) : Z :=
  let f := a / b in
  let r := a mod b in
  match 2 * r ?= b with
  | Lt => f
  | Gt => f + 1
  | Eq => if Z.even f then f else f + 1
  end.

(** The binary64 nearest to the quotient [n / d] of two positive
    integers, as a significand [m] and an exponent [k]: the value is
    [m * 2 ^ k], with [m] at most [2 ^ 53] and [k] at least [-1074]
    (the subnormal numbers share the exponent of the smallest normal
    one). *)
Definition binary64 (n d : Z) : Z * Z :=
  let guess := Z.log2 n - Z.log2 d in
  let below := if 0 <=? guess then 2 ^ guess * d <=? n else d <=? n * 2 ^ (- guess) in
  let e := if below then guess else guess - 1 in
  let k := Z.max e (-1022) - 52 in
  let m := if 0 <=? k then round_half_even n (d * 2 ^ k)
           else round_half_even (n * 2 ^ (- k)) d in
  (m, k).

(** A rational as a number: itself when it is an integer, and the
    binary64 that [Number] rounds it to when it is not, which can be an
    integer, [0] (underflow) or an infinity (overflow). *)
Definition normal (q : Q) : JsNumber :=
  let r := Qred q in
  if (Qden r =? 1)%positive then Num (Qnum r)
  else
    let negative := Qnum r <? 0 in
    let '(m, k) := binary64 (Z.abs (Qnum r)) (Zpos (Qden r)) in
    let signed := if negative then - m else m in
    if 0 <=? k then
      if 2 ^ 1024 <=? m * 2 ^ k then Infinity negative else Num (signed * 2 ^ k)
    else
      let s := Qred (signed # Z.to_pos (2 ^ (- k))) in
      if (Qden s =? 1)%positive then Num (Qnum s) else Frac s.

(** [m] times ten to the [k]. *)
Definition ten_to (m k : Z) : JsNumber :=
  if 0 <=? k then Num (m * 10 ^ k)
  else normal (m # Z.to_pos (10 ^ (- k))).

Definition negate (x : JsNumber) : JsNumber :=
  match x with
  | Num z => Num (- z)
  | Frac q => Frac (- q)
  | Infinity negative => Infinity (negb negative)
  | NaN => NaN
  end.

(** [ExponentPart], when there is one: its value and what follows it;
    [None] for an [e] that no digit follows. *)
Definition exponent_part (s : string) : option (Z * string) :=
  match s with
  | String ("e"%char | "E"%char) rest =>
      let '(negative, rest) :=
        match rest with
        | String "+"%char r => (false, r)
        | String "-"%char r => (true, r)
        | _ => (false, rest)
        end in
      let '(e, count, rest) := digits 10 digit rest 0 0%nat in
      if (count =? 0)%nat then None
      else Some (if negative : bool then - e else e, rest)
  | _ => Some (0, s)
  end.

(** [StrUnsignedDecimalLiteral], up to the end of the text: [Infinity],
    or digits with an optional fraction and an optional exponent, at
    least one digit before or after the point. *)
Definition unsigned_decimal (s : string) : JsNumber :=
  match strip_prefix "Infinity" s with
  | Some rest => if only_white rest then Infinity false else NaN
  | None =>
      let '(whole, n_whole, rest) := digits 10 digit s 0 0%nat in
      let '(mantissa, n_fraction, rest) :=
        match rest with
        | String "."%char r => digits 10 digit r whole 0%nat
        | _ => (whole, 0%nat, rest)
        end in
      if ((n_whole =? 0) && (n_fraction =? 0))%nat then NaN
      else
        match exponent_part rest with
        | Some (e, rest) =>
            if only_white rest then ten_to mantissa (e - Z.of_nat n_fraction)
            else NaN
        | None => NaN
        end
  end.

(** [StrDecimalLiteral]: a sign or none. *)
Definition decimal_literal (s : string) : JsNumber :=
  match s with
  | String "+"%char r => unsigned_decimal r
  | String "-"%char r => negate (unsigned_decimal r)
  | _ => unsigned_decimal s
  end.

(** [NonDecimalIntegerLiteral]: [0x], [0o] or [0b] and digits of that
    base, without a sign; [None] when [s] has no such prefix. *)
Definition non_decimal (s : string) : option JsNumber :=
  match s with
  | String "0"%char (String c r) =>
      let radix :=
        match c with
        | "x"%char | "X"%char => Some (16, hex_digit)
        | "o"%char | "O"%char => Some (8, octal_digit)
        | "b"%char | "B"%char => Some (2, binary_digit)
        | _ => None
        end in
      match radix with
      | Some (base, read) =>
          let '(value, count, rest) := digits base read r 0 0%nat in
          Some (if (0 <? count)%nat && only_white rest then Num value else NaN)
      | None => None
      end
  | _ => None
  end.

(** [Number(text)]: white space around the literal is dropped, a text
    of white space only is [0], a text that is no literal is [NaN]. *)
Definition Number (text : string) : JsNumber :=
  let s := trim_start text in
  match s with
  | EmptyString => Num 0
  | _ =>
      match non_decimal s with
      | Some x => x
      | None => decimal_literal s
      end
  end.

(** [Buffer.from(text, "utf-8")] and [buffer.toString("utf-8")]: strings
    are byte strings here. *)
Definition utf8_bytes (text : string) : list ascii := list_ascii_of_string text.
Definition utf8_text (bytes : list ascii) : string := string_of_list_ascii bytes.

Definition encodeCursor (value : Z) : string :=
  Base64Url.encode (utf8_bytes (String_of_number value)).

Definition decodeCursor (value : string) : JsNumber :=
  Number (utf8_text (Base64Url.decode value)).

Definition buildFeature (row : SicarRow) : Feature :=
  {| feature_id := id row;
     properties := {| prop_id := id row; cod_imovel := row_cod_imovel row |};
     geometry := geojson row |}.

Record QueryContext : Type := {
  cursorValue : option JsNumber
}.

(** The database collaborator: the table [dw.dm_sicar], and whether a
    client can be acquired and the statement run. *)
Record Database : Type := {
  dm_sicar : list SicarRow;
  online : bool
}.

Definition id_le (r1 r2 : SicarRow) : Prop := id r1 <= id r2.

#[global] Instance id_le_dec (r1 r2 : SicarRow) : Decision (id_le r1 r2) :=
  Z_le_dec (id r1) (id r2).

(** [ORDER BY id]. *)
Definition order_by_id (rows : list SicarRow) : list SicarRow :=
  merge_sort id_le rows.

(** [runQuery]: [None] stands for a rejected promise.  With a cursor the
    statement is [WHERE id > $1 ORDER BY id LIMIT $2], without one it is
    [ORDER BY id LIMIT $1]; the server-side cursor then reads [limit]
    rows.  A parameter that is no integer ([NaN], an infinity, [1.5]) is
    no value for an integer column or for [LIMIT]: the statement is taken
    to fail. *)
Definition runQuery (db : Database) (limit : JsNumber) (context : QueryContext)
  : option (list SicarRow) :=
  if online db then
    match limit with
    | Num limit =>
        match cursorValue context with
        | Some (Num c) =>
            Some (take (Z.to_nat limit)
                    (order_by_id (filter (fun r => c < id r) (dm_sicar db))))
        | Some _ => None
        | None => Some (take (Z.to_nat limit) (order_by_id (dm_sicar db)))
        end
    | _ => None
    end
  else None.

Inductive ResponseBody : Type :=
| JsonPage (page : GeoJsonResponse)
| JsonError (error : string).

Record HttpResponse : Type := {
  status : Z;
  body : ResponseBody
}.

(** [x || fallback] on numbers: [0] and [NaN] are falsy. *)
Definition number_or (x : JsNumber) (fallback : Z) : JsNumber :=
  match x with
  | Num 0 => Num fallback
  | NaN => Num fallback
  | _ => x
  end.

(** [Math.max(x, y)] and [Math.min(x, y)] for an integer [y]. *)
Definition Math_max (x : JsNumber) (y : Z) : JsNumber :=
  match x with
  | Num z => Num (Z.max z y)
  | Frac q => if Qle_bool q (inject_Z y) then Num y else Frac q
  | Infinity false => Infinity false
  | Infinity true => Num y
  | NaN => NaN
  end.

Definition Math_min (x : JsNumber) (y : Z) : JsNumber :=
  match x with
  | Num z => Num (Z.min z y)
  | Frac q => if Qle_bool (inject_Z y) q then Num y else Frac q
  | Infinity false => Num y
  | Infinity true => Infinity true
  | NaN => NaN
  end.

(** [Number(searchParams.get(..))]: a missing parameter is [null], and
    [Number(null)] is [0]. *)
Definition Number_param (param : option string) : JsNumber :=
  match param with
  | Some text => Number text
  | None => Num 0
  end.

(** Truthiness of a string or [null]. *)
Definition truthy (param : option string) : bool :=
  match param with
  | Some EmptyString => false
  | Some _ => true
  | None => false
  end.

(** [Math.min(Math.max(Number(limitParam) || DEFAULT_LIMIT, 1), MAX_LIMIT)]. *)
Definition limit_number (limitParam : option string) : JsNumber :=
  Math_min (Math_max (number_or (Number_param limitParam) DEFAULT_LIMIT) 1) MAX_LIMIT.

Definition GET (db : Database) (limitParam cursorParam : option string)
  : HttpResponse :=
  let limit := limit_number limitParam in
  let context :=
    {| cursorValue :=
         match cursorParam with
         | Some text => if truthy cursorParam then Some (decodeCursor text) else None
         | None => None
         end |} in
  match runQuery db limit context with
  | Some rows =>
      let features := map buildFeature rows in
      let lastRow := last rows in
      {| status := 200;
         body := JsonPage {| features := features;
                             nextCursor := (fun r => encodeCursor (id r)) <$> lastRow |} |}
  | None =>
      {| status := 500; body := JsonError "Failed to fetch data" |}
  end.

End Route.

(* ===================================================================== *)
(** ** Leaflet collaborator: points, envelopes and the map view             *)
(* ===================================================================== *)

Module Leaflet.
Import GeoJSON.

Record LatLng : Type := {
  lat : Q;
  lng : Q
}.

(** Modelled from the spec: [L.LatLngBounds] is Leaflet's, "a running
    bounding-box accumulator across all points seen so far": no corners
    until the first [extend], then the south-west and north-east corners
    of the envelope. *)
Definition LatLngBounds : Type := option (LatLng * LatLng).

(** Modelled from the spec: [bounds.isValid()] is Leaflet's; bounds are
    valid once they have corners. *)
Definition isValid (bounds : LatLngBounds) : bool :=
  match bounds with
  | Some _ => true
  | None => false
  end.

(** Modelled from the spec: [bounds.extend(latlng)] is Leaflet's; it
    "extends a running bounding-box accumulator" to hold one more
    point. *)
Definition extend (bounds : LatLngBounds) (p : LatLng) : LatLngBounds :=
  match bounds with
  | None => Some (p, p)
  | Some (sw, ne) =>
      Some ({| lat := Qmin (lat p) (lat sw); lng := Qmin (lng p) (lng sw) |},
            {| lat := Qmax (lat p) (lat ne); lng := Qmax (lng p) (lng ne) |})
  end.

(** Modelled from the spec: [bounds.getCenter()] is Leaflet's, the
    "geometric center of [the] bounding envelope". *)
Definition getCenter (sw ne : LatLng) : LatLng :=
  {| lat := (lat sw + lat ne) / 2; lng := (lng sw + lng ne) / 2 |}.

(** A GeoJSON position is [[lng, lat]]; Leaflet has [lat] first. *)
Definition coordsToLatLng (c : Position) : LatLng :=
  {| lat := snd c; lng := fst c |}.

(** Modelled from the spec: [L.geoJSON(geometry).getBounds()] is absent
    from the sources; the representative point is the "geometric center of
    its bounding envelope", so the bounds are the envelope of every
    position of the geometry, and a geometry without positions has no
    valid bounds. *)
Definition geoJSON_getBounds (g : Geometry) : LatLngBounds :=
  fold_left extend (map coordsToLatLng (positions g)) None.

(** The rectangle [[west, south, east, north]] handed to the cluster
    index. *)
Record BBox : Type := {
  west : Q;
  south : Q;
  east : Q;
  north : Q
}.

(** Modelled from the spec: [L.Map] is Leaflet's; the "map widget
    collaborator" is kept as its view, a centre and a zoom level.  Zoom
    levels are whole numbers (the widget keeps the default zoom snap), so
    [Math.round] leaves them as they are. *)
Record Map : Type := {
  center : LatLng;
  zoom : Z
}.

End Leaflet.

(* ===================================================================== *)
(** ** Supercluster collaborator                                            *)
(* ===================================================================== *)

Module Supercluster.
Import Leaflet.

(** [PointFeature<ClusterProperties>] as [addCollection] builds it:
    [coordinates: [lng, lat]] and [properties: { id }]. *)
Record PointFeature : Type := {
  coordinates : Q * Q;
  point_id : Z
}.

Inductive ClusterOrPoint : Type :=
| Cluster (position : Q * Q) (cluster_id : Z) (point_count : Z)
| Leaf (point : PointFeature).

(** What Supercluster computes with floating point projections, and what
    the map widget derives from the size of its container, is a parameter
    of the development. *)
Class Engine : Type := {
  (** are two points within [radius] pixels of each other at [zoom]? *)
  within_radius : Z -> Z -> PointFeature -> PointFeature -> bool;
  (** the synthetic id of the cluster grown at [zoom] around a point, in an
      index over [count] points *)
  synthetic_id : nat -> Z -> PointFeature -> Z;
  (** [getClusterExpansionZoom] over the indexed points; [None] when the
      library throws because it finds no cluster with that id *)
  expansion_zoom : list PointFeature -> Z -> option Z;
  (** [map.getBounds()] for a view *)
  visible_bounds : LatLng -> Z -> BBox;
  (** the view [map.fitBounds(bounds, { padding: [16, 16] })] moves to *)
  fit_view : LatLng * LatLng -> LatLng * Z
}.

(** Modelled from the spec: the class [Supercluster] is absent from the
    sources.  "[rebuild(allPoints)]: replaces the index wholesale with a
    fresh structure over the full accumulated point set"; an instance holds
    the options it was made with and the points of its last [load]. *)
Record Index : Type := {
  radius : Z;
  maxZoom : Z;
  loaded : list PointFeature
}.

Definition new (radius maxZoom : Z) : Index :=
  {| radius := radius; maxZoom := maxZoom; loaded := [] |}.

Definition load (index : Index) (points : list PointFeature) : Index :=
  {| radius := radius index; maxZoom := maxZoom index; loaded := points |}.

Definition Qsum (xs : list Q) : Q := fold_right Qplus 0%Q xs.

(** The centroid of a non-empty group of points. *)
Definition centroid (group : list PointFeature) : Q * Q :=
  let n := inject_Z (Z.of_nat (length group)) in
  ((Qsum (map (fun p => fst (coordinates p)) group) / n)%Q,
   (Qsum (map (fun p => snd (coordinates p)) group) / n)%Q).

Definition in_bbox (bbox : BBox) (c : Q * Q) : bool :=
  Qle_bool (west bbox) (fst c) && Qle_bool (fst c) (east bbox)
  && Qle_bool (south bbox) (snd c) && Qle_bool (snd c) (north bbox).

Definition where_is (c : ClusterOrPoint) : Q * Q :=
  match c with
  | Cluster position _ _ => position
  | Leaf p => coordinates p
  end.

(** Modelled from the spec: "[query(viewportBounds, zoom)] returns the
    clustering appropriate for the given zoom: points within a configurable
    pixel radius of each other at that zoom are merged into one Cluster;
    isolated points pass through as Leaf entries".  The first point not
    yet placed takes every remaining point within the radius; a point with
    no such neighbour stays a leaf. *)
Equations? cluster_pass `{Engine} (r z : Z) (count : nat) (points : list PointFeature)
  : list ClusterOrPoint by wf (length points) lt :=
  cluster_pass r z count [] := [];
  cluster_pass r z count (p :: rest) :=
    let near := filter (fun q => within_radius r z p q = true) rest in
    let far := filter (fun q => within_radius r z p q <> true) rest in
    (match near with
     | [] => Leaf p
     | _ :: _ =>
         Cluster (centroid (p :: near)) (synthetic_id count z p)
                 (Z.of_nat (length (p :: near)))
     end) :: cluster_pass r z count far.
Proof.
  subst far. cbn.
  pose proof (length_filter (fun q => within_radius r z p q <> true) rest). lia.
Defined.

(** Modelled from the spec: the clustering "appropriate for the given
    zoom"; [maxZoom], an option the view sets, is the last zoom at which
    points are merged. *)
Definition clusters_at `{Engine} (index : Index) (zoom : Z) : list ClusterOrPoint :=
  if maxZoom index <? zoom then map Leaf (loaded index)
  else cluster_pass (radius index) zoom (length (loaded index)) (loaded index).

(** Modelled from the spec: [query] returns the clusters and leaves
    that lie within the viewport bounds. *)
Definition getClusters `{Engine} (index : Index) (bbox : BBox) (zoom : Z)
  : list ClusterOrPoint :=
  filter (fun c => in_bbox bbox (where_is c) = true) (clusters_at index zoom).

(** Modelled from the spec: "[expansionZoom(clusterId)] fails with a
    [ClusterNotFoundError] if the index has since been rebuilt and the id
    is stale"; the lookup is the engine's, over the points of the last
    [load]. *)
Definition getClusterExpansionZoom `{Engine} (index : Index) (clusterId : Z)
  : option Z :=
  expansion_zoom (loaded index) clusterId.

End Supercluster.

(* ===================================================================== *)
(** ** src/components/MapView.tsx                                           *)
(* ===================================================================== *)

Module MapView.
Import GeoJSON Leaflet Supercluster.

Definition INITIAL_VIEW : LatLng := {| lat := (-14.235)%Q; lng := (-51.9253)%Q |}.
Definition INITIAL_ZOOM : Z := 5.
Definition FETCH_LIMIT : Z := 5000.
Definition YIELD_DELAY_MS : Z := 25.
Definition CLUSTER_RADIUS : Z := 60.
Definition CLUSTER_MAX_ZOOM : Z := 18.

Record ApiResponse : Type := {
  features : list Feature;
  nextCursor : option string
}.

(** [bounds.getCenter()]; on bounds without corners the call throws
    ([None]). *)
Definition bounds_getCenter (bounds : LatLngBounds) : option LatLng :=
  match bounds with
  | Some (sw, ne) => Some (getCenter sw ne)
  | None => None
  end.

Definition geometryToLatLng (geometry : option Geometry) : option LatLng :=
  match geometry with
  | None => None
  | Some g =>
      let bounds := geoJSON_getBounds g in
      if negb (isValid bounds) then None
      else
        match bounds_getCenter bounds with
        | Some c => Some c
        | None => None (* catch *)
        end
  end.

(** What a click on a cluster marker runs: the closure keeps the
    instance it queried (by address), the cluster id and the marker's
    place. *)
Record ClickClosure : Type := {
  closure_instance : nat;
  closure_clusterId : Z;
  closure_lat : Q;
  closure_lng : Q
}.

Inductive Overlay : Type :=
| Marker (lat lng : Q) (count : Z) (onClick : option ClickClosure)
| GeoJsonLayer (feature : Feature).

Inductive Effect : Type :=
| Fetch (limit : string) (cursor : option string)
| ToastShow
| ConsoleError
| ConsoleWarn
| FitBounds (sw ne : LatLng)
| FlyTo (target : LatLng) (zoom : Z).

(** The refs and the React state of the component, and the log of its
    outside effects. *)
Record State : Type := {
  (** is the [Toast] attached ([toastRef.current] not null)? *)
  toastRef : bool;
  mapRef : option Map;
  (** the layer group and the layers drawn on it *)
  clusterLayerRef : option (list Overlay);
  (** address of the current instance *)
  superclusterRef : option nat;
  (** every [Supercluster] instance made so far, by address *)
  heap : list Index;
  featureMapRef : gmap Z Feature;
  pointsRef : list PointFeature;
  nextFeatureIdRef : Z;
  boundsRef : option LatLngBounds;
  cancelledRef : bool;
  shouldFitBoundsRef : bool;
  totalFetched : Z;
  hasMore : bool;
  isLoading : bool;
  (** what the component did to the outside, oldest first *)
  effects : list Effect
}.

Definition set_toastRef (v : bool) (s : State) : State :=
  {| toastRef := v;
     mapRef := mapRef s;
     clusterLayerRef := clusterLayerRef s;
     superclusterRef := superclusterRef s;
     heap := heap s;
     featureMapRef := featureMapRef s;
     pointsRef := pointsRef s;
     nextFeatureIdRef := nextFeatureIdRef s;
     boundsRef := boundsRef s;
     cancelledRef := cancelledRef s;
     shouldFitBoundsRef := shouldFitBoundsRef s;
     totalFetched := totalFetched s;
     hasMore := hasMore s;
     isLoading := isLoading s;
     effects := effects s |}.

Definition set_mapRef (v : option Map) (s : State) : State :=
  {| toastRef := toastRef s;
     mapRef := v;
     clusterLayerRef := clusterLayerRef s;
     superclusterRef := superclusterRef s;
     heap := heap s;
     featureMapRef := featureMapRef s;
     pointsRef := pointsRef s;
     nextFeatureIdRef := nextFeatureIdRef s;
     boundsRef := boundsRef s;
     cancelledRef := cancelledRef s;
     shouldFitBoundsRef := shouldFitBoundsRef s;
     totalFetched := totalFetched s;
     hasMore := hasMore s;
     isLoading := isLoading s;
     effects := effects s |}.

Definition set_clusterLayerRef (v : option (list Overlay)) (s : State) : State :=
  {| toastRef := toastRef s;
     mapRef := mapRef s;
     clusterLayerRef := v;
     superclusterRef := superclusterRef s;
     heap := heap s;
     featureMapRef := featureMapRef s;
     pointsRef := pointsRef s;
     nextFeatureIdRef := nextFeatureIdRef s;
     boundsRef := boundsRef s;
     cancelledRef := cancelledRef s;
     shouldFitBoundsRef := shouldFitBoundsRef s;
     totalFetched := totalFetched s;
     hasMore := hasMore s;
     isLoading := isLoading s;
     effects := effects s |}.

Definition set_superclusterRef (v : option nat) (s : State) : State :=
  {| toastRef := toastRef s;
     mapRef := mapRef s;
     clusterLayerRef := clusterLayerRef s;
     superclusterRef := v;
     heap := heap s;
     featureMapRef := featureMapRef s;
     pointsRef := pointsRef s;
     nextFeatureIdRef := nextFeatureIdRef s;
     boundsRef := boundsRef s;
     cancelledRef := cancelledRef s;
     shouldFitBoundsRef := shouldFitBoundsRef s;
     totalFetched := totalFetched s;
     hasMore := hasMore s;
     isLoading := isLoading s;
     effects := effects s |}.

Definition set_heap (v : list Index) (s : State) : State :=
  {| toastRef := toastRef s;
     mapRef := mapRef s;
     clusterLayerRef := clusterLayerRef s;
     superclusterRef := superclusterRef s;
     heap := v;
     featureMapRef := featureMapRef s;
     pointsRef := pointsRef s;
     nextFeatureIdRef := nextFeatureIdRef s;
     boundsRef := boundsRef s;
     cancelledRef := cancelledRef s;
     shouldFitBoundsRef := shouldFitBoundsRef s;
     totalFetched := totalFetched s;
     hasMore := hasMore s;
     isLoading := isLoading s;
     effects := effects s |}.

Definition set_featureMapRef (v : gmap Z Feature) (s : State) : State :=
  {| toastRef := toastRef s;
     mapRef := mapRef s;
     clusterLayerRef := clusterLayerRef s;
     superclusterRef := superclusterRef s;
     heap := heap s;
     featureMapRef := v;
     pointsRef := pointsRef s;
     nextFeatureIdRef := nextFeatureIdRef s;
     boundsRef := boundsRef s;
     cancelledRef := cancelledRef s;
     shouldFitBoundsRef := shouldFitBoundsRef s;
     totalFetched := totalFetched s;
     hasMore := hasMore s;
     isLoading := isLoading s;
     effects := effects s |}.

Definition set_pointsRef (v : list PointFeature) (s : State) : State :=
  {| toastRef := toastRef s;
     mapRef := mapRef s;
     clusterLayerRef := clusterLayerRef s;
     superclusterRef := superclusterRef s;
     heap := heap s;
     featureMapRef := featureMapRef s;
     pointsRef := v;
     nextFeatureIdRef := nextFeatureIdRef s;
     boundsRef := boundsRef s;
     cancelledRef := cancelledRef s;
     shouldFitBoundsRef := shouldFitBoundsRef s;
     totalFetched := totalFetched s;
     hasMore := hasMore s;
     isLoading := isLoading s;
     effects := effects s |}.

Definition set_nextFeatureIdRef (v : Z) (s : State) : State :=
  {| toastRef := toastRef s;
     mapRef := mapRef s;
     clusterLayerRef := clusterLayerRef s;
     superclusterRef := superclusterRef s;
     heap := heap s;
     featureMapRef := featureMapRef s;
     pointsRef := pointsRef s;
     nextFeatureIdRef := v;
     boundsRef := boundsRef s;
     cancelledRef := cancelledRef s;
     shouldFitBoundsRef := shouldFitBoundsRef s;
     totalFetched := totalFetched s;
     hasMore := hasMore s;
     isLoading := isLoading s;
     effects := effects s |}.

Definition set_boundsRef (v : option LatLngBounds) (s : State) : State :=
  {| toastRef := toastRef s;
     mapRef := mapRef s;
     clusterLayerRef := clusterLayerRef s;
     superclusterRef := superclusterRef s;
     heap := heap s;
     featureMapRef := featureMapRef s;
     pointsRef := pointsRef s;
     nextFeatureIdRef := nextFeatureIdRef s;
     boundsRef := v;
     cancelledRef := cancelledRef s;
     shouldFitBoundsRef := shouldFitBoundsRef s;
     totalFetched := totalFetched s;
     hasMore := hasMore s;
     isLoading := isLoading s;
     effects := effects s |}.

Definition set_cancelledRef (v : bool) (s : State) : State :=
  {| toastRef := toastRef s;
     mapRef := mapRef s;
     clusterLayerRef := clusterLayerRef s;
     superclusterRef := superclusterRef s;
     heap := heap s;
     featureMapRef := featureMapRef s;
     pointsRef := pointsRef s;
     nextFeatureIdRef := nextFeatureIdRef s;
     boundsRef := boundsRef s;
     cancelledRef := v;
     shouldFitBoundsRef := shouldFitBoundsRef s;
     totalFetched := totalFetched s;
     hasMore := hasMore s;
     isLoading := isLoading s;
     effects := effects s |}.

Definition set_shouldFitBoundsRef (v : bool) (s : State) : State :=
  {| toastRef := toastRef s;
     mapRef := mapRef s;
     clusterLayerRef := clusterLayerRef s;
     superclusterRef := superclusterRef s;
     heap := heap s;
     featureMapRef := featureMapRef s;
     pointsRef := pointsRef s;
     nextFeatureIdRef := nextFeatureIdRef s;
     boundsRef := boundsRef s;
     cancelledRef := cancelledRef s;
     shouldFitBoundsRef := v;
     totalFetched := totalFetched s;
     hasMore := hasMore s;
     isLoading := isLoading s;
     effects := effects s |}.

Definition set_totalFetched (v : Z) (s : State) : State :=
  {| toastRef := toastRef s;
     mapRef := mapRef s;
     clusterLayerRef := clusterLayerRef s;
     superclusterRef := superclusterRef s;
     heap := heap s;
     featureMapRef := featureMapRef s;
     pointsRef := pointsRef s;
     nextFeatureIdRef := nextFeatureIdRef s;
     boundsRef := boundsRef s;
     cancelledRef := cancelledRef s;
     shouldFitBoundsRef := shouldFitBoundsRef s;
     totalFetched := v;
     hasMore := hasMore s;
     isLoading := isLoading s;
     effects := effects s |}.

Definition set_hasMore (v : bool) (s : State) : State :=
  {| toastRef := toastRef s;
     mapRef := mapRef s;
     clusterLayerRef := clusterLayerRef s;
     superclusterRef := superclusterRef s;
     heap := heap s;
     featureMapRef := featureMapRef s;
     pointsRef := pointsRef s;
     nextFeatureIdRef := nextFeatureIdRef s;
     boundsRef := boundsRef s;
     cancelledRef := cancelledRef s;
     shouldFitBoundsRef := shouldFitBoundsRef s;
     totalFetched := totalFetched s;
     hasMore := v;
     isLoading := isLoading s;
     effects := effects s |}.

Definition set_isLoading (v : bool) (s : State) : State :=
  {| toastRef := toastRef s;
     mapRef := mapRef s;
     clusterLayerRef := clusterLayerRef s;
     superclusterRef := superclusterRef s;
     heap := heap s;
     featureMapRef := featureMapRef s;
     pointsRef := pointsRef s;
     nextFeatureIdRef := nextFeatureIdRef s;
     boundsRef := boundsRef s;
     cancelledRef := cancelledRef s;
     shouldFitBoundsRef := shouldFitBoundsRef s;
     totalFetched := totalFetched s;
     hasMore := hasMore s;
     isLoading := v;
     effects := effects s |}.

Definition set_effects (v : list Effect) (s : State) : State :=
  {| toastRef := toastRef s;
     mapRef := mapRef s;
     clusterLayerRef := clusterLayerRef s;
     superclusterRef := superclusterRef s;
     heap := heap s;
     featureMapRef := featureMapRef s;
     pointsRef := pointsRef s;
     nextFeatureIdRef := nextFeatureIdRef s;
     boundsRef := boundsRef s;
     cancelledRef := cancelledRef s;
     shouldFitBoundsRef := shouldFitBoundsRef s;
     totalFetched := totalFetched s;
     hasMore := hasMore s;
     isLoading := isLoading s;
     effects := v |}.
(** The refs and the state as [useRef] and [useState] make them, with the
    [Toast] attached; the map is attached later. *)
Definition mounted : State :=
  {| toastRef := true;
     mapRef := None;
     clusterLayerRef := None;
     superclusterRef := None;
     heap := [];
     featureMapRef := ∅;
     pointsRef := [];
     nextFeatureIdRef := 1;
     boundsRef := None;
     cancelledRef := false;
     shouldFitBoundsRef := true;
     totalFetched := 0;
     hasMore := true;
     isLoading := false;
     effects := [] |}.

Definition log (e : Effect) (s : State) : State :=
  set_effects (effects s ++ [e]) s.

Definition ensureClusterLayer (s : State) : option (list Overlay) * State :=
  match mapRef s with
  | None => (None, s)
  | Some _ =>
      match clusterLayerRef s with
      | None => (Some [], set_clusterLayerRef (Some []) s)
      | Some layers => (Some layers, s)
      end
  end.

(** Returns the address of the instance the ref holds, making one (and
    loading the points buffer into it, if there is any point) when the
    ref is empty. *)
Definition getSupercluster (s : State) : nat * State :=
  match superclusterRef s with
  | Some a => (a, s)
  | None =>
      let instance := new CLUSTER_RADIUS CLUSTER_MAX_ZOOM in
      let instance :=
        if (0 <? length (pointsRef s))%nat then load instance (pointsRef s)
        else instance in
      let a := length (heap s) in
      (a, set_superclusterRef (Some a) (set_heap (heap s ++ [instance]) s))
  end.

Definition addLayer (o : Overlay) (s : State) : State :=
  set_clusterLayerRef ((fun layers => layers ++ [o]) <$> clusterLayerRef s) s.

(** The body of [clusters.forEach] in [renderClusters]. *)
Definition drawCluster (instance : nat) (s : State) (cluster : ClusterOrPoint)
  : State :=
  match cluster with
  | Cluster (lng, lat) clusterId count =>
      addLayer (Marker lat lng count
                  (Some {| closure_instance := instance;
                           closure_clusterId := clusterId;
                           closure_lat := lat;
                           closure_lng := lng |})) s
  | Leaf p =>
      let id := point_id p in
      if id =? 0 then s
      else
        match featureMapRef s !! id with
        | None => s
        | Some feature => addLayer (GeoJsonLayer feature) s
        end
  end.

(** [map.fitBounds(bounds, { padding: [16, 16] })] up to the events it
    fires: the call is logged and the view is set.  The listeners that
    Leaflet calls before the call returns are run by the caller
    ([renderClusters_sync]). *)
Definition fitBounds `{Engine} (sw ne : LatLng) (s : State) : State :=
  let '(c, z) := fit_view (sw, ne) in
  log (FitBounds sw ne)
    (set_mapRef ((fun _ => {| center := c; zoom := z |}) <$> mapRef s) s).

(** [renderClusters] when no listener runs inside [map.fitBounds]: no
    listener of [moveend] and [zoomend] is registered, or Leaflet starts
    an animation and fires the events after the pass has returned.  The
    pass in which the listener runs inside the call is
    [renderClusters_sync]. *)
Definition renderClusters `{Engine} (s : State) : State :=
  let map := mapRef s in
  let '(clusterLayer, s) := ensureClusterLayer s in
  let '(superclusterInstance, s) := getSupercluster s in
  match map, clusterLayer with
  | Some map, Some _ =>
      let s := set_clusterLayerRef (Some []) s in
      if (length (pointsRef s) =? 0)%nat then s
      else
        let zoom := zoom map in
        let bounds := visible_bounds (center map) zoom in
        let clusters :=
          match heap s !! superclusterInstance with
          | Some index => getClusters index bounds zoom
          | None => []
          end in
        let s := fold_left (drawCluster superclusterInstance) clusters s in
        match shouldFitBoundsRef s, boundsRef s with
        | true, Some (Some (sw, ne)) =>
            set_shouldFitBoundsRef false (fitBounds sw ne s)
        | _, _ => s
        end
  | _, _ => s
  end.

Inductive Completion : Type :=
| Normal
| Throw.

(** Leaflet fires [n] events; each one calls [handler], and an exception
    of the handler leaves through the call that fired the event. *)
Fixpoint fire (handler : State -> Completion * State) (n : nat) (s : State)
  : Completion * State :=
  match n with
  | O => (Normal, s)
  | S n =>
      match handler s with
      | (Normal, s) => fire handler n s
      | (Throw, s) => (Throw, s)
      end
  end.

(** [renderClusters] when the listener of [moveend] and [zoomend]
    ([handleMove], which calls [renderClusters]) is registered and Leaflet
    fires [inside] of these events before [map.fitBounds] returns, as it
    does when it starts no animation.  [shouldFitBoundsRef] is lowered on
    the line after the call, so the passes the events start find it up.
    [stack] is the number of nested calls the engine still allows: a call
    beyond it throws [RangeError], which nothing in [renderClusters]
    catches. *)
Fixpoint renderClusters_sync `{Engine} (stack inside : nat) (s : State)
  : Completion * State :=
  match stack with
  | O => (Throw, s)
  | S stack =>
      let map := mapRef s in
      let '(clusterLayer, s) := ensureClusterLayer s in
      let '(superclusterInstance, s) := getSupercluster s in
      match map, clusterLayer with
      | Some map, Some _ =>
          let s := set_clusterLayerRef (Some []) s in
          if (length (pointsRef s) =? 0)%nat then (Normal, s)
          else
            let zoom := zoom map in
            let bounds := visible_bounds (center map) zoom in
            let clusters :=
              match heap s !! superclusterInstance with
              | Some index => getClusters index bounds zoom
              | None => []
              end in
            let s := fold_left (drawCluster superclusterInstance) clusters s in
            match shouldFitBoundsRef s, boundsRef s with
            | true, Some (Some (sw, ne)) =>
                match fire (renderClusters_sync stack inside) inside
                        (fitBounds sw ne s) with
                | (Normal, s) => (Normal, set_shouldFitBoundsRef false s)
                | (Throw, s) => (Throw, s)
                end
            | _, _ => (Normal, s)
            end
      | _, _ => (Normal, s)
      end
  end.

(** [superclusterInstance.getClusterExpansionZoom(clusterId)] as the
    click handler calls it, on the instance the closure kept. *)
Definition expansion_lookup `{Engine} (c : ClickClosure) (s : State) : option Z :=
  match heap s !! closure_instance c with
  | Some index => getClusterExpansionZoom index (closure_clusterId c)
  | None => None
  end.

(** The click handler of a cluster marker.  A lookup that throws is
    caught: the handler warns and returns. *)
Definition onClusterClick `{Engine} (c : ClickClosure) (s : State)
  : Completion * State :=
  if (length (pointsRef s) =? 0)%nat then (Normal, s)
  else
    match expansion_lookup c s with
    | None => (Normal, log ConsoleWarn s)
    | Some z =>
        let nextZoom := Z.min z CLUSTER_MAX_ZOOM in
        let target := {| lat := closure_lat c; lng := closure_lng c |} in
        (Normal,
         log (FlyTo target nextZoom)
           (set_mapRef
              ((fun _ => {| center := target; zoom := nextZoom |}) <$> mapRef s) s))
    end.

(** The body of [collection.features.forEach] in [addCollection]; the
    accumulator is the state, [newPoints] and [nextBounds]. *)
Definition indexFeature (acc : State * list PointFeature * LatLngBounds)
  (feature : Feature) : State * list PointFeature * LatLngBounds :=
  let '(s, newPoints, nextBounds) := acc in
  match geometryToLatLng (geometry feature) with
  | None => acc
  | Some center =>
      let id := nextFeatureIdRef s in
      let s := set_nextFeatureIdRef (id + 1) s in
      let s := set_featureMapRef (<[id := feature]> (featureMapRef s)) s in
      (s,
       newPoints ++ [{| coordinates := (lng center, lat center); point_id := id |}],
       extend nextBounds center)
  end.

Definition addCollection `{Engine} (mapReady : bool) (collection : list Feature)
  (s : State) : State :=
  if (length collection =? 0)%nat then s
  else
    let '(superclusterInstance, s) := getSupercluster s in
    let nextBounds :=
      match boundsRef s with
      | Some (Some (sw, ne)) => extend (extend None sw) ne
      | _ => None
      end in
    let '(s, newPoints, nextBounds) :=
      fold_left indexFeature collection (s, [], nextBounds) in
    if (length newPoints =? 0)%nat then s
    else
      let s := set_pointsRef (pointsRef s ++ newPoints) s in
      let s := set_boundsRef
                 (if isValid nextBounds then Some nextBounds else boundsRef s) s in
      let s := set_heap
                 (alter (fun index => load index (pointsRef s))
                    superclusterInstance (heap s)) s in
      if mapReady then renderClusters s else s.

(** *** The load effect *)

Record Response : Type := {
  ok : bool;
  status : Z;
  (** what [response.json()] resolves to; [None] when it rejects or
      resolves to something without a feature collection, which makes the
      first line of [addCollection] throw *)
  json : option ApiResponse
}.

(** Where the [load] coroutine is suspended. *)
Inductive Pc : Type :=
| AwaitFetch (limit : string) (cursor : option string)
| AwaitJson (response : Response)
| AwaitDelay
| Finished.

Record Session : Type := {
  state : State;
  pc : Pc;
  cursor : option string
}.

Definition is_truthy (text : option string) : bool :=
  match text with
  | Some EmptyString => false
  | Some _ => true
  | None => false
  end.

(** The [finally] block. *)
Definition load_finally (s : State) : State :=
  if negb (cancelledRef s) then set_isLoading false s else s.

(** The [catch] block, then [finally]. *)
Definition load_catch (s : State) : State :=
  let s := log ConsoleError s in
  let s := if toastRef s then log ToastShow s else s in
  load_finally s.

(** The loop test and, when it passes, the code up to [await fetch]. *)
Definition load_iterate (cursor : option string) (s : State) : Session :=
  if negb (cancelledRef s) then
    let limit := Route.String_of_number FETCH_LIMIT in
    let params_cursor := if is_truthy cursor then cursor else None in
    {| state := log (Fetch limit params_cursor) s;
       pc := AwaitFetch limit params_cursor;
       cursor := cursor |}
  else {| state := load_finally s; pc := Finished; cursor := cursor |}.

(** The effect body: reset the refs and the counters, then call [load],
    which runs up to its first [await]. *)
Definition startSession (s : State) : Session :=
  let s := set_cancelledRef false s in
  let s := set_shouldFitBoundsRef true s in
  let s := set_boundsRef None s in
  let s := set_featureMapRef ∅ s in
  let s := set_pointsRef [] s in
  let s := set_superclusterRef None s in
  let s := set_nextFeatureIdRef 1 s in
  let s := set_totalFetched 0 s in
  let s := set_hasMore true s in
  let s := set_isLoading true s in
  load_iterate None s.

(** What the environment does next: the promise of [fetch] settles
    ([None]: it rejects), the promise of [response.json()] settles, the
    delay runs out, the effect is cleaned up (the view is torn down),
    React sets the ref of the map or of the [Toast], the user moves the
    map ([moveend], [zoomend]), the map reports [whenReady], the user
    clicks the [i]-th layer of the cluster layer. *)
Inductive Event : Type :=
| FetchSettled (result : option Response)
| JsonSettled
| DelayElapsed
| Cleanup
| MapRefSet (instance : option Map)
| ToastRefSet (attached : bool)
| ViewportChanged (view : Map)
| WhenReady
| MarkerClick (i : nat).

Definition on_session (f : State -> State) (ss : Session) : Session :=
  {| state := f (state ss); pc := pc ss; cursor := cursor ss |}.

(** One move of the environment, and the code it resumes, up to the next
    suspension, for one run of the load effect: [ss] holds the refs and
    the state of the component and where the [load] coroutine of that run
    is suspended, and [mapReady] is the value the callbacks of that run
    closed over.  [Cleanup] is the cleanup of the run when the view is
    torn down.  A change of [mapReady] cleans the run up as well and
    starts a second run over the same refs, the first coroutine still
    suspended: the component with both runs is [Component.cstep]. *)
Definition step `{Engine} (mapReady : bool) (ss : Session) (e : Event) : Session :=
  match e, pc ss with
  | FetchSettled None, AwaitFetch _ _ =>
      {| state := load_catch (state ss); pc := Finished; cursor := cursor ss |}
  | FetchSettled (Some response), AwaitFetch _ _ =>
      if negb (ok response) then
        {| state := load_catch (state ss); pc := Finished; cursor := cursor ss |}
      else {| state := state ss; pc := AwaitJson response; cursor := cursor ss |}
  | JsonSettled, AwaitJson response =>
      match json response with
      | None =>
          {| state := load_catch (state ss); pc := Finished; cursor := cursor ss |}
      | Some payload =>
          let s := addCollection mapReady (features payload) (state ss) in
          let s := set_totalFetched
                     (totalFetched s + Z.of_nat (length (features payload))) s in
          if negb (is_truthy (nextCursor payload)) then
            {| state := load_finally (set_hasMore false s);
               pc := Finished;
               cursor := cursor ss |}
          else
            {| state := s; pc := AwaitDelay; cursor := nextCursor payload |}
      end
  | DelayElapsed, AwaitDelay => load_iterate (cursor ss) (state ss)
  | Cleanup, _ => on_session (set_cancelledRef true) ss
  | MapRefSet instance, _ => on_session (set_mapRef instance) ss
  | ToastRefSet attached, _ => on_session (set_toastRef attached) ss
  | ViewportChanged view, _ =>
      on_session
        (fun s =>
           let s := set_mapRef ((fun _ => view) <$> mapRef s) s in
           if mapReady then renderClusters s else s) ss
  | WhenReady, _ => on_session renderClusters ss
  | MarkerClick i, _ =>
      on_session
        (fun s =>
           match clusterLayerRef s with
           | Some layers =>
               match layers !! i with
               | Some (Marker _ _ _ (Some c)) => snd (onClusterClick c s)
               | _ => s
               end
           | None => s
           end) ss
  | _, _ => ss
  end.

Definition run `{Engine} (mapReady : bool) (events : list Event) (ss : Session)
  : Session :=
  fold_left (step mapReady) events ss.

Definition is_fetch (e : Effect) : bool :=
  match e with Fetch _ _ => true | _ => false end.

Definition is_toast (e : Effect) : bool :=
  match e with ToastShow => true | _ => false end.

Definition is_fit (e : Effect) : bool :=
  match e with FitBounds _ _ => true | _ => false end.

Definition count_effects (p : Effect -> bool) (s : State) : nat :=
  length (List.filter p (effects s)).

(** Network calls, notifications and auto-fits so far. *)
Definition fetches : State -> nat := count_effects is_fetch.
Definition toasts : State -> nat := count_effects is_toast.
Definition fits : State -> nat := count_effects is_fit.

End MapView.

(* ===================================================================== *)
(** ** The view loading from the endpoint                                   *)
(* ===================================================================== *)

Module EndToEnd.
Import GeoJSON MapView.

(** The browser's view of what the handler returned. *)
Definition received (r : Route.HttpResponse) : Response :=
  {| ok := (200 <=? Route.status r) && (Route.status r <=? 299);
     status := Route.status r;
     json :=
       match Route.body r with
       | Route.JsonPage page =>
           Some {| features := Route.features page;
                   nextCursor := Route.nextCursor page |}
       | Route.JsonError _ => None
       end |}.

Definition endpoint (db : Route.Database) (limit : string) (cursor : option string)
  : Response :=
  received (Route.GET db (Some limit) cursor).

(** Settle every suspension of [load] in turn, answering each fetch with
    [server]; returns the session and the responses served, oldest
    first. *)
Fixpoint drive `{Supercluster.Engine} (mapReady : bool)
  (server : string -> option string -> Response) (fuel : nat)
  (ss : Session) (served : list Response) : Session * list Response :=
  match fuel with
  | O => (ss, served)
  | S fuel =>
      match pc ss with
      | AwaitFetch limit cursor =>
          let r := server limit cursor in
          drive mapReady server fuel (step mapReady ss (FetchSettled (Some r)))
            (served ++ [r])
      | AwaitJson _ => drive mapReady server fuel (step mapReady ss JsonSettled) served
      | AwaitDelay => drive mapReady server fuel (step mapReady ss DelayElapsed) served
      | Finished => (ss, served)
      end
  end.

Definition has_features (r : Response) : bool :=
  match json r with
  | Some payload => negb (length (features payload) =? 0)%nat
  | None => false
  end.

Definition nonempty_pages (served : list Response) : nat :=
  length (List.filter has_features served).

End EndToEnd.

(* ===================================================================== *)
(** ** Vocabulary of the properties                                         *)
(* ===================================================================== *)

Module Vocabulary.
Import GeoJSON Leaflet Supercluster MapView.

(** The value of the decimal digits [d] written after the number
    [acc]. *)
Fixpoint decimal_after (d : Decimal.uint) (acc : Z) : Z :=
  match d with
  | Decimal.Nil => acc
  | Decimal.D0 l => decimal_after l (10 * acc + 0)
  | Decimal.D1 l => decimal_after l (10 * acc + 1)
  | Decimal.D2 l => decimal_after l (10 * acc + 2)
  | Decimal.D3 l => decimal_after l (10 * acc + 3)
  | Decimal.D4 l => decimal_after l (10 * acc + 4)
  | Decimal.D5 l => decimal_after l (10 * acc + 5)
  | Decimal.D6 l => decimal_after l (10 * acc + 6)
  | Decimal.D7 l => decimal_after l (10 * acc + 7)
  | Decimal.D8 l => decimal_after l (10 * acc + 8)
  | Decimal.D9 l => decimal_after l (10 * acc + 9)
  end.

Definition center_of (p : PointFeature) : LatLng :=
  {| lat := snd (coordinates p); lng := fst (coordinates p) |}.

(** The state of the geometry indexer is consistent: point ids are
    [1, 2, ..] in buffer order up to the next id to hand out, every point
    of the buffer resolves through the feature table to the feature whose
    envelope centre it is, the table has no other keys, the instance the
    ref holds was loaded with the whole buffer, and bounds are only kept
    once there is a point. *)
Record Indexed (s : State) : Prop := {
  ids_sequential : point_id <$> pointsRef s = seqZ 1 (nextFeatureIdRef s - 1);
  next_positive : 1 <= nextFeatureIdRef s;
  ids_resolve :
    forall p, p ∈ pointsRef s ->
      exists f, featureMapRef s !! point_id p = Some f
                /\ geometryToLatLng (geometry f) = Some (center_of p);
  table_assigned :
    forall k f, featureMapRef s !! k = Some f -> 1 <= k < nextFeatureIdRef s;
  index_current :
    forall a, superclusterRef s = Some a ->
      exists index, heap s !! a = Some index /\ loaded index = pointsRef s;
  bounds_after_points :
    boundsRef s = None
    \/ (exists sw ne, boundsRef s = Some (Some (sw, ne))) /\ pointsRef s <> []
}.

(** The instance the ref holds. *)
Definition current_index (s : State) : option Index :=
  match superclusterRef s with
  | Some a => heap s !! a
  | None => None
  end.

(** How many indexed points a query result stands for. *)
Definition represented_by (c : ClusterOrPoint) : Z :=
  match c with
  | Cluster _ _ point_count => point_count
  | Leaf _ => 1
  end.

Definition represented (result : list ClusterOrPoint) : Z :=
  fold_right (fun c total => represented_by c + total) 0 result.

(** The full-world bounds [[-180, -90, 180, 90]]. *)
Definition world : BBox :=
  {| west := -180; south := -90; east := 180; north := 90 |}.

(** A longitude and a latitude in range. *)
Definition on_earth (c : Q * Q) : Prop :=
  (-180 <= fst c)%Q /\ (fst c <= 180)%Q /\ (-90 <= snd c)%Q /\ (snd c <= 90)%Q.

(** The features of a batch that get a representative point. *)
Definition indexable (feature : Feature) : bool :=
  match geometryToLatLng (geometry feature) with
  | Some _ => true
  | None => false
  end.

(** Two states agree on everything the indexer and the loader own; only
    the drawn layers, the instances, the map view, the fit flag and the
    effect log may differ. *)
Record same_data (s s' : State) : Prop := {
  same_toastRef : toastRef s' = toastRef s;
  same_featureMapRef : featureMapRef s' = featureMapRef s;
  same_pointsRef : pointsRef s' = pointsRef s;
  same_nextFeatureIdRef : nextFeatureIdRef s' = nextFeatureIdRef s;
  same_boundsRef : boundsRef s' = boundsRef s;
  same_cancelledRef : cancelledRef s' = cancelledRef s;
  same_totalFetched : totalFetched s' = totalFetched s;
  same_hasMore : hasMore s' = hasMore s;
  same_isLoading : isLoading s' = isLoading s;
  same_fetches : fetches s' = fetches s;
  same_toasts : toasts s' = toasts s
}.

(** The loader's own fields and the effects it is answerable for. *)
Record same_control (s s' : State) : Prop := {
  control_toastRef : toastRef s' = toastRef s;
  control_cancelledRef : cancelledRef s' = cancelledRef s;
  control_totalFetched : totalFetched s' = totalFetched s;
  control_hasMore : hasMore s' = hasMore s;
  control_isLoading : isLoading s' = isLoading s;
  control_fetches : fetches s' = fetches s;
  control_toasts : toasts s' = toasts s
}.

(** Between two states either nothing was fitted and the flag is as it
    was, or the flag was up, is now down, and the view was fitted once. *)
Definition fit_step (s s' : State) : Prop :=
  (fits s' = fits s /\ shouldFitBoundsRef s' = shouldFitBoundsRef s)
  \/ (shouldFitBoundsRef s = true /\ shouldFitBoundsRef s' = false
      /\ fits s' = S (fits s)).

(** Fits so far, plus the one the flag still allows. *)
Definition fit_balance (s : State) : nat :=
  (fits s + if shouldFitBoundsRef s then 1 else 0)%nat.

(** The rows a request with the cursor of record [c] selects, before
    [ORDER BY] and [LIMIT]. *)
Definition selected (db : Route.Database) (c : option Z) : list Route.SicarRow :=
  match c with
  | Some c => filter (fun r => c < Route.id r) (Route.dm_sicar db)
  | None => Route.dm_sicar db
  end.

(** A planar engine to run the definitions on: two points are near when
    both coordinate differences, scaled by [2^zoom], are within the
    radius; the whole world is visible.  A cluster id packs the number of
    indexed points, the id of the seed point and the zoom; a lookup
    succeeds when the number of indexed points is still the same and the
    seed point is indexed. *)
Definition planar_within (r z : Z) (p q : PointFeature) : bool :=
  let scale := inject_Z (2 ^ z) in
  let dx := Qabs (fst (coordinates p) - fst (coordinates q)) in
  let dy := Qabs (snd (coordinates p) - snd (coordinates q)) in
  Qle_bool (dx * scale) (inject_Z r) && Qle_bool (dy * scale) (inject_Z r).

Definition planar_id (count : nat) (z : Z) (p : PointFeature) : Z :=
  Z.of_nat count * 2 ^ 32 + point_id p * 32 + (z + 1).

Definition planar_lookup (points : list PointFeature) (clusterId : Z) : option Z :=
  if (clusterId / 2 ^ 32 =? Z.of_nat (length points))
     && existsb (fun p => point_id p =? (clusterId mod 2 ^ 32) / 32) points
  then Some (clusterId mod 32)
  else None.

Definition planar_engine : Engine := {|
  within_radius := planar_within;
  synthetic_id := planar_id;
  expansion_zoom := planar_lookup;
  visible_bounds := fun _ _ => world;
  fit_view := fun b => (getCenter (fst b) (snd b), 10)
|}.

(** Sample data. *)
Definition sample_point (x y : Q) (i : Z) : Feature :=
  {| feature_id := i;
     properties := {| prop_id := i; cod_imovel := "BR" |};
     geometry := Some (Point (x, y)) |}.

Definition sample_empty (i : Z) : Feature :=
  {| feature_id := i;
     properties := {| prop_id := i; cod_imovel := "BR" |};
     geometry := Some (Polygon []) |}.

Definition sample_db : Route.Database :=
  {| Route.dm_sicar :=
       [ {| Route.id := 3; Route.row_cod_imovel := "C"; Route.geojson := Some (Point (3, 3)%Q) |};
         {| Route.id := 1; Route.row_cod_imovel := "A"; Route.geojson := Some (Point (1, 1)%Q) |};
         {| Route.id := 2; Route.row_cod_imovel := "B"; Route.geojson := None |} ];
     Route.online := true |}.

(** A session whose first page holds two features at one place and a
    degenerate one; the clusters are drawn; then a second page reloads the
    instance in place while the first marker is still drawn. *)
Definition stale_marker_session : Session :=
  run (H := planar_engine) false
    [MapRefSet (Some {| center := INITIAL_VIEW; zoom := INITIAL_ZOOM |});
     FetchSettled
       (Some {| ok := true; status := 200;
                json := Some {| features := [sample_point 1 1 10; sample_empty 11;
                                             sample_point 1 1 12];
                                nextCursor := Some "A"%string |} |});
     JsonSettled; WhenReady; DelayElapsed;
     FetchSettled
       (Some {| ok := true; status := 200;
                json := Some {| features := [sample_point 50 50 13];
                                nextCursor := None |} |});
     JsonSettled]
    (startSession mounted).

End Vocabulary.

Import GeoJSON Leaflet Supercluster MapView EndToEnd Vocabulary.


(* ===================================================================== *)
(** ** src/components/MapView.tsx: the progress line                        *)
(* ===================================================================== *)

Module Progress.
Import MapView.

(** [progressLabel]; [toLocaleString] stands for
    [totalFetched.toLocaleString("pt-BR")], which the platform provides. *)
Definition progressLabel (toLocaleString : Z -> string) (s : State) : string :=
  let total := toLocaleString (totalFetched s) in
  if isLoading s && hasMore s then
    ("Carregando: " ++ total ++ " registros carregados")%string
  else if negb (hasMore s) then
    ("Concluído: " ++ total ++ " registros carregados")%string
  else
    ("Preparando dados: " ++ total ++ " registros carregados")%string.

Definition showProgress (s : State) : bool := isLoading s || hasMore s.

End Progress.

(* ===================================================================== *)
(** ** Vocabulary of the further properties                                 *)
(* ===================================================================== *)

Module Enclosure.
Import Leaflet Supercluster MapView Vocabulary.

(** [p] lies in the rectangle with corners [sw] and [ne]. *)
Definition within (sw ne p : LatLng) : Prop :=
  (lat sw <= lat p)%Q /\ (lat p <= lat ne)%Q
  /\ (lng sw <= lng p)%Q /\ (lng p <= lng ne)%Q.

(** The accumulated bounds are absent while the buffer is empty, and
    otherwise valid and around every point of the buffer. *)
Definition Enclosed (s : State) : Prop :=
  match boundsRef s with
  | None => pointsRef s = []
  | Some None => False
  | Some (Some (sw, ne)) =>
      pointsRef s <> [] /\ forall p, p ∈ pointsRef s -> within sw ne (center_of p)
  end.

(** The bounds [addCollection] starts a batch from: a copy of the
    accumulated bounds. *)
Definition seed_bounds (b : option LatLngBounds) : LatLngBounds :=
  match b with
  | Some (Some (sw, ne)) => extend (extend None sw) ne
  | _ => None
  end.

(** The centres of the features of a batch that have one. *)
Definition centres (fs : list GeoJSON.Feature) : list LatLng :=
  omap (fun f => geometryToLatLng (GeoJSON.geometry f)) fs.

End Enclosure.

Module Instances.
Import Leaflet Supercluster MapView Vocabulary.

(** Over a store that held [h0] when the session began, the session has
    made no instance yet and the store is as it was, or it has made one,
    with the options of the view, at the first free address. *)
Definition SessionIndex (h0 : list Index) (s : State) : Prop :=
  match superclusterRef s with
  | None => heap s = h0
  | Some a =>
      a = length h0
      /\ exists index, heap s = h0 ++ [index]
           /\ radius index = CLUSTER_RADIUS /\ maxZoom index = CLUSTER_MAX_ZOOM
  end.


End Instances.


Module Delivery.
Import Supercluster MapView.

(** Strictly ascending ids. *)
Definition id_lt (r1 r2 : Route.SicarRow) : Prop := Route.id r1 < Route.id r2.

(** The feature each point of the buffer stands for, in buffer order. *)
Definition indexed_features (s : State) : list (option GeoJSON.Feature) :=
  (fun p => featureMapRef s !! point_id p) <$> pointsRef s.

(** The number of rows the handler asks for: the limit it works with,
    which is an integer whenever the statement runs. *)
Definition limit_of (limitParam : option string) : Z :=
  match Route.limit_number limitParam with
  | Route.Num n => n
  | Route.Frac q => Qfloor q
  | _ => 0
  end.

End Delivery.


(* ===================================================================== *)
(** ** src/unnamed/part_000: the view that queues collections              *)
(* ===================================================================== *)

Module QueuedView.
Import GeoJSON Leaflet Supercluster.

(** A [FeatureCollection]: its features. *)
Definition Collection : Type := list Feature.

Record State : Type := {
  (** is the [Toast] attached? *)
  toastRef : bool;
  mapRef : option Map;
  (** the GeoJSON layer and the collections added to it, oldest first *)
  geoJsonLayerRef : option (list Collection);
  (** collections that arrived while there was no layer *)
  queueRef : list Collection;
  cancelledRef : bool;
  shouldFitBoundsRef : bool;
  totalFetched : Z;
  hasMore : bool;
  isLoading : bool;
  (** what the component did to the outside, oldest first *)
  effects : list MapView.Effect
}.

Definition set_toastRef (v : bool) (s : State) : State :=
  {| toastRef := v;
     mapRef := mapRef s;
     geoJsonLayerRef := geoJsonLayerRef s;
     queueRef := queueRef s;
     cancelledRef := cancelledRef s;
     shouldFitBoundsRef := shouldFitBoundsRef s;
     totalFetched := totalFetched s;
     hasMore := hasMore s;
     isLoading := isLoading s;
     effects := effects s |}.

Definition set_mapRef (v : option Map) (s : State) : State :=
  {| toastRef := toastRef s;
     mapRef := v;
     geoJsonLayerRef := geoJsonLayerRef s;
     queueRef := queueRef s;
     cancelledRef := cancelledRef s;
     shouldFitBoundsRef := shouldFitBoundsRef s;
     totalFetched := totalFetched s;
     hasMore := hasMore s;
     isLoading := isLoading s;
     effects := effects s |}.

Definition set_geoJsonLayerRef (v : option (list Collection)) (s : State) : State :=
  {| toastRef := toastRef s;
     mapRef := mapRef s;
     geoJsonLayerRef := v;
     queueRef := queueRef s;
     cancelledRef := cancelledRef s;
     shouldFitBoundsRef := shouldFitBoundsRef s;
     totalFetched := totalFetched s;
     hasMore := hasMore s;
     isLoading := isLoading s;
     effects := effects s |}.

Definition set_queueRef (v : list Collection) (s : State) : State :=
  {| toastRef := toastRef s;
     mapRef := mapRef s;
     geoJsonLayerRef := geoJsonLayerRef s;
     queueRef := v;
     cancelledRef := cancelledRef s;
     shouldFitBoundsRef := shouldFitBoundsRef s;
     totalFetched := totalFetched s;
     hasMore := hasMore s;
     isLoading := isLoading s;
     effects := effects s |}.

Definition set_cancelledRef (v : bool) (s : State) : State :=
  {| toastRef := toastRef s;
     mapRef := mapRef s;
     geoJsonLayerRef := geoJsonLayerRef s;
     queueRef := queueRef s;
     cancelledRef := v;
     shouldFitBoundsRef := shouldFitBoundsRef s;
     totalFetched := totalFetched s;
     hasMore := hasMore s;
     isLoading := isLoading s;
     effects := effects s |}.

Definition set_shouldFitBoundsRef (v : bool) (s : State) : State :=
  {| toastRef := toastRef s;
     mapRef := mapRef s;
     geoJsonLayerRef := geoJsonLayerRef s;
     queueRef := queueRef s;
     cancelledRef := cancelledRef s;
     shouldFitBoundsRef := v;
     totalFetched := totalFetched s;
     hasMore := hasMore s;
     isLoading := isLoading s;
     effects := effects s |}.

Definition set_totalFetched (v : Z) (s : State) : State :=
  {| toastRef := toastRef s;
     mapRef := mapRef s;
     geoJsonLayerRef := geoJsonLayerRef s;
     queueRef := queueRef s;
     cancelledRef := cancelledRef s;
     shouldFitBoundsRef := shouldFitBoundsRef s;
     totalFetched := v;
     hasMore := hasMore s;
     isLoading := isLoading s;
     effects := effects s |}.

Definition set_hasMore (v : bool) (s : State) : State :=
  {| toastRef := toastRef s;
     mapRef := mapRef s;
     geoJsonLayerRef := geoJsonLayerRef s;
     queueRef := queueRef s;
     cancelledRef := cancelledRef s;
     shouldFitBoundsRef := shouldFitBoundsRef s;
     totalFetched := totalFetched s;
     hasMore := v;
     isLoading := isLoading s;
     effects := effects s |}.

Definition set_isLoading (v : bool) (s : State) : State :=
  {| toastRef := toastRef s;
     mapRef := mapRef s;
     geoJsonLayerRef := geoJsonLayerRef s;
     queueRef := queueRef s;
     cancelledRef := cancelledRef s;
     shouldFitBoundsRef := shouldFitBoundsRef s;
     totalFetched := totalFetched s;
     hasMore := hasMore s;
     isLoading := v;
     effects := effects s |}.

Definition set_effects (v : list MapView.Effect) (s : State) : State :=
  {| toastRef := toastRef s;
     mapRef := mapRef s;
     geoJsonLayerRef := geoJsonLayerRef s;
     queueRef := queueRef s;
     cancelledRef := cancelledRef s;
     shouldFitBoundsRef := shouldFitBoundsRef s;
     totalFetched := totalFetched s;
     hasMore := hasMore s;
     isLoading := isLoading s;
     effects := v |}.

(** The view as first mounted: no map, no layer, nothing queued. *)
Definition mounted : State :=
  {| toastRef := false;
     mapRef := None;
     geoJsonLayerRef := None;
     queueRef := [];
     cancelledRef := false;
     shouldFitBoundsRef := true;
     totalFetched := 0;
     hasMore := true;
     isLoading := false;
     effects := [] |}.

Definition log (e : MapView.Effect) (s : State) : State :=
  set_effects (effects s ++ [e]) s.

Definition ensureLayer (s : State) : option (list Collection) * State :=
  match mapRef s with
  | None => (None, s)
  | Some _ =>
      match geoJsonLayerRef s with
      | None => (Some [], set_geoJsonLayerRef (Some []) s)
      | Some layer => (Some layer, s)
      end
  end.

(** Modelled from the spec: [layer.getBounds()] is Leaflet's; as for a
    single geometry, the bounds of a layer are the "bounding envelope" of
    every position of every feature added to it. *)
Definition layer_bounds (layer : list Collection) : LatLngBounds :=
  fold_left extend
    (coordsToLatLng
       <$> flat_map (fun f => match geometry f with
                              | Some g => positions g
                              | None => []
                              end) (concat layer))
    None.

(** [layer.addData(collection)] and the fit that follows it, as
    [applyQueue] and [addCollection] both have it. *)
Definition draw `{Engine} (s : State) (collection : Collection) : State :=
  let layer := default [] (geoJsonLayerRef s) ++ [collection] in
  let s := set_geoJsonLayerRef (Some layer) s in
  match shouldFitBoundsRef s, mapRef s with
  | true, Some _ =>
      match layer_bounds layer with
      | Some (sw, ne) =>
          let '(c, z) := fit_view (sw, ne) in
          set_shouldFitBoundsRef false
            (log (MapView.FitBounds sw ne)
               (set_mapRef (Some {| center := c; zoom := z |}) s))
      | None => s
      end
  | _, _ => s
  end.

(** The loop takes the collections from the front of the queue until
    the queue is empty.  The queue only ever holds collections, so the
    guard on the value [shift] returns lets every one through. *)
Definition applyQueue `{Engine} (s : State) : State :=
  match ensureLayer s with
  | (None, s) => s
  | (Some _, s) => fold_left draw (queueRef s) (set_queueRef [] s)
  end.

Definition addCollection `{Engine} (collection : Collection) (s : State) : State :=
  match ensureLayer s with
  | (None, s) => set_queueRef (queueRef s ++ [collection]) s
  | (Some _, s) => draw s collection
  end.

Record Session : Type := {
  state : State;
  pc : MapView.Pc;
  cursor : option string
}.

(** The [finally] block. *)
Definition load_finally `{Engine} (s : State) : State :=
  if negb (cancelledRef s) then set_isLoading false (applyQueue s) else s.

(** The [catch] block, then [finally]. *)
Definition load_catch `{Engine} (s : State) : State :=
  let s := log MapView.ConsoleError s in
  let s := if toastRef s then log MapView.ToastShow s else s in
  load_finally s.

(** The loop test and, when it passes, [fetchChunk] up to [await fetch]. *)
Definition load_iterate `{Engine} (cursor : option string) (s : State) : Session :=
  if negb (cancelledRef s) then
    let limit := Route.String_of_number MapView.FETCH_LIMIT in
    let params_cursor := if MapView.is_truthy cursor then cursor else None in
    {| state := log (MapView.Fetch limit params_cursor) s;
       pc := MapView.AwaitFetch limit params_cursor;
       cursor := cursor |}
  else {| state := load_finally s; pc := MapView.Finished; cursor := cursor |}.

(** The effect body: reset the two flags, then call [load], which runs
    up to its first [await]. *)
Definition startSession `{Engine} (s : State) : Session :=
  let s := set_cancelledRef false s in
  let s := set_shouldFitBoundsRef true s in
  let s := set_isLoading true s in
  load_iterate None s.

Inductive Event : Type :=
| FetchSettled (result : option MapView.Response)
| JsonSettled
| DelayElapsed
| Cleanup
| MapRefSet (instance : option Map)
| ToastRefSet (attached : bool).

Definition on_session (f : State -> State) (ss : Session) : Session :=
  {| state := f (state ss); pc := pc ss; cursor := cursor ss |}.

Definition step `{Engine} (ss : Session) (e : Event) : Session :=
  match e, pc ss with
  | FetchSettled None, MapView.AwaitFetch _ _ =>
      {| state := load_catch (state ss); pc := MapView.Finished; cursor := cursor ss |}
  | FetchSettled (Some response), MapView.AwaitFetch _ _ =>
      if negb (MapView.ok response) then
        {| state := load_catch (state ss); pc := MapView.Finished; cursor := cursor ss |}
      else {| state := state ss; pc := MapView.AwaitJson response; cursor := cursor ss |}
  | JsonSettled, MapView.AwaitJson response =>
      match MapView.json response with
      | None =>
          {| state := load_catch (state ss); pc := MapView.Finished; cursor := cursor ss |}
      | Some payload =>
          let s := addCollection (MapView.features payload) (state ss) in
          let s := set_totalFetched
                     (totalFetched s + Z.of_nat (length (MapView.features payload))) s in
          let more := MapView.is_truthy (MapView.nextCursor payload) in
          let s := if negb more then set_hasMore false s else s in
          let s := applyQueue s in
          if negb more then
            {| state := load_finally s; pc := MapView.Finished; cursor := cursor ss |}
          else
            {| state := s; pc := MapView.AwaitDelay; cursor := MapView.nextCursor payload |}
      end
  | DelayElapsed, MapView.AwaitDelay => load_iterate (cursor ss) (state ss)
  | Cleanup, _ => on_session (set_cancelledRef true) ss
  | MapRefSet instance, _ =>
      on_session
        (fun s =>
           let s := set_mapRef instance s in
           let s := snd (ensureLayer s) in
           applyQueue s) ss
  | ToastRefSet attached, _ => on_session (set_toastRef attached) ss
  | _, _ => ss
  end.

Definition run `{Engine} (events : list Event) (ss : Session) : Session :=
  fold_left step events ss.

(** The collections on the layer, then those still queued. *)
Definition held (s : State) : list Collection :=
  default [] (geoJsonLayerRef s) ++ queueRef s.

(** The collection an event hands to [addCollection], if any. *)
Definition arrival (ss : Session) (e : Event) : list Collection :=
  match e, pc ss with
  | JsonSettled, MapView.AwaitJson response =>
      match MapView.json response with
      | Some payload => [MapView.features payload]
      | None => []
      end
  | _, _ => []
  end.

Fixpoint arrivals `{Engine} (ss : Session) (events : list Event) : list Collection :=
  match events with
  | [] => []
  | e :: events => arrival ss e ++ arrivals (step ss e) events
  end.

Definition fits (s : State) : nat := length (List.filter MapView.is_fit (effects s)).

(** With a map attached nothing is waiting in the queue. *)
Definition Drained (s : State) : Prop :=
  is_Some (mapRef s) -> queueRef s = [].

Definition fit_balance_queued (s : State) : nat :=
  (fits s + if shouldFitBoundsRef s then 1 else 0)%nat.

(** From [s] to [s'] the collections [extra] were taken in, behind
    those held before, none was dropped, the queue is still empty whenever
    a map is attached, and no fit was made that the flag did not allow. *)
Definition Keeps (extra : list Collection) (s s' : State) : Prop :=
  fit_balance_queued s' = fit_balance_queued s
  /\ (Drained s -> held s' = held s ++ extra /\ Drained s').

End QueuedView.


(* ===================================================================== *)
(** ** The database access layer ([withClient])                             *)
(* ===================================================================== *)

Module Db.

(** A settled promise. *)
Inductive Settled (T : Type) : Type :=
| Resolved (value : T)
| Rejected (error : string).
Arguments Resolved {T} value.
Arguments Rejected {T} error.

(** Modelled from the spec: the pool is pg's, "a pooled connection
    provider exposing scoped acquire, use, release access"; it is kept as
    the clients on lease and the number of clients handed out so far. *)
Record Pool : Type := {
  leased : list nat;
  made : nat
}.

(** Modelled from the spec: "acquire"; [up] says whether the server
    can be reached, and a client that is handed out is a new one. *)
Definition connect (up : bool) (p : Pool) : Settled nat * Pool :=
  if up then
    (Resolved (made p), {| leased := made p :: leased p; made := S (made p) |})
  else (Rejected "connect", p).

(** Modelled from the spec: "release" ends the lease of a client. *)
Definition release (client : nat) (p : Pool) : Pool :=
  {| leased := List.filter (fun c => negb (c =? client)%nat) (leased p);
     made := made p |}.

(** [await pool.connect()], then [try { return await fn(client) }
    finally { client.release() }]. *)
Definition withClient {T : Type} (up : bool) (fn : nat -> Settled T) (p : Pool)
  : Settled T * Pool :=
  match connect up p with
  | (Rejected error, p) => (Rejected error, p)
  | (Resolved client, p) => (fn client, release client p)
  end.

(** Every client on lease was handed out by the pool. *)
Definition Fresh (p : Pool) : Prop := forall c, c ∈ leased p -> (c < made p)%nat.

End Db.

Import Progress Enclosure Instances Delivery.

(* ===================================================================== *)
(** ** src/components/MapView.tsx: the component over its renders          *)
(* ===================================================================== *)

Module Component.
Import GeoJSON Leaflet Supercluster MapView.

(** One run of the load effect: the [load] coroutine it started, with
    the [mapReady] that its [addCollection] closed over, where the
    coroutine is suspended, and its variable [cursor]. *)
Record Loop : Type := {
  closure_mapReady : bool;
  loop_pc : Pc;
  loop_cursor : option string
}.

(** The component instance.  The refs and the state are made once, by
    [useRef] and [useState], and every run of the load effect works on
    them. *)
Record View : Type := {
  shared : State;
  (** the state [mapReady], as [setMapReady] left it *)
  mapReady : bool;
  (** the [mapReady] of the render committed last, which the callbacks
      and the effects in place closed over *)
  rendered_mapReady : bool;
  (** is [handleMove] registered for [moveend] and [zoomend]? *)
  listening : bool;
  (** the runs of the load effect, oldest first *)
  loops : list Loop;
  unmounted : bool
}.

Definition session_of (v : View) (l : Loop) : Session :=
  {| state := shared v; pc := loop_pc l; cursor := loop_cursor l |}.

(** What happens next: the promise that run [i] of the load effect
    awaits settles; something happens to the view (a ref is set, the map
    reports [whenReady], the user moves the map or clicks a marker);
    React commits the render that a change of [mapReady] asked for; the
    view is unmounted. *)
Inductive Move : Type :=
| Resume (i : nat) (e : Event)
| Happen (e : Event)
| Render
| Unmount.

Definition is_settlement (e : Event) : bool :=
  match e with
  | FetchSettled _ | JsonSettled | DelayElapsed => true
  | _ => false
  end.

(** The coroutine of run [i] goes on, with the closures of its own
    render, on the refs of the component.  After the unmount React drops
    what the coroutine sets in the state; the fields are still written
    here, and nothing reads them. *)
Definition resume `{Engine} (i : nat) (e : Event) (v : View) : View :=
  match loops v !! i with
  | Some l =>
      let ss := step (closure_mapReady l) (session_of v l) e in
      {| shared := state ss;
         mapReady := mapReady v;
         rendered_mapReady := rendered_mapReady v;
         listening := listening v;
         loops := <[i := {| closure_mapReady := closure_mapReady l;
                            loop_pc := pc ss;
                            loop_cursor := cursor ss |}]> (loops v);
         unmounted := unmounted v |}
  | None => v
  end.

(** The ref callback of the map ([instance && !mapReady] asks for
    [mapReady]), the ref of the [Toast], [whenReady] (which asks for
    [mapReady] and renders), [handleMove] when it is registered, and a
    click on a marker.  Nothing of an unmounted view is left to act
    on. *)
Definition happen `{Engine} (e : Event) (v : View) : View :=
  if unmounted v || is_settlement e then v
  else
    match e with
    | Cleanup => v
    | _ =>
        let ss := step (listening v)
                    {| state := shared v; pc := Finished; cursor := None |} e in
        {| shared := state ss;
           mapReady :=
             match e with
             | MapRefSet (Some _) => mapReady v || negb (rendered_mapReady v)
             | WhenReady => true
             | _ => mapReady v
             end;
           rendered_mapReady := rendered_mapReady v;
           listening := listening v;
           loops := loops v;
           unmounted := unmounted v |}
    end.

(** The commit of the render with [mapReady] true.  [addCollection] is a
    new function, so the load effect is cleaned up and runs again: its
    body lowers [cancelledRef], resets the refs and starts a second
    [load], while the first is still suspended.  Then the effect of
    l.300-321 registers [handleMove] if the map is attached, and the
    effect of l.323-327 renders. *)
Definition render `{Engine} (v : View) : View :=
  if mapReady v && negb (rendered_mapReady v) && negb (unmounted v) then
    let ss := startSession (set_cancelledRef true (shared v)) in
    {| shared := renderClusters (state ss);
       mapReady := true;
       rendered_mapReady := true;
       listening := match mapRef (state ss) with Some _ => true | None => false end;
       loops := loops v ++ [{| closure_mapReady := true;
                               loop_pc := pc ss;
                               loop_cursor := cursor ss |}];
       unmounted := unmounted v |}
  else v.

(** The unmount: the cleanup of the load effect raises [cancelledRef],
    the listeners are removed and React empties the refs of the map and
    of the [Toast]. *)
Definition unmount (v : View) : View :=
  {| shared := set_mapRef None (set_toastRef false (set_cancelledRef true (shared v)));
     mapReady := mapReady v;
     rendered_mapReady := rendered_mapReady v;
     listening := false;
     loops := loops v;
     unmounted := true |}.

(** The first commit: [mapReady] is false, the load effect runs, the
    other two effects do nothing. *)
Definition mount (s0 : State) : View :=
  let ss := startSession s0 in
  {| shared := state ss;
     mapReady := false;
     rendered_mapReady := false;
     listening := false;
     loops := [{| closure_mapReady := false;
                  loop_pc := pc ss;
                  loop_cursor := cursor ss |}];
     unmounted := false |}.

Definition cstep `{Engine} (v : View) (move : Move) : View :=
  match move with
  | Resume i e => if is_settlement e then resume i e v else v
  | Happen e => happen e v
  | Render => render v
  | Unmount => unmount v
  end.

Definition crun `{Engine} (moves : list Move) (v : View) : View :=
  fold_left cstep moves v.

(** Settle what run [i] awaits, answering its fetch with [server]. *)
Definition serve `{Engine} (server : string -> option string -> Response)
  (v : View) (i : nat) : View :=
  match loops v !! i with
  | Some l =>
      match loop_pc l with
      | AwaitFetch limit cursor =>
          resume i (FetchSettled (Some (server limit cursor))) v
      | AwaitJson _ => resume i JsonSettled v
      | AwaitDelay => resume i DelayElapsed v
      | Finished => v
      end
  | None => v
  end.

(** The runs take turns as [schedule] says. *)
Definition serve_all `{Engine} (server : string -> option string -> Response)
  (schedule : list nat) (v : View) : View :=
  fold_left (serve server) schedule v.

Definition is_finished (l : Loop) : bool :=
  match loop_pc l with
  | Finished => true
  | _ => false
  end.

(** The runs of the load effect that have ended. *)
Definition finished (v : View) : nat := length (List.filter is_finished (loops v)).

Definition all_finished (v : View) : bool := forallb is_finished (loops v).

End Component.

(** *** Vocabulary: what the runs of the load effect have delivered *)

Module Runs.
Import GeoJSON Supercluster MapView EndToEnd Vocabulary Delivery Component.




End Runs.

(* ===================================================================== *)
(** * Properties                                                            *)
(* ===================================================================== *)

(** ** Cursor tokens *)

Section CursorFacts.
Import Base64Url Route.

Lemma decode_encode_sextet (s : sextet) :
  decode_char (encode_sextet s) = Some s.
Proof.
  destruct s as [[[[[b5 b4] b3] b2] b1] b0].
  destruct b5, b4, b3, b2, b1, b0; vm_compute; reflexivity.
Qed.

(** Induction three bytes at a time. *)
Lemma list_ind3 {A} (P : list A -> Prop) :
  P [] -> (forall a, P [a]) -> (forall a b, P [a; b]) ->
  (forall a b c l, P l -> P (a :: b :: c :: l)) ->
  forall l, P l.
Proof.
  intros H0 H1 H2 H3.
  assert (H : forall l, P l /\ (forall a, P (a :: l)) /\ (forall a b, P (a :: b :: l))).
  { induction l as [|x l (IH0 & IH1 & IH2)]; [now auto|].
    repeat split; auto. }
  intros l. apply H.
Qed.

Lemma base64url_decode_encode (bytes : list ascii) : decode (encode bytes) = bytes.
Proof.
  unfold decode.
  induction bytes as [| [] | [] [] | [] [] [] rest IH] using list_ind3;
    cbn [encode sextets]; rewrite ?decode_encode_sextet;
    cbn [pack sextets]; try reflexivity.
  now rewrite IH.
Qed.

Lemma utf8_text_bytes (text : string) : utf8_text (utf8_bytes text) = text.
Proof. apply string_of_list_ascii_of_string. Qed.

Lemma to_int_not_nil (value : Z) :
  Z.to_int value <> Decimal.Pos Decimal.Nil /\ Z.to_int value <> Decimal.Neg Decimal.Nil.
Proof.
  destruct value as [|p|p]; cbn; split; try discriminate.
  - intros [= E]. revert E. apply DecimalPos.Unsigned.to_uint_nonnil.
  - intros [= E]. revert E. apply DecimalPos.Unsigned.to_uint_nonnil.
Qed.

Lemma String_of_number_nonempty (value : Z) : String_of_number value <> EmptyString.
Proof.
  unfold String_of_number. intros E.
  destruct (to_int_not_nil value) as [Hp Hn].
  pose proof (NilZero.isi (Z.to_int value) Hp Hn) as H.
  rewrite E in H. discriminate H.
Qed.

Lemma digits_String base read c rest acc count :
  digits base read (String c rest) acc count
  = match read c with
    | Some d => digits base read rest (base * acc + d) (S count)
    | None => (acc, count, String c rest)
    end.
Proof. reflexivity. Qed.

Lemma digits_of_uint (d : Decimal.uint) :
  forall acc count,
    exists count',
      digits 10 digit (NilEmpty.string_of_uint d) acc count
      = (decimal_after d acc, count', EmptyString)
      /\ (count <= count')%nat /\ (d <> Decimal.Nil -> (count < count')%nat).
Proof.
  induction d; intros acc count; cbn [NilEmpty.string_of_uint decimal_after];
    rewrite ?digits_String;
    try match goal with
        | |- context [digit ?c] =>
            let v := eval vm_compute in (digit c) in
            change (digit c) with v; cbv beta iota
        end;
    try (destruct (IHd (10 * acc + 0) (S count)) as (c' & -> & ? & _)
         || destruct (IHd (10 * acc + 1) (S count)) as (c' & -> & ? & _)
         || destruct (IHd (10 * acc + 2) (S count)) as (c' & -> & ? & _)
         || destruct (IHd (10 * acc + 3) (S count)) as (c' & -> & ? & _)
         || destruct (IHd (10 * acc + 4) (S count)) as (c' & -> & ? & _)
         || destruct (IHd (10 * acc + 5) (S count)) as (c' & -> & ? & _)
         || destruct (IHd (10 * acc + 6) (S count)) as (c' & -> & ? & _)
         || destruct (IHd (10 * acc + 7) (S count)) as (c' & -> & ? & _)
         || destruct (IHd (10 * acc + 8) (S count)) as (c' & -> & ? & _)
         || destruct (IHd (10 * acc + 9) (S count)) as (c' & -> & ? & _));
    eexists; (split; [reflexivity|]); split; try lia; try done; intros _; lia.
Qed.

Lemma decimal_after_pos (d : Decimal.uint) :
  forall p, decimal_after d (Z.pos p) = Z.pos (Pos.of_uint_acc d p).
Proof.
  induction d; intros p; cbn [decimal_after Pos.of_uint_acc]; [done|..];
    match goal with |- decimal_after _ ?a = Z.pos (Pos.of_uint_acc _ ?b) =>
      replace a with (Z.pos b) by lia end; apply IHd.
Qed.

Lemma decimal_after_zero (d : Decimal.uint) : decimal_after d 0 = Z.of_uint d.
Proof.
  unfold Z.of_uint.
  induction d; cbn [decimal_after Pos.of_uint]; [done|exact IHd|..];
    match goal with |- decimal_after _ ?a = _ =>
      let b := eval cbv in a in change a with b end;
    by rewrite decimal_after_pos.
Qed.

Lemma Number_digits (d : Decimal.uint) :
  d <> Decimal.Nil ->
  Number (NilEmpty.string_of_uint d) = Num (Z.of_uint d)
  /\ Number (String "-" (NilEmpty.string_of_uint d)) = Num (- Z.of_uint d).
Proof.
  intros Hd. rewrite <- decimal_after_zero.
  assert (forall c k rest value count,
            digit c = Some k ->
            strip_prefix "Infinity" (String c rest) = None ->
            digits 10 digit rest (10 * 0 + k) 1 = (value, S count, EmptyString) ->
            unsigned_decimal (String c rest) = Num value) as Hunsigned.
  { intros c k rest value count Hc Hinf Hrest. unfold unsigned_decimal.
    rewrite Hinf, digits_String, Hc, Hrest. cbn.
    unfold ten_to. cbn. by rewrite Z.mul_1_r. }
  destruct d as [|d|d|d|d|d|d|d|d|d|d]; [done|..].
  all: cbn [NilEmpty.string_of_uint decimal_after].
  all: match goal with |- context [decimal_after ?l ?a] =>
         destruct (digits_of_uint l a 1) as ([|c0] & E0 & H0 & _); [lia|] end.
  2-10: split; unfold Number, trim_start; cbn -[unsigned_decimal];
    (erewrite Hunsigned; [reflexivity|reflexivity|reflexivity|exact E0]).
  destruct d as [|d|d|d|d|d|d|d|d|d|d];
    (split; unfold Number, trim_start; cbn -[unsigned_decimal];
     (erewrite Hunsigned; [reflexivity|reflexivity|reflexivity|exact E0])).
Qed.

Lemma Number_String (value : Z) : Number (String_of_number value) = Num value.
Proof.
  unfold String_of_number.
  destruct value as [|p|p]; [reflexivity|..]; cbn [Z.to_int NilZero.string_of_int].
  - pose proof (DecimalPos.Unsigned.to_uint_nonnil p) as Hd.
    destruct (Number_digits (Pos.to_uint p) Hd) as [E _].
    unfold NilZero.string_of_uint.
    destruct (Pos.to_uint p) eqn:Ep; [done|..]; rewrite E; unfold Z.of_uint;
      rewrite <- Ep, DecimalPos.Unsigned.of_to; reflexivity.
  - pose proof (DecimalPos.Unsigned.to_uint_nonnil p) as Hd.
    destruct (Number_digits (Pos.to_uint p) Hd) as [_ E].
    unfold NilZero.string_of_uint.
    destruct (Pos.to_uint p) eqn:Ep; [done|..];
      change (append "-" ?s) with (String "-" s); cbn [append]; rewrite E; unfold Z.of_uint;
      rewrite <- Ep, DecimalPos.Unsigned.of_to; reflexivity.
Qed.

Lemma cursor_token_decodes (n : Z) : decodeCursor (encodeCursor n) = Num n.
Proof.
  unfold decodeCursor, encodeCursor.
  rewrite base64url_decode_encode, utf8_text_bytes.
  apply Number_String.
Qed.

(** C9: decoding the base64url token that encodes a record id gives the
    id back, for every integer id. *)
Theorem decodeCursor_encodeCursor (n : Z) : decodeCursor (encodeCursor n) = Num n.
Proof.
  unfold decodeCursor, encodeCursor.
  rewrite base64url_decode_encode, utf8_text_bytes.
  apply Number_String.
Qed.

Lemma encodeCursor_truthy (n : Z) : truthy (Some (encodeCursor n)) = true.
Proof.
  unfold encodeCursor, utf8_bytes.
  pose proof (String_of_number_nonempty n) as H.
  destruct (String_of_number n) as [|[] [|[] [|[] rest]]]; [congruence| | |]; reflexivity.
Qed.

End CursorFacts.

(** ** Frames: which fields an operation can change *)

Section Frames.
Context `{Engine}.

Lemma same_data_refl s : same_data s s.
Proof. by split. Qed.

Lemma same_data_trans s1 s2 s3 : same_data s1 s2 -> same_data s2 s3 -> same_data s1 s3.
Proof. intros [] []; split; congruence. Qed.

Lemma count_effects_log p e s :
  count_effects p (log e s) = (count_effects p s + if p e then 1 else 0)%nat.
Proof.
  unfold count_effects, log; cbn.
  rewrite List.filter_app, length_app; cbn. by destruct (p e).
Qed.

Lemma drawCluster_layers a s c :
  exists layers, drawCluster a s c = set_clusterLayerRef layers s.
Proof.
  destruct c as [[lng lat] cid n | p]; cbn.
  - eexists; reflexivity.
  - destruct (point_id p =? 0); [exists (clusterLayerRef s); by destruct s|].
    destruct (featureMapRef s !! point_id p);
      [eexists; reflexivity | exists (clusterLayerRef s); by destruct s].
Qed.

Lemma fold_drawCluster_layers a cs s :
  exists layers, fold_left (drawCluster a) cs s = set_clusterLayerRef layers s.
Proof.
  revert s. induction cs as [|c cs IH]; intros s; cbn.
  - exists (clusterLayerRef s); by destruct s.
  - destruct (drawCluster_layers a s c) as [l1 ->].
    destruct (IH (set_clusterLayerRef l1 s)) as [l2 ->].
    by exists l2.
Qed.

Lemma getSupercluster_same s : same_data s (getSupercluster s).2.
Proof. unfold getSupercluster. destruct (superclusterRef s); by split. Qed.

Lemma ensureClusterLayer_same s : same_data s (ensureClusterLayer s).2.
Proof.
  unfold ensureClusterLayer.
  destruct (mapRef s); [destruct (clusterLayerRef s)|]; by split.
Qed.

End Frames.

Ltac open_render :=
  unfold renderClusters, ensureClusterLayer, getSupercluster, fitBounds, log;
  repeat first
    [ progress cbn -[getClusters Nat.ltb Nat.eqb]
    | match goal with
      | |- context [fold_left (drawCluster ?a) ?cs ?t] =>
          let L := fresh "L" in
          destruct (fold_drawCluster_layers a cs t) as [L ->]
      | |- context [fit_view ?b] => destruct (fit_view b)
      end
    | case_match; simplify_eq/= ].

Ltac count_log :=
  unfold fetches, toasts, fits, count_effects; cbn;
  rewrite ?List.filter_app, ?length_app; cbn; try lia.

Section RenderFrames.
Context `{Engine}.

Lemma renderClusters_same s : same_data s (renderClusters s).
Proof.
  destruct s. open_render; split; try reflexivity; count_log.
Qed.

Lemma renderClusters_fit_step s : fit_step s (renderClusters s).
Proof.
  destruct s. unfold fit_step.
  open_render; count_log; auto with lia.
Qed.

End RenderFrames.

(** ** The geometry indexer *)

Section Indexer.
Context `{Engine}.

Lemma geometryToLatLng_nonempty g c :
  geometryToLatLng g = Some c -> nonempty_geometry g.
Proof.
  destruct g as [g|]; [|discriminate]. cbn.
  intros Hc. exists g. split; [reflexivity|]. intros Hnil.
  unfold geoJSON_getBounds in Hc. rewrite Hnil in Hc. discriminate.
Qed.

Lemma in_filter_indexable (fs : list Feature) i f :
  List.filter indexable fs !! i = Some f -> indexable f = true.
Proof.
  intros Hi. apply list_elem_of_lookup_2, list_elem_of_In, List.filter_In in Hi.
  tauto.
Qed.

(** What the [forEach] of [addCollection] leaves in its accumulator. *)
Lemma fold_indexFeature (fs : list Feature) :
  forall s pts nb,
    let kept := List.filter indexable fs in
    let next := nextFeatureIdRef s in
    exists table new nb',
      fold_left indexFeature fs (s, pts, nb)
      = (set_featureMapRef table
           (set_nextFeatureIdRef (next + Z.of_nat (length kept)) s),
         pts ++ new, nb')
      /\ length new = length kept
      /\ (forall i f, kept !! i = Some f ->
            table !! (next + Z.of_nat i) = Some f
            /\ exists p, new !! i = Some p /\ point_id p = next + Z.of_nat i
                         /\ geometryToLatLng (geometry f) = Some (center_of p))
      /\ (forall k, ~ (next <= k < next + Z.of_nat (length kept)) ->
            table !! k = featureMapRef s !! k)
      /\ (kept = [] /\ nb' = nb \/ kept <> [] /\ isValid nb' = true).
Proof.
  induction fs as [|f fs IH]; intros s pts nb; cbn.
  - exists (featureMapRef s), [], nb. rewrite Z.add_0_r, app_nil_r.
    split; [by destruct s|]. split; [done|]. split; [intros i f [=]|].
    split; [done|]. by left.
  - assert (Hix : indexable f = match geometryToLatLng (geometry f) with Some _ => true | None => false end)
      by reflexivity.
    destruct (geometryToLatLng (geometry f)) as [c|] eqn:Ec; rewrite Hix; [|apply IH].
    cbn zeta.
    set (s1 := set_featureMapRef _ _).
    set (p := {| coordinates := _; point_id := _ |}).
    destruct (IH s1 (pts ++ [p]) (extend nb c))
      as (table & new & nb' & -> & Hlen & Hkept & Hother & Hnb).
    exists table, (p :: new), nb'. cbn [length].
    split; [|split; [|split; [|split]]].
    + replace ((pts ++ [p]) ++ new) with (pts ++ p :: new)
        by (by rewrite <- app_assoc).
      do 2 f_equal. subst s1. destruct s; cbn.
      unfold set_featureMapRef, set_nextFeatureIdRef; cbn. f_equal. lia.
    + lia.
    + intros [|i] f0 Hi; cbn in Hi.
      * injection Hi as <-. split.
        -- rewrite Hother by (subst s1; cbn; lia).
           subst s1; cbn. rewrite Z.add_0_r. apply lookup_insert_eq.
        -- exists p. split; [done|]. split; [subst p; cbn; lia|].
           rewrite Ec. subst p. by destruct c.
      * destruct (Hkept i f0 Hi) as [Ht (q & Hq & Hid & Hc)].
        subst s1; cbn in Ht, Hid.
        replace (nextFeatureIdRef s + Z.of_nat (S i))
          with (nextFeatureIdRef s + 1 + Z.of_nat i) by lia.
        split; [done|]. by exists q.
    + intros k Hk. rewrite Hother by (subst s1; cbn; lia).
      subst s1; cbn. apply lookup_insert_ne. lia.
    + right. split; [done|].
      destruct Hnb as [[_ ->]|[_ ?]]; [by destruct nb as [[]|]|done].
Qed.

(** [addCollection] in normal form: nothing is kept and the state is
    as it was (up to the instance made on the way), or the kept features
    are stored, the buffer grows, the instance is reloaded with the whole
    buffer and, when the map is ready, the clusters are drawn. *)
Lemma addCollection_cases mapReady (fs : list Feature) s :
  let kept := List.filter indexable fs in
  let next := nextFeatureIdRef s in
  let a := (getSupercluster s).1 in
  let s0 := (getSupercluster s).2 in
  (kept = []
   /\ (fs = [] /\ addCollection mapReady fs s = s
       \/ fs <> [] /\ addCollection mapReady fs s = s0))
  \/ (kept <> []
      /\ exists table new sw ne,
          length new = length kept
          /\ (forall i f, kept !! i = Some f ->
                table !! (next + Z.of_nat i) = Some f
                /\ exists p, new !! i = Some p /\ point_id p = next + Z.of_nat i
                             /\ geometryToLatLng (geometry f) = Some (center_of p))
          /\ (forall k, ~ (next <= k < next + Z.of_nat (length kept)) ->
                table !! k = featureMapRef s !! k)
          /\ addCollection mapReady fs s
             = (if mapReady then renderClusters else id)
                 (set_heap
                    (alter (fun index => load index (pointsRef s ++ new)) a (heap s0))
                    (set_boundsRef (Some (Some (sw, ne)))
                       (set_pointsRef (pointsRef s ++ new)
                          (set_featureMapRef table
                             (set_nextFeatureIdRef
                                (next + Z.of_nat (length kept)) s0)))))).
Proof.
  intros kept next a s0. unfold addCollection.
  destruct fs as [|f0 fs0]; [left; split; [done|by left]|].
  assert (f0 :: fs0 <> []) as Hfs by done.
  set (fs := f0 :: fs0) in *.
  change (length fs =? 0)%nat with false. cbv iota.
  pose proof (getSupercluster_same s) as Hs0.
  destruct (getSupercluster s) as [a' s0'] eqn:Eg. cbn in a, s0, Hs0. subst a s0.
  match goal with
  | |- context [fold_left indexFeature fs (s0', [], ?n)] => set (nb := n)
  end.
  destruct (fold_indexFeature fs s0' [] nb)
    as (table & new & nb' & -> & Hlen & Hkept & Hother & Hnb).
  fold kept in Hlen, Hkept, Hother, Hnb |- *.
  rewrite (same_nextFeatureIdRef _ _ Hs0) in *. fold next in Hkept, Hother |- *.
  rewrite (same_featureMapRef _ _ Hs0) in Hother.
  cbn [app].
  destruct Hnb as [[Hnil ->]|[Hne Hvalid]].
  - left. split; [done|]. right. split; [done|].
    rewrite Hnil in Hlen. destruct new; [|done].
    rewrite Hnil. cbn. rewrite Z.add_0_r.
    assert (table = featureMapRef s0') as ->.
    { apply map_eq. intros k. rewrite (same_featureMapRef _ _ Hs0).
      apply Hother. rewrite Hnil. cbn. lia. }
    unfold next. rewrite <- (same_nextFeatureIdRef _ _ Hs0). by destruct s0'.
  - right. split; [done|].
    destruct nb' as [[sw ne]|]; [|done].
    exists table, new, sw, ne.
    split; [done|]. split; [done|]. split; [done|].
    destruct (length new =? 0)%nat eqn:Enew.
    { apply Nat.eqb_eq in Enew. rewrite Enew in Hlen. by destruct kept. }
    destruct mapReady; cbn -[renderClusters];
      rewrite (same_pointsRef _ _ Hs0); reflexivity.
Qed.

End Indexer.

(** ** The indexer's invariant *)

Section Invariant.
Context `{Engine}.

Lemma Indexed_fields s s' :
  pointsRef s' = pointsRef s ->
  nextFeatureIdRef s' = nextFeatureIdRef s ->
  featureMapRef s' = featureMapRef s ->
  superclusterRef s' = superclusterRef s ->
  heap s' = heap s ->
  boundsRef s' = boundsRef s ->
  Indexed s -> Indexed s'.
Proof.
  intros Hp Hn Hf Hr Hh Hb [].
  split; rewrite ?Hp, ?Hn, ?Hf, ?Hr, ?Hh, ?Hb; assumption.
Qed.

Lemma getSupercluster_current s :
  Indexed s ->
  let a := (getSupercluster s).1 in
  let s0 := (getSupercluster s).2 in
  Indexed s0 /\ superclusterRef s0 = Some a
  /\ exists index, heap s0 !! a = Some index /\ loaded index = pointsRef s.
Proof.
  intros Hs. unfold getSupercluster.
  destruct (superclusterRef s) as [a|] eqn:Eref; cbn.
  - split; [done|]. split; [done|]. by apply (index_current s Hs).
  - split; [|split; [done|]].
    + destruct Hs. split; cbn; try assumption.
      intros a [= <-]. eexists. split; [apply list_lookup_middle; done|].
      destruct (pointsRef s); reflexivity.
    + eexists. split; [apply list_lookup_middle; done|].
      destruct (pointsRef s); reflexivity.
Qed.

Lemma renderClusters_instance s :
  superclusterRef (renderClusters s) = superclusterRef (getSupercluster s).2
  /\ heap (renderClusters s) = heap (getSupercluster s).2.
Proof. destruct s. open_render; done. Qed.

Lemma renderClusters_Indexed s : Indexed s -> Indexed (renderClusters s).
Proof.
  intros Hs. destruct (getSupercluster_current s Hs) as (Hs0 & _ & _).
  pose proof (renderClusters_same s) as Hr.
  pose proof (getSupercluster_same s) as Hg.
  destruct (renderClusters_instance s) as [Hi Hh].
  apply (Indexed_fields (getSupercluster s).2); [| | | done | done | | done].
  - by rewrite (same_pointsRef _ _ Hr), (same_pointsRef _ _ Hg).
  - by rewrite (same_nextFeatureIdRef _ _ Hr), (same_nextFeatureIdRef _ _ Hg).
  - by rewrite (same_featureMapRef _ _ Hr), (same_featureMapRef _ _ Hg).
  - by rewrite (same_boundsRef _ _ Hr), (same_boundsRef _ _ Hg).
Qed.

Lemma new_ids (new : list PointFeature) (kept : list Feature) next
  (P : Feature -> PointFeature -> Prop) :
  length new = length kept ->
  (forall i f, kept !! i = Some f ->
     exists p, new !! i = Some p /\ point_id p = next + Z.of_nat i /\ P f p) ->
  point_id <$> new = seqZ next (Z.of_nat (length kept)).
Proof.
  intros Hlen Hkept. apply list_eq. intros i.
  rewrite list_lookup_fmap.
  destruct (decide (i < length kept)%nat) as [Hi|Hi].
  - destruct (lookup_lt_is_Some_2 kept i Hi) as [f Hf].
    destruct (Hkept i f Hf) as (p & -> & Hid & _). cbn.
    rewrite lookup_seqZ_lt by lia. by rewrite Hid.
  - rewrite lookup_seqZ_ge by lia.
    rewrite (lookup_ge_None_2 new) by lia. done.
Qed.

Lemma addCollection_Indexed mapReady fs s :
  Indexed s -> Indexed (addCollection mapReady fs s).
Proof.
  intros Hs.
  destruct (getSupercluster_current s Hs) as (Hs0 & Hrefa & index & Hindex & Hloaded).
  pose proof (getSupercluster_same s) as Hg.
  destruct (addCollection_cases mapReady fs s)
    as [[_ [[_ ->] | [_ ->]]] | (Hne & table & new & sw & ne & Hlen & Hkept & Hother & ->)];
    [done | done |].
  set (kept := List.filter indexable fs) in *.
  set (s0 := (getSupercluster s).2) in *.
  set (a := (getSupercluster s).1) in *.
  match goal with |- Indexed (_ ?t) => assert (Indexed t) as Hs2 end.
  { destruct Hs as [Hids Hpos Hres Htab _ _].
    split; cbn.
    - rewrite fmap_app, Hids.
      rewrite (new_ids new kept (nextFeatureIdRef s)
                 (fun f p => geometryToLatLng (geometry f) = Some (center_of p)))
        by (try done; intros i f Hf; by destruct (Hkept i f Hf)).
      replace (nextFeatureIdRef s + Z.of_nat (length kept) - 1)
        with ((nextFeatureIdRef s - 1) + Z.of_nat (length kept)) by lia.
      rewrite seqZ_app by lia. do 2 f_equal. lia.
    - lia.
    - intros p [Hp|Hp]%elem_of_app.
      + destruct (Hres p Hp) as (f & Hf & Hc). exists f. split; [|done].
        rewrite Hother; [done|]. apply Htab in Hf. lia.
      + apply list_elem_of_lookup in Hp as [i Hi].
        assert (i < length kept)%nat as Hlt
          by (rewrite <- Hlen; by apply lookup_lt_Some in Hi).
        destruct (lookup_lt_is_Some_2 kept i Hlt) as [f Hf].
        destruct (Hkept i f Hf) as (Ht & q & Hq & Hid & Hc).
        assert (q = p) as -> by congruence.
        exists f. rewrite Hid. done.
    - intros k f Hk.
      destruct (decide (nextFeatureIdRef s <= k
                        < nextFeatureIdRef s + Z.of_nat (length kept))); [lia|].
      rewrite Hother in Hk by done. apply Htab in Hk. lia.
    - intros a'. rewrite Hrefa. intros [= <-].
      exists (load index (pointsRef s ++ new)). split; [|done].
      by rewrite list_lookup_alter_eq, Hindex.
    - right. split; [by eauto|].
      destruct new; [by destruct kept|]. by destruct (pointsRef s). }
  destruct mapReady; [by apply renderClusters_Indexed|done].
Qed.

Lemma startSession_Indexed s : Indexed (state (startSession s)).
Proof.
  unfold startSession, load_iterate; cbn.
  split; cbn; try done.
  - intros p Hp. by apply elem_of_nil in Hp.
  - by left.
Qed.

End Invariant.

(** ** Steps of a session *)

Section Steps.
Context `{Engine}.

Lemma same_data_control s s' : same_data s s' -> same_control s s'.
Proof. intros []; by split. Qed.

Lemma same_control_trans s1 s2 s3 :
  same_control s1 s2 -> same_control s2 s3 -> same_control s1 s3.
Proof. intros [] []; split; congruence. Qed.

Lemma addCollection_control mapReady fs s :
  same_control s (addCollection mapReady fs s).
Proof.
  pose proof (same_data_control _ _ (getSupercluster_same s)) as Hg.
  destruct (addCollection_cases mapReady fs s)
    as [[_ [[_ ->] | [_ ->]]] | (_ & table & new & sw & ne & _ & _ & _ & ->)];
    [by split | done |].
  eapply same_control_trans; [apply Hg|].
  set (s0 := (getSupercluster s).2).
  match goal with |- same_control _ (_ ?t) => assert (same_control s0 t) as Ht by (by split) end.
  destruct mapReady; [|done].
  eapply same_control_trans; [apply Ht|].
  apply same_data_control, renderClusters_same.
Qed.

Lemma addCollection_fit_step mapReady fs s :
  fit_step s (addCollection mapReady fs s).
Proof.
  assert (Hg : fits (getSupercluster s).2 = fits s
               /\ shouldFitBoundsRef (getSupercluster s).2 = shouldFitBoundsRef s).
  { unfold getSupercluster. by destruct (superclusterRef s). }
  destruct (addCollection_cases mapReady fs s)
    as [[_ [[_ ->] | [_ ->]]] | (_ & table & new & sw & ne & _ & _ & _ & ->)];
    [by left | by left |].
  set (s0 := (getSupercluster s).2) in *.
  match goal with
  | |- fit_step _ (_ ?t) =>
      assert (fits t = fits s /\ shouldFitBoundsRef t = shouldFitBoundsRef s)
        as [Hf Hb] by done
  end.
  destruct mapReady; [|by left].
  match goal with |- fit_step _ (_ ?t) => pose proof (renderClusters_fit_step t) as Hr end.
  unfold fit_step in *. rewrite <- Hf, <- Hb. exact Hr.
Qed.

Lemma onClusterClick_same c s : same_data s (onClusterClick c s).2.
Proof.
  unfold onClusterClick. repeat case_match; cbn; split; try done; count_log.
Qed.

Lemma onClusterClick_fit c s :
  fits (onClusterClick c s).2 = fits s
  /\ shouldFitBoundsRef (onClusterClick c s).2 = shouldFitBoundsRef s.
Proof.
  unfold onClusterClick. repeat case_match; cbn; split; try done; count_log.
Qed.

Lemma onClusterClick_instance c s :
  superclusterRef (onClusterClick c s).2 = superclusterRef s
  /\ heap (onClusterClick c s).2 = heap s.
Proof. unfold onClusterClick. by repeat case_match. Qed.

Lemma load_catch_fields s :
  pointsRef (load_catch s) = pointsRef s
  /\ nextFeatureIdRef (load_catch s) = nextFeatureIdRef s
  /\ featureMapRef (load_catch s) = featureMapRef s
  /\ superclusterRef (load_catch s) = superclusterRef s
  /\ heap (load_catch s) = heap s
  /\ boundsRef (load_catch s) = boundsRef s
  /\ shouldFitBoundsRef (load_catch s) = shouldFitBoundsRef s
  /\ cancelledRef (load_catch s) = cancelledRef s
  /\ fits (load_catch s) = fits s
  /\ fetches (load_catch s) = fetches s
  /\ toasts (load_catch s) = (toasts s + if toastRef s then 1 else 0)%nat.
Proof.
  unfold load_catch, load_finally. destruct s; cbn.
  repeat case_match; cbn; repeat split; count_log.
Qed.

Lemma load_iterate_fields c s :
  let s' := state (load_iterate c s) in
  pointsRef s' = pointsRef s
  /\ nextFeatureIdRef s' = nextFeatureIdRef s
  /\ featureMapRef s' = featureMapRef s
  /\ superclusterRef s' = superclusterRef s
  /\ heap s' = heap s
  /\ boundsRef s' = boundsRef s
  /\ shouldFitBoundsRef s' = shouldFitBoundsRef s
  /\ cancelledRef s' = cancelledRef s
  /\ fits s' = fits s
  /\ toasts s' = toasts s
  /\ fetches s' = (fetches s + if cancelledRef s then 0 else 1)%nat.
Proof.
  unfold load_iterate, load_finally. destruct s; cbn.
  repeat case_match; cbn; repeat split; count_log.
Qed.

Lemma load_finally_Indexed s : Indexed s -> Indexed (load_finally s).
Proof. intros Hs. unfold load_finally. case_match; by apply (Indexed_fields s). Qed.

Lemma load_catch_Indexed s : Indexed s -> Indexed (load_catch s).
Proof.
  intros Hs. destruct (load_catch_fields s) as (?&?&?&?&?&?&_).
  by apply (Indexed_fields s).
Qed.

Lemma onClusterClick_Indexed c s : Indexed s -> Indexed (onClusterClick c s).2.
Proof.
  intros Hs. pose proof (onClusterClick_same c s) as [].
  destruct (onClusterClick_instance c s).
  by apply (Indexed_fields s).
Qed.

Lemma step_Indexed mapReady ss e :
  Indexed (state ss) -> Indexed (state (step mapReady ss e)).
Proof.
  intros Hs. destruct ss as [s p c]; cbn in Hs.
  destruct e as [[r|]| | | | | | view | | i].
  - destruct p; cbn; try done. destruct (negb (ok r)); cbn; [|done].
    by apply load_catch_Indexed.
  - destruct p; cbn; try done. by apply load_catch_Indexed.
  - destruct p; cbn -[addCollection]; try done.
    destruct (json response) as [payload|]; cbn -[addCollection];
      [|by apply load_catch_Indexed].
    pose proof (addCollection_Indexed mapReady (features payload) s Hs) as Ha.
    destruct (negb (is_truthy (nextCursor payload))); cbn -[addCollection].
    + apply load_finally_Indexed.
      by apply (Indexed_fields (addCollection mapReady (features payload) s)).
    + by apply (Indexed_fields (addCollection mapReady (features payload) s)).
  - destruct p; cbn; try done.
    destruct (load_iterate_fields c s) as (?&?&?&?&?&?&_).
    by apply (Indexed_fields s).
  - destruct p; by apply (Indexed_fields s).
  - destruct p; by apply (Indexed_fields s).
  - destruct p; by apply (Indexed_fields s).
  - assert (Indexed (set_mapRef ((fun _ => view) <$> mapRef s) s)) as Hv
      by (by apply (Indexed_fields s)).
    destruct p; cbn -[renderClusters]; destruct mapReady;
      done || by apply renderClusters_Indexed.
  - destruct p; cbn -[renderClusters]; by apply renderClusters_Indexed.
  - destruct p; cbn -[onClusterClick]; repeat case_match;
      done || by apply onClusterClick_Indexed.
Qed.

Lemma run_cons mapReady e events ss :
  run mapReady (e :: events) ss = run mapReady events (step mapReady ss e).
Proof. reflexivity. Qed.

Lemma run_app mapReady events more ss :
  run mapReady (events ++ more) ss = run mapReady more (run mapReady events ss).
Proof. unfold run. apply fold_left_app. Qed.

Lemma run_Indexed mapReady events ss :
  Indexed (state ss) -> Indexed (state (run mapReady events ss)).
Proof.
  revert ss. induction events as [|e events IH]; intros ss Hs; [done|].
  cbn. apply IH. by apply step_Indexed.
Qed.

(** Every state a session goes through satisfies the indexer's
    invariant. *)
Lemma session_Indexed mapReady events s0 :
  Indexed (state (run mapReady events (startSession s0))).
Proof. apply run_Indexed, startSession_Indexed. Qed.

End Steps.

(** ** Point ids *)

Section PointIds.
Context `{Engine}.

Lemma seqZ_increasing m n : StronglySorted Z.lt (seqZ m n).
Proof.
  destruct (decide (n <= 0)) as [Hn|Hn]; [rewrite seqZ_nil by done; constructor|].
  rewrite <- (Z2Nat.id n) by lia. generalize (Z.to_nat n) as k. clear n Hn.
  intros k. revert m. induction k as [|k IH]; intros m.
  - rewrite seqZ_nil by done. constructor.
  - rewrite seqZ_cons by lia. constructor.
    + replace (Z.pred (Z.of_nat (S k))) with (Z.of_nat k) by lia. apply IH.
    + apply Forall_seqZ. lia.
Qed.

Lemma Indexed_increasing s :
  Indexed s -> StronglySorted Z.lt (point_id <$> pointsRef s).
Proof. intros Hs. rewrite (ids_sequential s Hs). apply seqZ_increasing. Qed.

Lemma Indexed_NoDup s : Indexed s -> NoDup (point_id <$> pointsRef s).
Proof. intros Hs. rewrite (ids_sequential s Hs). apply NoDup_seqZ. Qed.

Lemma Indexed_id_range s p :
  Indexed s -> p ∈ pointsRef s -> 1 <= point_id p < nextFeatureIdRef s.
Proof.
  intros Hs Hp.
  assert (point_id p ∈ point_id <$> pointsRef s) as Hin by (by apply list_elem_of_fmap_2).
  rewrite (ids_sequential s Hs) in Hin. apply elem_of_seqZ in Hin. lia.
Qed.

(** What a batch adds: the buffer grows at its end, by points whose ids
    start at the next id to hand out; table entries below that id stay. *)
Lemma addCollection_grows mapReady fs s :
  let s' := addCollection mapReady fs s in
  exists new,
    pointsRef s' = pointsRef s ++ new
    /\ (forall q, q ∈ new -> nextFeatureIdRef s <= point_id q)
    /\ (forall k, k < nextFeatureIdRef s ->
          featureMapRef s' !! k = featureMapRef s !! k).
Proof.
  pose proof (getSupercluster_same s) as Hg.
  destruct (addCollection_cases mapReady fs s)
    as [[_ [[_ E] | [_ E]]] | (_ & table & new & sw & ne & Hlen & Hkept & Hother & E)];
    cbn zeta; rewrite E.
  - exists []. rewrite app_nil_r. split; [done|]. split; [|done].
    intros q Hq. by apply elem_of_nil in Hq.
  - exists []. rewrite app_nil_r, (same_pointsRef _ _ Hg), (same_featureMapRef _ _ Hg).
    split; [done|]. split; [|done]. intros q Hq. by apply elem_of_nil in Hq.
  - exists new.
    match goal with
    | |- context [(if mapReady then renderClusters else id) ?t] =>
        assert (same_data t ((if mapReady then renderClusters else id) t)) as Hr
          by (destruct mapReady; [apply renderClusters_same | apply same_data_refl])
    end.
    rewrite (same_pointsRef _ _ Hr), (same_featureMapRef _ _ Hr). cbn.
    split; [done|]. split.
    + intros q [i Hi]%list_elem_of_lookup.
      assert (i < length (List.filter indexable fs))%nat as Hlt
        by (rewrite <- Hlen; by apply lookup_lt_Some in Hi).
      destruct (lookup_lt_is_Some_2 _ i Hlt) as [f Hf].
      destruct (Hkept i f Hf) as (_ & q' & Hq' & Hid & _).
      assert (q' = q) as -> by congruence. lia.
    + intros k Hk. apply Hother. lia.
Qed.

(** C8: a batch keeps the point ids unique and increasing, gives every
    new point an id above all earlier ones, and every point id of the
    buffer is the key of exactly one feature of the table; features
    stored earlier stay. *)
Theorem addCollection_point_ids mapReady fs s :
  Indexed s ->
  let s' := addCollection mapReady fs s in
  Indexed s'
  /\ StronglySorted Z.lt (point_id <$> pointsRef s')
  /\ NoDup (point_id <$> pointsRef s')
  /\ (exists new,
        pointsRef s' = pointsRef s ++ new
        /\ forall p q, p ∈ pointsRef s -> q ∈ new -> point_id p < point_id q)
  /\ (forall p, p ∈ pointsRef s' ->
        exists f, featureMapRef s' !! point_id p = Some f
                  /\ forall f', featureMapRef s' !! point_id p = Some f' -> f' = f)
  /\ (forall p f, p ∈ pointsRef s ->
        featureMapRef s !! point_id p = Some f ->
        featureMapRef s' !! point_id p = Some f).
Proof.
  intros Hs s'.
  pose proof (addCollection_Indexed mapReady fs s Hs) as Hs'. fold s' in Hs'.
  destruct (addCollection_grows mapReady fs s) as (new & Hnew & Hids & Hold).
  fold s' in Hnew, Hold.
  split; [done|]. split; [by apply Indexed_increasing|].
  split; [by apply Indexed_NoDup|]. split; [|split].
  - exists new. split; [done|]. intros p q Hp Hq.
    pose proof (Indexed_id_range s p Hs Hp). specialize (Hids q Hq). lia.
  - intros p Hp. destruct (ids_resolve s' Hs' p Hp) as (f & Hf & _).
    exists f. split; [done|]. congruence.
  - intros p f Hp Hf. rewrite Hold; [done|].
    pose proof (Indexed_id_range s p Hs Hp). lia.
Qed.

End PointIds.

(** ** The cluster index *)

Section ClusterIndex.
Context `{Engine}.

Lemma cluster_pass_cons r z n p rest :
  cluster_pass r z n (p :: rest)
  = (match filter (fun q => within_radius r z p q = true) rest with
     | [] => Leaf p
     | near =>
         Cluster (centroid (p :: near)) (synthetic_id n z p)
           (Z.of_nat (length (p :: near)))
     end)
    :: cluster_pass r z n (filter (fun q => within_radius r z p q <> true) rest).
Proof. simp cluster_pass. cbn zeta. by destruct (filter _ rest). Qed.

(** Induction that follows the pass: the seed, its neighbours, and the
    points left for the next rounds. *)
Lemma cluster_pass_ind r z (P : list PointFeature -> Prop) :
  P [] ->
  (forall p rest,
     P (filter (fun q => within_radius r z p q <> true) rest) -> P (p :: rest)) ->
  forall points, P points.
Proof.
  intros Hnil Hcons.
  assert (Hn : forall n points, (length points < n)%nat -> P points).
  { induction n as [|n IH]; intros points Hlen; [lia|].
    destruct points as [|p rest]; [done|].
    apply Hcons, IH.
    pose proof (length_filter (fun q => within_radius r z p q <> true) rest).
    cbn in Hlen. lia. }
  intros points. apply (Hn (S (length points))). lia.
Qed.

Lemma cluster_pass_leaf r z n points p :
  Leaf p ∈ cluster_pass r z n points -> p ∈ points.
Proof.
  induction points as [|q rest IH] using (cluster_pass_ind r z).
  - simp cluster_pass. intros Hp. by apply elem_of_nil in Hp.
  - rewrite cluster_pass_cons. intros [Hp|Hp]%elem_of_cons.
    + destruct (filter (fun q0 => within_radius r z q q0 = true) rest);
        [|discriminate Hp]. injection Hp as ->. by left.
    + right. apply IH in Hp. by apply list_elem_of_filter in Hp as [_ Hp].
Qed.

Lemma getClusters_leaf index bbox zoom p :
  Leaf p ∈ getClusters index bbox zoom -> p ∈ loaded index.
Proof.
  unfold getClusters, clusters_at.
  intros [_ Hp]%list_elem_of_filter.
  destruct (maxZoom index <? zoom).
  - apply list_elem_of_In, List.in_map_iff in Hp as (q & [= ->] & Hq).
    by apply list_elem_of_In.
  - by apply cluster_pass_leaf in Hp.
Qed.

Lemma cluster_pass_represented r z n points :
  represented (cluster_pass r z n points) = Z.of_nat (length points).
Proof.
  induction points as [|q rest IH] using (cluster_pass_ind r z).
  - by simp cluster_pass.
  - rewrite cluster_pass_cons. unfold represented in *. cbn [fold_right].
    rewrite IH.
    pose proof (filter_app_complement (fun q0 => within_radius r z q q0 = true) rest) as Hpart.
    apply Permutation_length in Hpart. rewrite length_app in Hpart.
    destruct (filter (fun q0 => within_radius r z q q0 = true) rest) eqn:Enear;
      cbn [represented_by length] in *; lia.
Qed.

Lemma Qsum_bounds (lo hi : Q) (xs : list Q) :
  Forall (fun x => (lo <= x)%Q /\ (x <= hi)%Q) xs ->
  (lo * inject_Z (Z.of_nat (length xs)) <= Qsum xs)%Q
  /\ (Qsum xs <= hi * inject_Z (Z.of_nat (length xs)))%Q.
Proof.
  induction 1 as [|x xs [Hlo Hhi] _ [IHlo IHhi]]; cbn [Qsum fold_right length].
  - change (inject_Z (Z.of_nat 0)) with 0%Q. split; lra.
  - rewrite Nat2Z.inj_succ. unfold Z.succ. rewrite inject_Z_plus.
    fold (Qsum xs). change (inject_Z 1) with 1%Q.
    set (n := inject_Z _) in *.
    split.
    + assert (E : (lo * (n + 1) == lo * n + lo)%Q) by ring. rewrite E. lra.
    + assert (E : (hi * (n + 1) == hi * n + hi)%Q) by ring. rewrite E. lra.
Qed.

Lemma mean_bounds (lo hi : Q) (xs : list Q) :
  xs <> [] ->
  Forall (fun x => (lo <= x)%Q /\ (x <= hi)%Q) xs ->
  (lo <= Qsum xs / inject_Z (Z.of_nat (length xs)))%Q
  /\ (Qsum xs / inject_Z (Z.of_nat (length xs)) <= hi)%Q.
Proof.
  intros Hne Hall. destruct (Qsum_bounds lo hi xs Hall) as [Hlo Hhi].
  assert (0 < inject_Z (Z.of_nat (length xs)))%Q as Hpos.
  { replace 0%Q with (inject_Z 0) by done. rewrite <- Zlt_Qlt.
    destruct xs; [done|]. cbn [length]. lia. }
  split.
  - by apply Qle_shift_div_l.
  - by apply Qle_shift_div_r.
Qed.

Lemma centroid_on_earth (group : list PointFeature) :
  group <> [] ->
  (forall p, p ∈ group -> on_earth (coordinates p)) ->
  on_earth (centroid group).
Proof.
  intros Hne Hall. unfold centroid, on_earth. cbn [fst snd].
  rewrite <- (length_map (fun p => fst (coordinates p)) group) at 1 2.
  rewrite <- (length_map (fun p => snd (coordinates p)) group).
  destruct (mean_bounds (-180) 180 (map (fun p => fst (coordinates p)) group))
    as [? ?].
  { by destruct group. }
  { apply List.Forall_forall. intros x (p & <- & Hp)%List.in_map_iff.
    apply list_elem_of_In, Hall in Hp. unfold on_earth in Hp. tauto. }
  destruct (mean_bounds (-90) 90 (map (fun p => snd (coordinates p)) group))
    as [? ?].
  { by destruct group. }
  { apply List.Forall_forall. intros x (p & <- & Hp)%List.in_map_iff.
    apply list_elem_of_In, Hall in Hp. unfold on_earth in Hp. tauto. }
  tauto.
Qed.

Lemma in_world (c : Q * Q) : on_earth c -> in_bbox world c = true.
Proof.
  unfold on_earth, in_bbox, world. cbn. intros (?&?&?&?).
  rewrite !andb_true_iff, !Qle_bool_iff. tauto.
Qed.

Lemma cluster_pass_on_earth r z n points c :
  (forall p, p ∈ points -> on_earth (coordinates p)) ->
  c ∈ cluster_pass r z n points -> on_earth (where_is c).
Proof.
  induction points as [|q rest IH] using (cluster_pass_ind r z); intros Hall.
  - simp cluster_pass. intros Hc. by apply elem_of_nil in Hc.
  - rewrite cluster_pass_cons. intros [->|Hc]%elem_of_cons.
    + destruct (filter (fun q0 => within_radius r z q q0 = true) rest)
        as [|n0 near] eqn:Enear; cbn [where_is].
      * apply Hall. by left.
      * apply centroid_on_earth; [done|].
        intros p [->|Hp]%elem_of_cons; [apply Hall; by left|].
        rewrite <- Enear in Hp. apply list_elem_of_filter in Hp as [_ Hp].
        apply Hall. by right.
    + apply IH; [|done]. intros p [_ Hp]%list_elem_of_filter. apply Hall. by right.
Qed.

Lemma filter_all {A} (P : A -> Prop) `{!forall x, Decision (P x)} (l : list A) :
  (forall x, x ∈ l -> P x) -> filter P l = l.
Proof.
  induction l as [|x l IH]; intros Hall; [done|].
  rewrite filter_cons_True by (apply Hall; by left).
  f_equal. apply IH. intros y Hy. apply Hall. by right.
Qed.

Lemma represented_leaves (points : list PointFeature) :
  represented (map Leaf points) = Z.of_nat (length points).
Proof.
  induction points as [|p points IH]; [done|].
  unfold represented in *. cbn [map fold_right represented_by length]. lia.
Qed.

(** On points with a longitude and a latitude in range, a query over
    the whole world stands for every loaded point once. *)
Lemma getClusters_world_represented index zoom :
  (forall p, p ∈ loaded index -> on_earth (coordinates p)) ->
  represented (getClusters index world zoom) = Z.of_nat (length (loaded index)).
Proof.
  intros Hall. unfold getClusters.
  rewrite filter_all.
  - unfold clusters_at. destruct (maxZoom index <? zoom).
    + apply represented_leaves.
    + apply cluster_pass_represented.
  - intros c Hc. apply in_world. unfold clusters_at in Hc.
    destruct (maxZoom index <? zoom).
    + apply list_elem_of_In, List.in_map_iff in Hc as (p & <- & Hp).
      cbn. apply Hall. by apply list_elem_of_In.
    + by apply (cluster_pass_on_earth (radius index) zoom (length (loaded index)) (loaded index)).
Qed.

End ClusterIndex.

(** ** Rebuild and query; skipped features *)

Section RebuildQuery.
Context `{Engine}.

Lemma Indexed_current s a :
  Indexed s -> superclusterRef s = Some a ->
  exists index, current_index s = Some index /\ loaded index = pointsRef s.
Proof.
  intros Hs Ha. destruct (index_current s Hs a Ha) as (index & Hi & Hl).
  exists index. unfold current_index. by rewrite Ha.
Qed.

Lemma getSupercluster_ref s : is_Some (superclusterRef (getSupercluster s).2).
Proof.
  unfold getSupercluster. destruct (superclusterRef s) eqn:E; cbn; by rewrite ?E.
Qed.

Lemma addCollection_has_index mapReady fs s :
  fs <> [] -> is_Some (superclusterRef (addCollection mapReady fs s)).
Proof.
  intros Hfs. pose proof (getSupercluster_ref s) as Hg.
  destruct (addCollection_cases mapReady fs s)
    as [[_ [[? _] | [_ ->]]] | (_ & table & new & sw & ne & _ & _ & _ & ->)];
    [done | done |].
  destruct mapReady; [|done].
  match goal with |- context [renderClusters ?t] =>
    destruct (renderClusters_instance t) as [-> _] end.
  apply getSupercluster_ref.
Qed.

Lemma addCollection_length mapReady fs s :
  length (pointsRef (addCollection mapReady fs s))
  = (length (pointsRef s) + length (List.filter indexable fs))%nat.
Proof.
  pose proof (getSupercluster_same s) as Hg.
  destruct (addCollection_cases mapReady fs s)
    as [[-> [[_ ->] | [_ ->]]] | (_ & table & new & sw & ne & Hlen & _ & _ & ->)].
  - cbn. lia.
  - rewrite (same_pointsRef _ _ Hg). cbn. lia.
  - match goal with
    | |- context [(if mapReady then renderClusters else id) ?t] =>
        assert (same_data t ((if mapReady then renderClusters else id) t)) as Hr
          by (destruct mapReady; [apply renderClusters_same | apply same_data_refl])
    end.
    rewrite (same_pointsRef _ _ Hr). cbn. rewrite length_app. lia.
Qed.

(** C2 (amended): in a session, after a batch has gone through
    [addCollection] (which loads the whole buffer into the index), and
    provided every indexed point lies within the full-world bounds
    (longitude from -180 to 180, latitude from -90 to 90), a query over
    those bounds at zoom 0 stands for exactly as many points as have been
    indexed so far: the index holds the buffer, no id twice.  (A point
    outside the bounds is indexed and not returned.) *)
Theorem rebuild_then_world_query_counts mapReady events s0 fs :
  let s := state (run mapReady events (startSession s0)) in
  let s' := addCollection mapReady fs s in
  fs <> [] ->
  (forall p, p ∈ pointsRef s' -> on_earth (coordinates p)) ->
  exists index,
    current_index s' = Some index
    /\ loaded index = pointsRef s'
    /\ NoDup (point_id <$> loaded index)
    /\ represented (getClusters index world 0) = Z.of_nat (length (pointsRef s'))
    /\ length (pointsRef s')
       = (length (pointsRef s) + length (List.filter indexable fs))%nat
    /\ Z.of_nat (length (pointsRef s')) = nextFeatureIdRef s' - 1.
Proof.
  intros s s' Hfs Hearth.
  assert (Indexed s') as Hs' by apply addCollection_Indexed, session_Indexed.
  destruct (addCollection_has_index mapReady fs s Hfs) as [a Ha].
  destruct (Indexed_current s' a Hs' Ha) as (index & Hcur & Hloaded).
  exists index. split; [done|]. split; [done|].
  split; [rewrite Hloaded; by apply Indexed_NoDup|].
  split; [|split].
  - rewrite <- Hloaded. apply getClusters_world_represented. by rewrite Hloaded.
  - apply addCollection_length.
  - pose proof (f_equal length (ids_sequential s' Hs')) as Hlen.
    rewrite length_fmap, length_seqZ in Hlen.
    pose proof (next_positive s' Hs'). lia.
Qed.

(** C6: a feature of the batch whose envelope centre cannot be computed
    is skipped without a notification: it gets no id, no entry in the
    table and no point in the buffer, while the others are numbered in
    order from the next id, stored in the table and appended to the
    buffer; and the id of every leaf a query returns is the key of a
    feature with a non-empty geometry. *)
Theorem degenerate_features_skipped mapReady events s0 fs :
  let s := state (run mapReady events (startSession s0)) in
  let s' := addCollection mapReady fs s in
  let kept := List.filter indexable fs in
  let next := nextFeatureIdRef s in
  nextFeatureIdRef s' = next + Z.of_nat (length kept)
  /\ (exists new,
        pointsRef s' = pointsRef s ++ new
        /\ length new = length kept
        /\ forall i f, kept !! i = Some f ->
             featureMapRef s' !! (next + Z.of_nat i) = Some f
             /\ exists p, new !! i = Some p /\ point_id p = next + Z.of_nat i
                          /\ geometryToLatLng (geometry f) = Some (center_of p))
  /\ (forall k, ~ (next <= k < next + Z.of_nat (length kept)) ->
        featureMapRef s' !! k = featureMapRef s !! k)
  /\ toasts s' = toasts s
  /\ (forall index bbox zoom p,
        current_index s' = Some index ->
        Leaf p ∈ getClusters index bbox zoom ->
        exists f, featureMapRef s' !! point_id p = Some f
                  /\ nonempty_geometry (geometry f)).
Proof.
  intros s s' kept next.
  assert (Indexed s') as Hs' by apply addCollection_Indexed, session_Indexed.
  split; [|split; [|split; [|split]]].
  - pose proof (getSupercluster_same s) as Hg. subst s'.
    destruct (addCollection_cases mapReady fs s)
      as [[E [[_ ->] | [_ ->]]] | (_ & table & new & sw & ne & Hlen & _ & _ & ->)].
    + subst kept. rewrite E. cbn. lia.
    + subst kept. rewrite E, (same_nextFeatureIdRef _ _ Hg). cbn. lia.
    + match goal with
      | |- context [(if mapReady then renderClusters else id) ?t] =>
          assert (same_data t ((if mapReady then renderClusters else id) t)) as Hr
            by (destruct mapReady; [apply renderClusters_same | apply same_data_refl])
      end.
      by rewrite (same_nextFeatureIdRef _ _ Hr).
  - pose proof (getSupercluster_same s) as Hg. subst s'.
    destruct (addCollection_cases mapReady fs s)
      as [[E [[_ ->] | [_ ->]]] | (_ & table & new & sw & ne & Hlen & Hkept & _ & ->)].
    + exists []. subst kept. rewrite E, app_nil_r. split; [done|]. split; [done|].
      intros i f [=].
    + exists []. subst kept. rewrite E, app_nil_r, (same_pointsRef _ _ Hg).
      split; [done|]. split; [done|]. intros i f [=].
    + match goal with
      | |- context [(if mapReady then renderClusters else id) ?t] =>
          assert (same_data t ((if mapReady then renderClusters else id) t)) as Hr
            by (destruct mapReady; [apply renderClusters_same | apply same_data_refl])
      end.
      exists new. rewrite (same_pointsRef _ _ Hr), (same_featureMapRef _ _ Hr). cbn.
      split; [done|]. split; [done|]. exact Hkept.
  - pose proof (getSupercluster_same s) as Hg. subst s'.
    destruct (addCollection_cases mapReady fs s)
      as [[E [[_ ->] | [_ ->]]] | (_ & table & new & sw & ne & _ & _ & Hother & ->)].
    + done.
    + by rewrite (same_featureMapRef _ _ Hg).
    + match goal with
      | |- context [(if mapReady then renderClusters else id) ?t] =>
          assert (same_data t ((if mapReady then renderClusters else id) t)) as Hr
            by (destruct mapReady; [apply renderClusters_same | apply same_data_refl])
      end.
      rewrite (same_featureMapRef _ _ Hr). cbn. exact Hother.
  - apply (control_toasts _ _ (addCollection_control mapReady fs s)).
  - intros index bbox zoom p Hcur Hleaf.
    apply getClusters_leaf in Hleaf.
    unfold current_index in Hcur.
    destruct (superclusterRef s') as [a|] eqn:Ea; [|done].
    destruct (index_current s' Hs' a Ea) as (index' & Hi & Hl).
    assert (index' = index) as -> by congruence.
    rewrite Hl in Hleaf.
    destruct (ids_resolve s' Hs' p Hleaf) as (f & Hf & Hc).
    exists f. split; [done|]. by apply geometryToLatLng_nonempty in Hc.
Qed.

End RebuildQuery.

(** ** The one-time auto-fit *)

Section AutoFit.
Context `{Engine}.

Lemma fit_step_then_same s s1 s2 :
  fit_step s s1 ->
  fits s2 = fits s1 -> shouldFitBoundsRef s2 = shouldFitBoundsRef s1 ->
  fit_step s s2.
Proof. unfold fit_step. intros [[? ?]|(?&?&?)] -> ->; auto. Qed.

Lemma fit_step_refl s : fit_step s s.
Proof. by left. Qed.

Lemma step_fit_step mapReady ss e :
  fit_step (state ss) (state (step mapReady ss e)).
Proof.
  destruct ss as [s p c].
  destruct e as [[r|]| | | | | | view | | i]; cbn [state].
  - destruct p; cbn; try apply fit_step_refl.
    destruct (negb (ok r)); cbn; [|apply fit_step_refl].
    destruct (load_catch_fields s) as (_&_&_&_&_&_&?&_&?&_). by left.
  - destruct p; cbn; try apply fit_step_refl.
    destruct (load_catch_fields s) as (_&_&_&_&_&_&?&_&?&_). by left.
  - destruct p; cbn -[addCollection]; try apply fit_step_refl.
    destruct (json response) as [payload|]; cbn -[addCollection].
    + pose proof (addCollection_fit_step mapReady (features payload) s) as Ha.
      destruct (negb (is_truthy (nextCursor payload))); cbn -[addCollection].
      * eapply fit_step_then_same; [exact Ha| |];
          unfold load_finally; by case_match.
      * by eapply fit_step_then_same.
    + destruct (load_catch_fields s) as (_&_&_&_&_&_&?&_&?&_). by left.
  - destruct p; cbn; try apply fit_step_refl.
    destruct (load_iterate_fields c s) as (_&_&_&_&_&_&?&_&?&_). by left.
  - destruct p; by left.
  - destruct p; by left.
  - destruct p; by left.
  - assert (fit_step s (if mapReady
                        then renderClusters (set_mapRef ((fun _ => view) <$> mapRef s) s)
                        else set_mapRef ((fun _ => view) <$> mapRef s) s)) as Hv.
    { destruct mapReady; [|by left].
      pose proof (renderClusters_fit_step
                    (set_mapRef ((fun _ => view) <$> mapRef s) s)) as Hr.
      exact Hr. }
    destruct p; exact Hv.
  - destruct p; cbn -[renderClusters]; apply renderClusters_fit_step.
  - destruct p; cbn -[onClusterClick]; repeat case_match;
      try apply fit_step_refl;
      match goal with
      | |- context [onClusterClick ?c ?s] =>
          destruct (onClusterClick_fit c s); by left
      end.
Qed.

Lemma run_fit_balance mapReady events ss :
  fit_balance (state (run mapReady events ss)) = fit_balance (state ss).
Proof.
  revert ss. induction events as [|e events IH]; intros ss; [done|].
  rewrite run_cons, IH. unfold fit_balance.
  destruct (step_fit_step mapReady ss e) as [[-> ->]|(-> & -> & ->)]; lia.
Qed.

Lemma run_fit_spent mapReady events ss :
  shouldFitBoundsRef (state ss) = false ->
  shouldFitBoundsRef (state (run mapReady events ss)) = false.
Proof.
  revert ss. induction events as [|e events IH]; intros ss Hflag; [done|].
  rewrite run_cons. apply IH.
  destruct (step_fit_step mapReady ss e) as [[_ ->]|(? & _)]; congruence.
Qed.

Lemma renderClusters_fits_now s m sw ne :
  Indexed s ->
  shouldFitBoundsRef s = true ->
  mapRef s = Some m ->
  boundsRef s = Some (Some (sw, ne)) ->
  shouldFitBoundsRef (renderClusters s) = false
  /\ effects (renderClusters s) = effects s ++ [FitBounds sw ne].
Proof.
  intros Hs Hflag Hmap Hbounds.
  assert (pointsRef s <> []) as Hpts.
  { destruct (bounds_after_points s Hs) as [E|[_ ?]]; [congruence|done]. }
  destruct s. cbn in *. subst.
  destruct pointsRef0 as [|p0 pts]; [done|].
  open_render; done.
Qed.

(** When no listener runs inside [fitBounds] (the passes are
    [renderClusters]): counted from the start of a run of the load
    effect, the view has been fitted once when the fit flag is down and
    not at all while it is up; once the flag is down no later event of
    the run raises it or fits again; and a render pass that finds the flag
    up, the map attached and valid bounds fits the view to those bounds
    and lowers the flag. *)
Lemma auto_fit_once_when_quiet mapReady events s0 :
  let ss := run mapReady events (startSession s0) in
  fits (state ss)
  = (fits s0 + if shouldFitBoundsRef (state ss) then 0 else 1)%nat
  /\ (forall more,
        shouldFitBoundsRef (state ss) = false ->
        shouldFitBoundsRef (state (run mapReady more ss)) = false
        /\ fits (state (run mapReady more ss)) = fits (state ss))
  /\ (forall m sw ne,
        shouldFitBoundsRef (state ss) = true ->
        mapRef (state ss) = Some m ->
        boundsRef (state ss) = Some (Some (sw, ne)) ->
        shouldFitBoundsRef (renderClusters (state ss)) = false
        /\ effects (renderClusters (state ss))
           = effects (state ss) ++ [FitBounds sw ne]
        /\ fits (renderClusters (state ss)) = (fits s0 + 1)%nat).
Proof.
  intros ss.
  assert (fit_balance (state ss) = S (fits s0)) as Hbal.
  { subst ss. rewrite run_fit_balance. unfold fit_balance, startSession.
    destruct (load_iterate_fields None
                (set_isLoading true (set_hasMore true (set_totalFetched 0
                  (set_nextFeatureIdRef 1 (set_superclusterRef None
                    (set_pointsRef [] (set_featureMapRef ∅ (set_boundsRef None
                      (set_shouldFitBoundsRef true
                        (set_cancelledRef false s0))))))))))) as (_&_&_&_&_&_&Hf&_&Hn&_).
    rewrite Hf, Hn. cbn. unfold fits, count_effects. cbn. lia. }
  assert (fits (state ss)
          = (fits s0 + if shouldFitBoundsRef (state ss) then 0 else 1)%nat) as Hfits.
  { unfold fit_balance in Hbal. destruct (shouldFitBoundsRef (state ss)); lia. }
  split; [exact Hfits|]. split.
  - intros more Hflag.
    pose proof (run_fit_spent mapReady more ss Hflag) as Hmore.
    split; [done|].
    pose proof (run_fit_balance mapReady more ss) as Hb.
    unfold fit_balance in Hb. rewrite Hmore, Hflag in Hb. lia.
  - intros m sw ne Hflag Hmap Hbounds.
    assert (Indexed (state ss)) as Hs by apply session_Indexed.
    destruct (renderClusters_fits_now (state ss) m sw ne Hs Hflag Hmap Hbounds)
      as [Hdown Heff].
    split; [done|]. split; [done|].
    rewrite Hflag in Hfits.
    unfold fits, count_effects in *. rewrite Heff, List.filter_app, length_app.
    cbn. lia.
Qed.

End AutoFit.

(** ** The load loop *)

Section LoadLoop.
Context `{Engine}.

(** A response that is [ok] and whose body parses: the page is indexed
    and counted, and the loop either waits before the next page or
    ends. *)
Lemma page_received mapReady ss limit c r payload :
  pc ss = AwaitFetch limit c ->
  ok r = true ->
  json r = Some payload ->
  let ss' := step mapReady (step mapReady ss (FetchSettled (Some r))) JsonSettled in
  state ss'
  = (if is_truthy (nextCursor payload) then id
     else fun s => load_finally (set_hasMore false s))
      (set_totalFetched
         (totalFetched (addCollection mapReady (features payload) (state ss))
          + Z.of_nat (length (features payload)))
         (addCollection mapReady (features payload) (state ss)))
  /\ pc ss' = (if is_truthy (nextCursor payload) then AwaitDelay else Finished)
  /\ cursor ss'
     = (if is_truthy (nextCursor payload) then nextCursor payload else cursor ss).
Proof.
  intros Hpc Hok Hjson. destruct ss as [s p c0]. cbn in Hpc. subst p.
  cbn -[addCollection]. rewrite Hok. cbn -[addCollection]. rewrite Hjson.
  destruct (is_truthy (nextCursor payload)); cbn -[addCollection]; done.
Qed.

Lemma page_received_control mapReady ss limit c r payload :
  pc ss = AwaitFetch limit c ->
  ok r = true ->
  json r = Some payload ->
  let s := state ss in
  let s' := state (step mapReady (step mapReady ss (FetchSettled (Some r))) JsonSettled) in
  totalFetched s' = totalFetched s + Z.of_nat (length (features payload))
  /\ cancelledRef s' = cancelledRef s
  /\ toastRef s' = toastRef s
  /\ fetches s' = fetches s
  /\ toasts s' = toasts s
  /\ hasMore s' = (if is_truthy (nextCursor payload) then hasMore s else false)
  /\ isLoading s'
     = (if is_truthy (nextCursor payload) then isLoading s
        else if cancelledRef s then isLoading s else false).
Proof.
  intros Hpc Hok Hjson s s'.
  destruct (page_received mapReady ss limit c r payload Hpc Hok Hjson) as (Hs & _ & _).
  fold s' in Hs. rewrite Hs. fold s.
  destruct (addCollection_control mapReady (features payload) s) as [Ht Hc Hn Hm Hl Hf Hto].
  destruct (is_truthy (nextCursor payload)); cbn -[addCollection].
  - rewrite Hn, Hc, Ht, Hm, Hl. repeat split; done.
  - unfold load_finally. cbn -[addCollection]. rewrite Hc.
    destruct (cancelledRef s); cbn -[addCollection];
      rewrite ?Hn, ?Hc, ?Ht, ?Hl; repeat split; done.
Qed.

Lemma delay_elapsed mapReady ss :
  pc ss = AwaitDelay ->
  cancelledRef (state ss) = false ->
  let ss' := step mapReady ss DelayElapsed in
  let request := if is_truthy (cursor ss) then cursor ss else None in
  pc ss' = AwaitFetch (Route.String_of_number FETCH_LIMIT) request
  /\ cursor ss' = cursor ss
  /\ state ss' = log (Fetch (Route.String_of_number FETCH_LIMIT) request) (state ss).
Proof.
  intros Hpc Hc. destruct ss as [s p c]. cbn in *. subst p. cbn.
  unfold load_iterate. rewrite Hc. cbn. done.
Qed.

(** One run of the load effect by itself, fed two pages, the first with
    a cursor and three features, the second without a cursor and with two
    features: five features counted by that run, no more to come, two
    network calls. *)
Lemma one_run_two_pages mapReady s0 fs1 fs2 (c : string) st1 st2 :
  length fs1 = 3%nat ->
  length fs2 = 2%nat ->
  c <> EmptyString ->
  let page1 :=
    {| ok := true; status := st1;
       json := Some {| features := fs1; nextCursor := Some c |} |} in
  let page2 :=
    {| ok := true; status := st2;
       json := Some {| features := fs2; nextCursor := None |} |} in
  let ss :=
    run mapReady
      [FetchSettled (Some page1); JsonSettled; DelayElapsed;
       FetchSettled (Some page2); JsonSettled]
      (startSession s0) in
  totalFetched (state ss) = 5
  /\ hasMore (state ss) = false
  /\ fetches (state ss) = (fetches s0 + 2)%nat
  /\ pc ss = Finished
  /\ isLoading (state ss) = false.
Proof.
  intros Hfs1 Hfs2 Hc page1 page2 ss.
  set (ss0 := startSession s0).
  assert (pc ss0 = AwaitFetch (Route.String_of_number FETCH_LIMIT) None
          /\ cancelledRef (state ss0) = false /\ totalFetched (state ss0) = 0
          /\ fetches (state ss0) = S (fetches s0)) as (Hpc0 & Hcan0 & Htot0 & Hf0).
  { subst ss0. unfold startSession, load_iterate. cbn.
    repeat split. unfold fetches, count_effects. cbn.
    rewrite List.filter_app, length_app. cbn. lia. }
  assert (is_truthy (Some c) = true) as Hcursor by (by destruct c).
  set (ss2 := step mapReady (step mapReady ss0 (FetchSettled (Some page1))) JsonSettled).
  destruct (page_received mapReady ss0 _ _ page1 _ Hpc0 eq_refl eq_refl) as (_ & Hpc2 & Hcur2).
  destruct (page_received_control mapReady ss0 _ _ page1 _ Hpc0 eq_refl eq_refl)
    as (Htot2 & Hcan2 & _ & Hf2 & _ & _ & _).
  fold ss2 in Hpc2, Hcur2, Htot2, Hcan2, Hf2. cbn [json nextCursor features] in *.
  rewrite Hcursor in Hpc2, Hcur2.
  set (ss3 := step mapReady ss2 DelayElapsed).
  destruct (delay_elapsed mapReady ss2 Hpc2 ltac:(congruence)) as (Hpc3 & _ & Hs3).
  fold ss3 in Hpc3, Hs3.
  set (ss5 := step mapReady (step mapReady ss3 (FetchSettled (Some page2))) JsonSettled).
  destruct (page_received mapReady ss3 _ _ page2 _ Hpc3 eq_refl eq_refl) as (_ & Hpc5 & _).
  destruct (page_received_control mapReady ss3 _ _ page2 _ Hpc3 eq_refl eq_refl)
    as (Htot5 & Hcan5 & _ & Hf5 & _ & Hmore5 & Hload5).
  fold ss5 in Hpc5, Htot5, Hcan5, Hf5, Hmore5, Hload5.
  cbn [json nextCursor features is_truthy] in *.
  assert (ss = ss5) as -> by reflexivity.
  rewrite Hs3 in Htot5, Hf5, Hload5.
  unfold fetches in *. rewrite count_effects_log in Hf5. cbn [is_fetch] in Hf5.
  cbn [log set_effects totalFetched cancelledRef] in Htot5, Hload5.
  rewrite Hcan2, Hcan0 in Hload5.
  repeat split; try done; lia.
Qed.

End LoadLoop.

(** ** Failure, cancellation and clicks *)

Section Halting.
Context `{Engine}.

(** What every event leaves alone once the loop has finished. *)
Lemma step_finished mapReady ss e :
  pc ss = Finished ->
  let ss' := step mapReady ss e in
  pc ss' = Finished
  /\ fetches (state ss') = fetches (state ss)
  /\ toasts (state ss') = toasts (state ss)
  /\ featureMapRef (state ss') = featureMapRef (state ss)
  /\ pointsRef (state ss') = pointsRef (state ss).
Proof.
  intros Hpc. destruct ss as [s p c]. cbn in Hpc. subst p.
  destruct e as [[r|]| | | | | | view | | i];
    cbn -[renderClusters onClusterClick]; try done.
  - destruct mapReady; [|done].
    by destruct (renderClusters_same (set_mapRef ((fun _ => view) <$> mapRef s) s)).
  - by destruct (renderClusters_same s).
  - repeat case_match; try done.
    match goal with
    | |- context [onClusterClick ?c ?s] => by destruct (onClusterClick_same c s)
    end.
Qed.

Lemma run_finished mapReady events ss :
  pc ss = Finished ->
  let ss' := run mapReady events ss in
  pc ss' = Finished
  /\ fetches (state ss') = fetches (state ss)
  /\ toasts (state ss') = toasts (state ss)
  /\ featureMapRef (state ss') = featureMapRef (state ss)
  /\ pointsRef (state ss') = pointsRef (state ss).
Proof.
  revert ss. induction events as [|e events IH]; intros ss Hpc; [done|].
  rewrite run_cons.
  destruct (step_finished mapReady ss e Hpc) as (Hpc' & <- & <- & <- & <-).
  by apply IH.
Qed.

(** One run of the load effect by itself: a response that is not [ok]
    ends the run; the notification is shown once if the [Toast] is
    attached and not at all if it is not; the feature table, the points
    buffer and the index are left as they were, and no later event of
    that run fetches, notifies or changes the table or the buffer. *)
Lemma one_run_failed_fetch mapReady ss limit c r events :
  pc ss = AwaitFetch limit c ->
  ok r = false ->
  let ss1 := step mapReady ss (FetchSettled (Some r)) in
  let ss2 := run mapReady events ss1 in
  pc ss1 = Finished
  /\ toasts (state ss1)
     = (toasts (state ss) + if toastRef (state ss) then 1 else 0)%nat
  /\ featureMapRef (state ss1) = featureMapRef (state ss)
  /\ pointsRef (state ss1) = pointsRef (state ss)
  /\ superclusterRef (state ss1) = superclusterRef (state ss)
  /\ heap (state ss1) = heap (state ss)
  /\ pc ss2 = Finished
  /\ fetches (state ss2) = fetches (state ss)
  /\ toasts (state ss2) = toasts (state ss1)
  /\ featureMapRef (state ss2) = featureMapRef (state ss)
  /\ pointsRef (state ss2) = pointsRef (state ss).
Proof.
  intros Hpc Hok ss1 ss2.
  assert (ss1 = {| state := load_catch (state ss); pc := Finished; cursor := cursor ss |})
    as Hss1.
  { subst ss1. destruct ss as [s p c0]. cbn in Hpc. subst p. cbn. by rewrite Hok. }
  destruct (load_catch_fields (state ss)) as (Hp & _ & Hf & Hr & Hh & _ & _ & _ & _ & Hfe & Ht).
  assert (pc ss1 = Finished) as Hpc1 by (by rewrite Hss1).
  destruct (run_finished mapReady events ss1 Hpc1) as (Hpc2 & Hfe2 & Ht2 & Hf2 & Hp2).
  fold ss2 in Hpc2, Hfe2, Ht2, Hf2, Hp2.
  assert (state ss1 = load_catch (state ss)) as Hst by (by rewrite Hss1).
  rewrite Hfe2, Ht2, Hf2, Hp2, Hst.
  repeat split; done.
Qed.

(** Once the session is cancelled no event starts a fetch. *)
Lemma step_cancelled mapReady ss e :
  cancelledRef (state ss) = true ->
  cancelledRef (state (step mapReady ss e)) = true
  /\ fetches (state (step mapReady ss e)) = fetches (state ss).
Proof.
  intros Hc. destruct ss as [s p c]. cbn in Hc.
  destruct e as [[r|]| | | | | | view | | i].
  - destruct p; cbn; try done. destruct (negb (ok r)); cbn; [|done].
    destruct (load_catch_fields s) as (_&_&_&_&_&_&_&->&_&->&_). done.
  - destruct p; cbn; try done.
    destruct (load_catch_fields s) as (_&_&_&_&_&_&_&->&_&->&_). done.
  - destruct p; cbn -[addCollection]; try done.
    destruct (json response) as [payload|]; cbn -[addCollection].
    + destruct (addCollection_control mapReady (features payload) s) as [_ Hc' _ _ _ Hf _].
      unfold fetches, count_effects in *.
      destruct (negb (is_truthy (nextCursor payload))); cbn -[addCollection];
        unfold load_finally; cbn -[addCollection]; rewrite ?Hc', ?Hc;
        cbn -[addCollection]; rewrite ?Hc'; done.
    + destruct (load_catch_fields s) as (_&_&_&_&_&_&_&->&_&->&_). done.
  - destruct p; cbn; try done.
    destruct (load_iterate_fields c s) as (_&_&_&_&_&_&_&->&_&_&->).
    rewrite Hc. split; [done|lia].
  - destruct p; done.
  - destruct p; done.
  - destruct p; done.
  - assert (let s' := if mapReady
                      then renderClusters (set_mapRef ((fun _ => view) <$> mapRef s) s)
                      else set_mapRef ((fun _ => view) <$> mapRef s) s in
            cancelledRef s' = true /\ fetches s' = fetches s) as Hv.
    { destruct mapReady; [|done]. cbn zeta.
      destruct (renderClusters_same (set_mapRef ((fun _ => view) <$> mapRef s) s))
        as [_ _ _ _ _ Hc' _ _ _ Hf _].
      by rewrite Hc', Hf. }
    destruct p; exact Hv.
  - destruct (renderClusters_same s) as [_ _ _ _ _ Hc' _ _ _ Hf _].
    destruct p; cbn -[renderClusters]; by rewrite Hc', Hf.
  - destruct p; cbn -[onClusterClick]; repeat case_match; try done;
      match goal with
      | |- context [onClusterClick ?c ?s] =>
          destruct (onClusterClick_same c s) as [_ _ _ _ _ Hc' _ _ _ Hf _];
          by rewrite Hc', Hf
      end.
Qed.

Lemma run_cancelled mapReady events ss :
  cancelledRef (state ss) = true ->
  cancelledRef (state (run mapReady events ss)) = true
  /\ fetches (state (run mapReady events ss)) = fetches (state ss).
Proof.
  revert ss. induction events as [|e events IH]; intros ss Hc; [done|].
  rewrite run_cons. destruct (step_cancelled mapReady ss e Hc) as [Hc' <-].
  by apply IH.
Qed.

(** The points buffer never outgrows the feature table. *)
Lemma Indexed_buffer_le_table s :
  Indexed s -> (length (pointsRef s) <= size (featureMapRef s))%nat.
Proof.
  intros Hs.
  rewrite <- (length_fmap point_id).
  rewrite <- (size_list_to_set (C := gset Z)) by (by apply Indexed_NoDup).
  rewrite <- size_dom. apply subseteq_size.
  intros k [p [-> Hp]]%elem_of_list_to_set%list_elem_of_fmap.
  destruct (ids_resolve s Hs p Hp) as (f & Hf & _).
  apply elem_of_dom. by exists f.
Qed.

(** C1 (what the code does): the view is torn down while the first
    fetch is in flight; when the response arrives the page is indexed
    and counted all the same. *)
Theorem page_indexed_after_cancellation s0 :
  let f := {| feature_id := 7;
              properties := {| prop_id := 7; cod_imovel := "A" |};
              geometry := Some (Point (0, 0)%Q) |} in
  let page := {| ok := true; status := 200;
                 json := Some {| features := [f]; nextCursor := None |} |} in
  let cancelled := step false (startSession s0) Cleanup in
  let after := run false [FetchSettled (Some page); JsonSettled] cancelled in
  cancelledRef (state cancelled) = true
  /\ pointsRef (state cancelled) = []
  /\ featureMapRef (state cancelled) = ∅
  /\ totalFetched (state cancelled) = 0
  /\ hasMore (state cancelled) = true
  /\ cancelledRef (state after) = true
  /\ length (pointsRef (state after)) = 1%nat
  /\ featureMapRef (state after) = {[ 1 := f ]}
  /\ nextFeatureIdRef (state after) = 2
  /\ totalFetched (state after) = 1
  /\ hasMore (state after) = false
  /\ fetches (state after) = fetches (state cancelled).
Proof. cbn. repeat split. Qed.

(** C5: a click on a cluster marker whose id the instance no longer
    knows: the handler returns normally, and the session is as it was but
    for a warning on the console; the view of the map is unchanged. *)
Theorem stale_cluster_click_is_noop mapReady ss layers i lat lng count c :
  clusterLayerRef (state ss) = Some layers ->
  layers !! i = Some (Marker lat lng count (Some c)) ->
  expansion_lookup c (state ss) = None ->
  let ss' := step mapReady ss (MarkerClick i) in
  (onClusterClick c (state ss)).1 = Normal
  /\ state ss' = (onClusterClick c (state ss)).2
  /\ (state ss' = state ss \/ state ss' = log ConsoleWarn (state ss))
  /\ mapRef (state ss') = mapRef (state ss)
  /\ pc ss' = pc ss.
Proof.
  intros Hlayers Hi Hlookup ss'.
  assert (state ss' = (onClusterClick c (state ss)).2 /\ pc ss' = pc ss) as [Hs' Hpc].
  { subst ss'. destruct ss as [s p c0]. cbn in Hlayers, Hlookup |- *.
    destruct p; cbn -[onClusterClick]; by rewrite Hlayers, Hi. }
  rewrite Hs'. unfold onClusterClick. rewrite Hlookup.
  destruct (length (pointsRef (state ss)) =? 0)%nat; cbn; auto 10.
Qed.

End Halting.

(** ** Pages and the full load *)

Section Pages.
Context `{Engine}.

Lemma limit_of_view :
  Route.limit_number (Some (Route.String_of_number FETCH_LIMIT)) = Route.Num 5000.
Proof. reflexivity. Qed.

(** The page the handler builds from the rows it read. *)
Lemma GET_page db limitParam cursorParam page :
  Route.body (Route.GET db limitParam cursorParam) = Route.JsonPage page ->
  exists rows,
    Route.features page = map Route.buildFeature rows
    /\ Route.nextCursor page = (fun r => Route.encodeCursor (Route.id r)) <$> last rows.
Proof.
  unfold Route.GET.
  destruct (Route.runQuery _ _ _) as [rows|]; cbn; [|done].
  intros [= <-]. by exists rows.
Qed.

Lemma selected_after db c r :
  r ∈ selected db c ->
  (length (selected db (Some (Route.id r))) < length (selected db c))%nat.
Proof.
  intros Hr. unfold selected in *.
  destruct c as [c|].
  - apply list_elem_of_filter in Hr as [Hc Hr].
    replace (filter (fun r0 => Route.id r < Route.id r0) (Route.dm_sicar db))
      with (filter (fun r0 => Route.id r < Route.id r0)
              (filter (fun r0 => c < Route.id r0) (Route.dm_sicar db))).
    + apply (length_filter_lt _ _ r); [|lia]. by apply list_elem_of_filter.
    + rewrite list_filter_filter. apply list_filter_iff. intros x. lia.
  - apply (length_filter_lt _ _ r); [done|lia].
Qed.

Lemma page_rows_selected db c (n : nat) r :
  last (take n (Route.order_by_id (selected db c))) = Some r ->
  r ∈ selected db c.
Proof.
  intros Hr%last_Some_elem_of.
  apply elem_of_take in Hr as (i & Hr & _).
  apply list_elem_of_lookup_2 in Hr.
  unfold Route.order_by_id in Hr. by rewrite merge_sort_Permutation in Hr.
Qed.

Lemma page_empty_iff db c (n : nat) :
  (0 < n)%nat ->
  take n (Route.order_by_id (selected db c)) = [] <-> selected db c = [].
Proof.
  intros Hn. unfold Route.order_by_id.
  pose proof (merge_sort_Permutation Route.id_le (selected db c)) as Hperm.
  split.
  - intros Ht. destruct (merge_sort Route.id_le (selected db c)) as [|x l] eqn:E.
    + by apply Permutation_nil_l in Hperm.
    + destruct n; [lia|done].
  - intros E. rewrite E. cbn. apply take_nil.
Qed.

(** What the endpoint answers to the view's request for the page after
    the record [c]. *)
Lemma endpoint_answer db (c : option Z) :
  Route.online db = true ->
  let rows := take 5000 (Route.order_by_id (selected db c)) in
  endpoint db (Route.String_of_number FETCH_LIMIT) (Route.encodeCursor <$> c)
  = {| ok := true; status := 200;
       json := Some {| features := map Route.buildFeature rows;
                       nextCursor :=
                         (fun r => Route.encodeCursor (Route.id r)) <$> last rows |} |}.
Proof.
  intros Hon rows. unfold endpoint, Route.GET. rewrite limit_of_view.
  unfold Route.runQuery. rewrite Hon.
  destruct c as [c|]; cbn [fmap option_fmap option_map Route.cursorValue].
  - rewrite encodeCursor_truthy, cursor_token_decodes. reflexivity.
  - reflexivity.
Qed.

End Pages.

Section FullLoad.
Context `{Engine}.

Lemma drive_fetch mapReady server fuel ss served limit c :
  pc ss = AwaitFetch limit c ->
  drive mapReady server (S fuel) ss served
  = drive mapReady server fuel
      (step mapReady ss (FetchSettled (Some (server limit c))))
      (served ++ [server limit c]).
Proof. intros Hpc. cbn [drive]. by rewrite Hpc. Qed.

Lemma drive_json mapReady server fuel ss served r :
  pc ss = AwaitJson r ->
  drive mapReady server (S fuel) ss served
  = drive mapReady server fuel (step mapReady ss JsonSettled) served.
Proof. intros Hpc. cbn [drive]. by rewrite Hpc. Qed.

Lemma drive_delay mapReady server fuel ss served :
  pc ss = AwaitDelay ->
  drive mapReady server (S fuel) ss served
  = drive mapReady server fuel (step mapReady ss DelayElapsed) served.
Proof. intros Hpc. cbn [drive]. by rewrite Hpc. Qed.

Lemma drive_finished mapReady server fuel ss served :
  pc ss = Finished -> drive mapReady server fuel ss served = (ss, served).
Proof. intros Hpc. destruct fuel; cbn [drive]; [done|]. by rewrite Hpc. Qed.

Lemma fetch_ok_pc mapReady ss limit c r :
  pc ss = AwaitFetch limit c -> ok r = true ->
  pc (step mapReady ss (FetchSettled (Some r))) = AwaitJson r.
Proof.
  intros Hpc Hok. destruct ss as [s p c0]. cbn in Hpc. subst p. cbn. by rewrite Hok.
Qed.

(** From a pending request for the page after record [c], with enough
    fuel, the load runs to its end: every page but the last has features,
    the last has none, and each page with features costs one more
    fetch. *)
Lemma full_load_from mapReady db :
  Route.online db = true ->
  forall n ss served c fuel,
    (length (selected db c) <= n)%nat ->
    pc ss = AwaitFetch (Route.String_of_number FETCH_LIMIT) (Route.encodeCursor <$> c) ->
    cancelledRef (state ss) = false ->
    (3 * n + 2 <= fuel)%nat ->
    exists pages ss',
      drive mapReady (endpoint db) fuel ss served = (ss', served ++ pages)
      /\ pc ss' = Finished
      /\ hasMore (state ss') = false
      /\ fetches (state ss') = (fetches (state ss) + nonempty_pages pages)%nat
      /\ length pages = S (nonempty_pages pages)
      /\ has_features <$> last pages = Some false.
Proof.
  intros Hon. induction n as [|n IH]; intros ss served c fuel Hlen Hpc Hcan Hfuel.
  all: destruct fuel as [|[|fuel]]; try lia.
  all: pose proof (endpoint_answer db c Hon) as Hr; cbn zeta in Hr.
  all: set (rows := take 5000 (Route.order_by_id (selected db c))) in *.
  all: set (r := endpoint db (Route.String_of_number FETCH_LIMIT) (Route.encodeCursor <$> c)) in *.
  all: assert (ok r = true) as Hok by (by rewrite Hr).
  all: assert (json r = Some {| features := map Route.buildFeature rows;
                                nextCursor := (fun r => Route.encodeCursor (Route.id r))
                                              <$> last rows |}) as Hjson
         by (by rewrite Hr).
  all: rewrite (drive_fetch _ _ _ _ _ _ _ Hpc).
  all: rewrite (drive_json _ _ _ _ _ r) by (by apply (fetch_ok_pc _ _ _ _ _ Hpc)).
  all: destruct (page_received mapReady ss _ _ r _ Hpc Hok Hjson) as (_ & Hpc2 & Hcur2).
  all: destruct (page_received_control mapReady ss _ _ r _ Hpc Hok Hjson)
         as (_ & Hcan2 & _ & Hf2 & _ & Hmore2 & _).
  all: fold r in Hpc2, Hcur2, Hcan2, Hf2, Hmore2 |- *.
  all: set (ss2 := step mapReady (step mapReady ss (FetchSettled (Some r))) JsonSettled) in *.
  all: cbn [nextCursor features] in *.
  - (* nothing is selected: the page is empty *)
    assert (rows = []) as Hrows.
    { apply page_empty_iff; [lia|]. by apply length_zero_iff_nil, Nat.le_0_r. }
    rewrite Hrows in *.
    cbn [last fmap option_fmap option_map is_truthy] in Hpc2, Hmore2.
    exists [r], ss2. rewrite drive_finished by done.
    assert (has_features r = false) as Hnone by (unfold has_features; by rewrite Hjson).
    unfold nonempty_pages. cbn [List.filter length last fmap option_fmap option_map].
    rewrite Hnone. cbn [length].
    repeat split; try done. by rewrite Nat.add_0_r.
  - destruct (last rows) as [rl|] eqn:Hlast.
    + (* a page with rows: wait, then ask for the page after its last row *)
      assert (is_truthy (Some (Route.encodeCursor (Route.id rl))) = true) as Htruthy
        by apply encodeCursor_truthy.
      cbn [fmap option_fmap option_map] in Hpc2, Hcur2, Hmore2.
      rewrite Htruthy in Hpc2, Hcur2, Hmore2.
      pose proof (page_rows_selected db c 5000 rl Hlast) as Hsel.
      pose proof (selected_after db c rl Hsel) as Hless.
      destruct (delay_elapsed mapReady ss2 Hpc2 ltac:(congruence)) as (Hpc3 & _ & Hs3).
      rewrite Hcur2, Htruthy in Hpc3, Hs3.
      set (ss3 := step mapReady ss2 DelayElapsed) in *.
      destruct fuel as [|fuel]; [lia|].
      rewrite (drive_delay _ _ _ _ _ Hpc2). fold ss3.
      destruct (IH ss3 (served ++ [r]) (Some (Route.id rl)) fuel)
        as (pages & ss' & Hdrive & Hfin & Hmore & Hfetch & Hcount & Hlastp);
        [lia | done | | lia |].
      { rewrite Hs3. unfold log. cbn [cancelledRef set_effects]. congruence. }
      exists (r :: pages), ss'.
      assert (has_features r = true) as Hsome.
      { unfold has_features. rewrite Hjson. cbn.
        destruct rows; [done|reflexivity]. }
      split; [by rewrite Hdrive, <- app_assoc|].
      split; [done|]. split; [done|].
      unfold nonempty_pages in *. cbn [List.filter]. rewrite Hsome. cbn [length].
      split; [|split; [lia|]].
      * rewrite Hfetch, Hs3. unfold fetches. rewrite count_effects_log. cbn [is_fetch].
        fold fetches. rewrite Hf2. lia.
      * destruct pages; [done|]. by rewrite last_cons_cons.
    + (* an empty page *)
      cbn [fmap option_fmap option_map is_truthy] in Hpc2, Hmore2.
      apply last_None in Hlast.
      exists [r], ss2. rewrite drive_finished by done.
      assert (has_features r = false) as Hnone
        by (unfold has_features; by rewrite Hjson, Hlast).
      unfold nonempty_pages. cbn [List.filter length last fmap option_fmap option_map].
      rewrite Hnone. cbn [length].
      repeat split; try done. by rewrite Nat.add_0_r.
Qed.

(** C10: the handler sets [nextCursor] exactly when it returns at least
    one feature, however few, and the token is never the empty string; so
    a load from the endpoint ends on a page without features, and the
    fetches it makes are one more than the pages with features. *)
Theorem cursor_until_empty_page mapReady db s0 limitParam cursorParam page :
  Route.online db = true ->
  Route.body (Route.GET db limitParam cursorParam) = Route.JsonPage page ->
  (is_Some (Route.nextCursor page) <-> Route.features page <> [])
  /\ (forall c, Route.nextCursor page = Some c -> is_truthy (Some c) = true)
  /\ exists ss served,
       drive mapReady (endpoint db) (3 * length (Route.dm_sicar db) + 2)
         (startSession s0) []
       = (ss, served)
       /\ pc ss = Finished
       /\ hasMore (state ss) = false
       /\ fetches (state ss) = (fetches s0 + length served)%nat
       /\ length served = S (nonempty_pages served)
       /\ has_features <$> last served = Some false.
Proof.
  intros Hon Hpage.
  destruct (GET_page db limitParam cursorParam page Hpage) as (rows & Hfeat & Hcur).
  split; [|split].
  - rewrite Hcur, Hfeat. destruct rows as [|r0 rows] using rev_ind.
    + cbn. split; [by intros []|done].
    + rewrite last_snoc, map_app. cbn. split; [|by eauto].
      intros _ E. by apply app_eq_nil in E as [_ ?].
  - intros c Hc. rewrite Hcur in Hc.
    destruct (last rows) as [r|]; [|done]. injection Hc as <-.
    apply encodeCursor_truthy.
  - set (ss0 := startSession s0).
    assert (pc ss0 = AwaitFetch (Route.String_of_number FETCH_LIMIT)
                       (Route.encodeCursor <$> None)
            /\ cancelledRef (state ss0) = false
            /\ fetches (state ss0) = S (fetches s0)) as (Hpc0 & Hcan0 & Hf0).
    { subst ss0. unfold startSession, load_iterate. cbn.
      repeat split. unfold fetches, count_effects. cbn.
      rewrite List.filter_app, length_app. cbn. lia. }
    destruct (full_load_from mapReady db Hon (length (Route.dm_sicar db)) ss0 [] None
                (3 * length (Route.dm_sicar db) + 2) ltac:(done) Hpc0 Hcan0 ltac:(lia))
      as (pages & ss' & Hdrive & Hfin & Hmore & Hfetch & Hcount & Hlast).
    exists ss', pages. cbn [app] in Hdrive.
    repeat split; try done. lia.
Qed.

End FullLoad.

(* ===================================================================== *)
(** * The properties at concrete inputs                                     *)
(* ===================================================================== *)

Lemma one_run_two_pages_at_sample :
  let fs1 := [sample_point 1 1 10; sample_empty 11; sample_point 1 1 12] in
  let fs2 := [sample_point 50 50 13; sample_point 2 2 14] in
  length fs1 = 3%nat /\ length fs2 = 2%nat /\ "A"%string <> EmptyString
  /\ let ss :=
       run (H := planar_engine) true
         [FetchSettled
            (Some {| ok := true; status := 200;
                     json := Some {| features := fs1; nextCursor := Some "A"%string |} |});
          JsonSettled; DelayElapsed;
          FetchSettled
            (Some {| ok := true; status := 200;
                     json := Some {| features := fs2; nextCursor := None |} |});
          JsonSettled]
         (startSession mounted) in
     totalFetched (state ss) = 5
     /\ hasMore (state ss) = false
     /\ fetches (state ss) = (fetches mounted + 2)%nat
     /\ pc ss = Finished
     /\ isLoading (state ss) = false.
Proof.
  intros fs1 fs2.
  split; [reflexivity|]. split; [reflexivity|]. split; [discriminate|].
  apply (one_run_two_pages (H := planar_engine) true mounted fs1 fs2
           "A"%string 200 200); [reflexivity | reflexivity | discriminate].
Defined.

Lemma rebuild_then_world_query_counts_witness :
  let fs := [sample_point 1 1 10; sample_empty 11; sample_point 1 1 12] in
  let s := state (run (H := planar_engine) false [] (startSession mounted)) in
  let s' := addCollection (H := planar_engine) false fs s in
  fs <> []
  /\ (forall p, p ∈ pointsRef s' -> on_earth (coordinates p))
  /\ exists index,
       current_index s' = Some index
       /\ loaded index = pointsRef s'
       /\ NoDup (point_id <$> loaded index)
       /\ represented (getClusters (H := planar_engine) index world 0)
          = Z.of_nat (length (pointsRef s'))
       /\ length (pointsRef s')
          = (length (pointsRef s) + length (List.filter indexable fs))%nat
       /\ Z.of_nat (length (pointsRef s')) = nextFeatureIdRef s' - 1.
Proof.
  intros fs s s'.
  assert (fs <> []) as Hfs by discriminate.
  assert (forall p, p ∈ pointsRef s' -> on_earth (coordinates p)) as Hearth.
  { intros p Hp. vm_compute in Hp.
    apply elem_of_cons in Hp as [->|Hp];
      [|apply elem_of_cons in Hp as [->|Hp]; [|by apply elem_of_nil in Hp]].
    all: unfold on_earth; cbn; repeat split; lra. }
  split; [exact Hfs|]. split; [exact Hearth|].
  exact (rebuild_then_world_query_counts (H := planar_engine) false [] mounted fs
           Hfs Hearth).
Defined.

Lemma addCollection_point_ids_witness :
  let s := addCollection (H := planar_engine) false [sample_point 1 1 10]
             (state (startSession mounted)) in
  let s' := addCollection (H := planar_engine) false
              [sample_empty 11; sample_point 50 50 12] s in
  Indexed s
  /\ Indexed s'
  /\ StronglySorted Z.lt (point_id <$> pointsRef s')
  /\ NoDup (point_id <$> pointsRef s')
  /\ (exists new,
        pointsRef s' = pointsRef s ++ new
        /\ forall p q, p ∈ pointsRef s -> q ∈ new -> point_id p < point_id q)
  /\ (forall p, p ∈ pointsRef s' ->
        exists f, featureMapRef s' !! point_id p = Some f
                  /\ forall f', featureMapRef s' !! point_id p = Some f' -> f' = f)
  /\ (forall p f, p ∈ pointsRef s ->
        featureMapRef s !! point_id p = Some f ->
        featureMapRef s' !! point_id p = Some f).
Proof.
  intros s s'.
  assert (Indexed s) as Hs by apply addCollection_Indexed, startSession_Indexed.
  split; [exact Hs|].
  exact (addCollection_point_ids (H := planar_engine) false
           [sample_empty 11; sample_point 50 50 12] s Hs).
Defined.

Lemma one_run_failed_fetch_at_sample :
  let ss := startSession mounted in
  let r := {| ok := false; status := 500; json := None |} in
  let ss1 := step (H := planar_engine) true ss (FetchSettled (Some r)) in
  let ss2 := run (H := planar_engine) true [DelayElapsed; WhenReady; Cleanup] ss1 in
  pc ss = AwaitFetch "5000" None
  /\ ok r = false
  /\ pc ss1 = Finished
  /\ toasts (state ss1)
     = (toasts (state ss) + if toastRef (state ss) then 1 else 0)%nat
  /\ featureMapRef (state ss1) = featureMapRef (state ss)
  /\ pointsRef (state ss1) = pointsRef (state ss)
  /\ superclusterRef (state ss1) = superclusterRef (state ss)
  /\ heap (state ss1) = heap (state ss)
  /\ pc ss2 = Finished
  /\ fetches (state ss2) = fetches (state ss)
  /\ toasts (state ss2) = toasts (state ss1)
  /\ featureMapRef (state ss2) = featureMapRef (state ss)
  /\ pointsRef (state ss2) = pointsRef (state ss).
Proof.
  intros ss r ss1 ss2.
  split; [reflexivity|]. split; [reflexivity|].
  apply (one_run_failed_fetch (H := planar_engine) true ss "5000" None r
           [DelayElapsed; WhenReady; Cleanup]); reflexivity.
Defined.

(** The view is torn down and the [Toast] detached while the first
    fetch is in flight; the response is a 500: the loop ends and nothing
    is shown. *)
Lemma one_run_failed_fetch_after_teardown :
  let ss := run (H := planar_engine) true [Cleanup; ToastRefSet false]
              (startSession mounted) in
  let r := {| ok := false; status := 500; json := None |} in
  let ss1 := step (H := planar_engine) true ss (FetchSettled (Some r)) in
  pc ss = AwaitFetch "5000" None
  /\ pc ss1 = Finished
  /\ toasts (state ss1) = 0%nat
  /\ toasts (state ss1) <> S (toasts (state ss)).
Proof. vm_compute. repeat split; discriminate. Qed.

Lemma stale_cluster_click_is_noop_witness :
  let c := {| closure_instance := 0; closure_clusterId := 8589934630;
              closure_lat := 8 # 8; closure_lng := 8 # 8 |} in
  let layers := [Marker (8 # 8) (8 # 8) 2 (Some c)] in
  let ss := stale_marker_session in
  let ss' := step (H := planar_engine) false ss (MarkerClick 0) in
  clusterLayerRef (state ss) = Some layers
  /\ layers !! 0%nat = Some (Marker (8 # 8) (8 # 8) 2 (Some c))
  /\ expansion_lookup (H := planar_engine) c (state ss) = None
  /\ (onClusterClick (H := planar_engine) c (state ss)).1 = Normal
  /\ state ss' = (onClusterClick (H := planar_engine) c (state ss)).2
  /\ (state ss' = state ss \/ state ss' = log ConsoleWarn (state ss))
  /\ mapRef (state ss') = mapRef (state ss)
  /\ pc ss' = pc ss.
Proof.
  intros c layers ss ss'.
  assert (clusterLayerRef (state ss) = Some layers) as Hlayers by (vm_compute; reflexivity).
  assert (expansion_lookup (H := planar_engine) c (state ss) = None) as Hlookup
    by (vm_compute; reflexivity).
  split; [exact Hlayers|]. split; [reflexivity|]. split; [exact Hlookup|].
  exact (stale_cluster_click_is_noop (H := planar_engine) false ss layers 0
           (8 # 8) (8 # 8) 2 c Hlayers eq_refl Hlookup).
Defined.

Lemma cursor_until_empty_page_witness :
  let page :=
    {| Route.features := map Route.buildFeature (Route.order_by_id (Route.dm_sicar sample_db));
       Route.nextCursor := Some "Mw"%string |} in
  Route.online sample_db = true
  /\ Route.body (Route.GET sample_db (Some "5000"%string) None) = Route.JsonPage page
  /\ (is_Some (Route.nextCursor page) <-> Route.features page <> [])
  /\ (forall c, Route.nextCursor page = Some c -> is_truthy (Some c) = true)
  /\ exists ss served,
       drive (H := planar_engine) false (endpoint sample_db)
         (3 * length (Route.dm_sicar sample_db) + 2) (startSession mounted) []
       = (ss, served)
       /\ pc ss = Finished
       /\ hasMore (state ss) = false
       /\ fetches (state ss) = (fetches mounted + length served)%nat
       /\ length served = S (nonempty_pages served)
       /\ has_features <$> last served = Some false.
Proof.
  intros page.
  split; [reflexivity|]. split; [vm_compute; reflexivity|].
  apply (cursor_until_empty_page (H := planar_engine) false sample_db mounted
           (Some "5000"%string) None page); [reflexivity | vm_compute; reflexivity].
Defined.

(** A batch of two features at one place and a polygon without rings
    between them: ids 1 and 2, and nothing for the polygon. *)
Example degenerate_feature_in_batch :
  let s := addCollection (H := planar_engine) false
             [sample_point 1 1 10; sample_empty 11; sample_point 1 1 12]
             (state (startSession mounted)) in
  point_id <$> pointsRef s = [1; 2]
  /\ (feature_id <$> featureMapRef s) = {[ 1 := 10; 2 := 12 ]}
  /\ nextFeatureIdRef s = 3
  /\ (loaded <$> current_index s) = Some (pointsRef s).
Proof. vm_compute. repeat split. Qed.

(** Ten batches in a row to one run, the map attached and ready, no
    listener inside [fitBounds]: one fit. *)
Example ten_batches_one_fit :
  let batch (i : Z) (last : bool) :=
    [FetchSettled
       (Some {| ok := true; status := 200;
                json := Some {| features := [sample_point (inject_Z i) 1 i];
                                nextCursor := if last then None
                                              else Some "A"%string |} |});
     JsonSettled; DelayElapsed] in
  let events :=
    MapRefSet (Some {| center := INITIAL_VIEW; zoom := INITIAL_ZOOM |})
    :: flat_map (fun i => batch i (i =? 10)) (seqZ 1 10) in
  let ss := run (H := planar_engine) true events (startSession mounted) in
  totalFetched (state ss) = 10
  /\ fetches (state ss) = 10%nat
  /\ fits (state ss) = 1%nat
  /\ shouldFitBoundsRef (state ss) = false.
Proof. vm_compute. repeat split. Qed.

(** The full load of the three sample rows: one page with the three
    features and a cursor, then the empty page. *)
Example sample_full_load :
  let '(ss, served) :=
    drive (H := planar_engine) false (endpoint sample_db) 11 (startSession mounted) [] in
  (has_features <$> served) = [true; false]
  /\ effects (state ss) = [Fetch "5000" None; Fetch "5000" (Some "Mw"%string)]
  /\ totalFetched (state ss) = 3.
Proof. vm_compute. repeat split. Qed.

(* ===================================================================== *)
(** * Further properties of the code                                        *)
(* ===================================================================== *)

(** ** Envelopes *)

Section Envelopes.
Context `{Engine}.

Lemma within_refl p : within p p p.
Proof. unfold within. repeat split; apply Qle_refl. Qed.

Lemma extend_encloses b p :
  exists sw ne, extend b p = Some (sw, ne) /\ within sw ne p
    /\ (forall sw0 ne0 q, b = Some (sw0, ne0) -> within sw0 ne0 q -> within sw ne q).
Proof.
  destruct b as [[sw0 ne0]|]; cbn.
  - eexists _, _. split; [reflexivity|]. unfold within; cbn. split.
    + repeat split; auto using Q.le_min_l, Q.le_max_l.
    + intros ? ? q [= <- <-] (?&?&?&?). repeat split.
      * eapply Qle_trans; [apply Q.le_min_r|done].
      * eapply Qle_trans; [done|apply Q.le_max_r].
      * eapply Qle_trans; [apply Q.le_min_r|done].
      * eapply Qle_trans; [done|apply Q.le_max_r].
  - exists p, p. split; [done|]. split; [apply within_refl|]. intros ? ? ? [=].
Qed.

(** Extending bounds by a list of points: the result is valid when there
    is a point or the bounds were valid, holds every point of the list,
    and holds whatever the bounds held. *)
Lemma fold_extend_encloses (ps : list LatLng) b :
  match fold_left extend ps b with
  | Some (sw, ne) =>
      (forall p, p ∈ ps -> within sw ne p)
      /\ (forall sw0 ne0 q, b = Some (sw0, ne0) -> within sw0 ne0 q -> within sw ne q)
  | None => ps = [] /\ b = None
  end.
Proof.
  revert b. induction ps as [|p ps IH]; intros b; cbn.
  - destruct b as [[sw ne]|]; [|done]. split.
    + intros p Hp. by apply elem_of_nil in Hp.
    + by intros ? ? q [= <- <-].
  - destruct (extend_encloses b p) as (sw1 & ne1 & E & Hp & Hold).
    specialize (IH (extend b p)). rewrite E in IH |- *.
    destruct (fold_left extend ps (Some (sw1, ne1))) as [[sw ne]|]; [|by destruct IH].
    destruct IH as [Hps Hkeep]. split.
    + intros q [->|Hq]%elem_of_cons; [by apply (Hkeep sw1 ne1)|by apply Hps].
    + intros sw0 ne0 q Hb Hq. apply (Hkeep sw1 ne1); [done|]. by apply (Hold sw0 ne0).
Qed.

Lemma within_ordered sw ne p :
  within sw ne p -> (lat sw <= lat ne)%Q /\ (lng sw <= lng ne)%Q.
Proof. intros (?&?&?&?). split; eapply Qle_trans; eauto. Qed.

Lemma getCenter_within sw ne :
  (lat sw <= lat ne)%Q -> (lng sw <= lng ne)%Q -> within sw ne (getCenter sw ne).
Proof.
  intros Hlat Hlng. unfold within, getCenter; cbn.
  repeat split.
  - apply Qle_shift_div_l; lra.
  - apply Qle_shift_div_r; lra.
  - apply Qle_shift_div_l; lra.
  - apply Qle_shift_div_r; lra.
Qed.

(** X1: [geometryToLatLng] gives no point exactly for a null geometry
    or one without positions; otherwise the point is the centre of a
    rectangle that holds every position of the geometry, and lies in that
    rectangle. *)
Theorem geometryToLatLng_centre (g : option Geometry) :
  (geometryToLatLng g = None <-> ~ nonempty_geometry g)
  /\ (forall c, geometryToLatLng g = Some c ->
        exists sw ne,
          c = getCenter sw ne
          /\ within sw ne c
          /\ forall g' pos, g = Some g' -> pos ∈ positions g' ->
               within sw ne (coordsToLatLng pos)).
Proof.
  split.
  - split.
    + intros Hnone (g' & -> & Hpos). cbn in Hnone.
      unfold geoJSON_getBounds in Hnone.
      pose proof (fold_extend_encloses (map coordsToLatLng (positions g')) None) as Hb.
      destruct (fold_left extend _ None) as [[sw ne]|]; [done|].
      destruct Hb as [Hnil _]. by destruct (positions g').
    + intros Hempty. destruct (geometryToLatLng g) as [c|] eqn:E; [|done].
      destruct Hempty. by apply (geometryToLatLng_nonempty g c).
  - intros c Hc. destruct g as [g'|]; [|done]. cbn in Hc.
    unfold geoJSON_getBounds in Hc.
    pose proof (fold_extend_encloses (map coordsToLatLng (positions g')) None) as Hb.
    destruct (positions g') as [|pos0 rest] eqn:Epos; [done|].
    destruct (fold_left extend _ None) as [[sw ne]|]; [|done].
    cbn in Hc. injection Hc as <-. destruct Hb as [Hall _].
    exists sw, ne. split; [done|].
    assert (forall pos, pos ∈ pos0 :: rest -> within sw ne (coordsToLatLng pos)) as Hpos.
    { intros pos Hpos. apply Hall. apply list_elem_of_In, List.in_map.
      by apply list_elem_of_In. }
    split.
    + destruct (within_ordered sw ne _ (Hpos pos0 ltac:(by left))).
      by apply getCenter_within.
    + intros g2 pos [= <-]. rewrite Epos. apply Hpos.
Qed.

End Envelopes.

(** ** What a step can do to the buffer, the bounds and the counter *)

Section SessionData.
Context `{Engine}.

Lemma step_data mapReady ss e :
  let s := state ss in
  let s' := state (step mapReady ss e) in
  (pointsRef s' = pointsRef s /\ boundsRef s' = boundsRef s
   /\ totalFetched s' = totalFetched s)
  \/ (exists fs,
        pointsRef s' = pointsRef (addCollection mapReady fs s)
        /\ boundsRef s' = boundsRef (addCollection mapReady fs s)
        /\ totalFetched s' = totalFetched s + Z.of_nat (length fs)).
Proof.
  destruct ss as [s p c]. cbn [state].
  destruct e as [[r|]| | | | | | view | | i].
  - left. destruct p; cbn; try done. destruct (negb (ok r)); cbn; [|done].
    unfold load_catch, load_finally. by repeat case_match.
  - left. destruct p; cbn; try done.
    unfold load_catch, load_finally. by repeat case_match.
  - destruct p; cbn -[addCollection]; try (by left).
    destruct (json response) as [payload|]; cbn -[addCollection].
    + right. exists (features payload).
      rewrite <- (control_totalFetched _ _ (addCollection_control mapReady (features payload) s)).
      destruct (negb (is_truthy (nextCursor payload))); cbn -[addCollection];
        unfold load_finally; by repeat case_match.
    + left. unfold load_catch, load_finally. by repeat case_match.
  - left. destruct p; cbn; try done.
    unfold load_iterate, load_finally. by repeat case_match.
  - left. by destruct p.
  - left. by destruct p.
  - left. by destruct p.
  - left.
    assert (let t := if mapReady
                     then renderClusters (set_mapRef ((fun _ => view) <$> mapRef s) s)
                     else set_mapRef ((fun _ => view) <$> mapRef s) s in
            pointsRef t = pointsRef s /\ boundsRef t = boundsRef s
            /\ totalFetched t = totalFetched s) as Hv.
    { destruct mapReady; [|done]. cbn zeta.
      by destruct (renderClusters_same (set_mapRef ((fun _ => view) <$> mapRef s) s))
        as [_ _ -> _ -> _ -> _ _ _ _]. }
    destruct p; exact Hv.
  - left. destruct (renderClusters_same s) as [_ _ Hp _ Hb _ Ht _ _ _ _].
    destruct p; cbn -[renderClusters]; by rewrite Hp, Hb, Ht.
  - left. destruct p; cbn -[onClusterClick]; repeat case_match; try done;
      match goal with
      | |- context [onClusterClick ?c ?s] =>
          destruct (onClusterClick_same c s) as [_ _ Hp _ Hb _ Ht _ _ _ _];
          by rewrite Hp, Hb, Ht
      end.
Qed.

Lemma fold_indexFeature_bounds (fs : list Feature) s pts nb :
  (fold_left indexFeature fs (s, pts, nb)).2 = fold_left extend (centres fs) nb.
Proof.
  revert s pts nb. induction fs as [|f fs IH]; intros s pts nb; [done|].
  cbn [fold_left]. unfold centres in *. cbn [omap list_omap].
  unfold indexFeature at 2.
  destruct (geometryToLatLng (geometry f)) as [c|]; cbn [fold_left]; apply IH.
Qed.

Lemma addCollection_boundsRef mapReady (fs : list Feature) s :
  boundsRef (addCollection mapReady fs s)
  = if decide (List.filter indexable fs = []) then boundsRef s
    else Some (fold_left extend (centres fs) (seed_bounds (boundsRef s))).
Proof.
  pose proof (getSupercluster_same s) as Hg.
  unfold addCollection.
  destruct fs as [|f0 fs0]; [done|].
  set (fs := f0 :: fs0) in *.
  change (length fs =? 0)%nat with false. cbv iota.
  destruct (getSupercluster s) as [a s0] eqn:Eg. cbn in Hg.
  rewrite (same_boundsRef _ _ Hg). fold (seed_bounds (boundsRef s)).
  pose proof (fold_indexFeature_bounds fs s0 [] (seed_bounds (boundsRef s))) as Hb.
  destruct (fold_indexFeature fs s0 [] (seed_bounds (boundsRef s)))
    as (table & new & nb' & E & Hlen & _ & _ & Hnb).
  rewrite E in Hb |- *. cbn [snd] in Hb. subst nb'.
  destruct Hnb as [[Hnil Hsame]|[Hne Hvalid]].
  - rewrite decide_True by done. rewrite Hnil in Hlen. destruct new; [|done].
    cbn. by rewrite (same_boundsRef _ _ Hg).
  - rewrite decide_False by done.
    destruct (length ([] ++ new) =? 0)%nat eqn:Enew.
    { apply Nat.eqb_eq in Enew. cbn in Enew. rewrite Enew in Hlen.
      by destruct (List.filter indexable fs). }
    rewrite Hvalid.
    destruct mapReady; [|done].
    match goal with |- context [renderClusters ?t] =>
      by rewrite (same_boundsRef _ _ (renderClusters_same t)) end.
Qed.

Lemma centres_kept (fs : list Feature) i f c :
  List.filter indexable fs !! i = Some f ->
  geometryToLatLng (geometry f) = Some c ->
  c ∈ centres fs.
Proof.
  intros Hi Hc. unfold centres. apply list_elem_of_omap. exists f. split; [|done].
  apply list_elem_of_lookup_2 in Hi. apply list_elem_of_In, List.filter_In in Hi as [Hi _].
  by apply list_elem_of_In.
Qed.

Lemma seed_encloses sw0 ne0 q :
  within sw0 ne0 q ->
  exists sw1 ne1, extend (extend None sw0) ne0 = Some (sw1, ne1) /\ within sw1 ne1 q.
Proof.
  intros (?&?&?&?). cbn. eexists _, _. split; [reflexivity|].
  unfold within; cbn.
  rewrite !Q.min_le_iff, !Q.max_le_iff. tauto.
Qed.

Lemma addCollection_Enclosed mapReady fs s :
  Enclosed s -> Enclosed (addCollection mapReady fs s).
Proof.
  intros Hs. unfold Enclosed. rewrite addCollection_boundsRef.
  pose proof (getSupercluster_same s) as Hg.
  destruct (addCollection_cases mapReady fs s)
    as [[Hnil [[_ E] | [_ E]]] | (Hne & table & new & sw1 & ne1 & Hlen & Hkept & _ & E)].
  - rewrite decide_True by done. by rewrite E.
  - rewrite decide_True by done. rewrite E, (same_pointsRef _ _ Hg). exact Hs.
  - rewrite decide_False by done.
    assert (pointsRef (addCollection mapReady fs s) = pointsRef s ++ new) as ->.
    { rewrite E. destruct mapReady; [|done].
      match goal with |- context [renderClusters ?t] =>
        by rewrite (same_pointsRef _ _ (renderClusters_same t)) end. }
    pose proof (fold_extend_encloses (centres fs) (seed_bounds (boundsRef s))) as Hb.
    destruct (fold_left extend (centres fs) (seed_bounds (boundsRef s))) as [[sw ne]|].
    + destruct Hb as [Hall Hkeep]. split.
      { destruct new; [by destruct (List.filter indexable fs)|]. by destruct (pointsRef s). }
      intros p [Hp|Hp]%elem_of_app.
      * unfold Enclosed in Hs.
        destruct (boundsRef s) as [[[sw0 ne0]|]|] eqn:Eb; [|done|].
        -- destruct Hs as [_ Hold]. cbn [seed_bounds] in Hkeep.
           destruct (seed_encloses sw0 ne0 _ (Hold p Hp)) as (sw2 & ne2 & E2 & Hw).
           by apply (Hkeep sw2 ne2).
        -- rewrite Hs in Hp. by apply elem_of_nil in Hp.
      * apply list_elem_of_lookup in Hp as [i Hi].
        assert (i < length (List.filter indexable fs))%nat as Hlt
          by (rewrite <- Hlen; by apply lookup_lt_Some in Hi).
        destruct (lookup_lt_is_Some_2 _ i Hlt) as [f Hf].
        destruct (Hkept i f Hf) as (_ & q & Hq & _ & Hc).
        assert (q = p) as -> by congruence.
        apply Hall. by apply (centres_kept fs i f).
    + destruct Hb as [Hnone _]. exfalso.
      destruct (List.filter indexable fs) as [|f rest] eqn:Ek; [done|].
      destruct (Hkept 0%nat f eq_refl) as (_ & q & _ & _ & Hc).
      assert (center_of q ∈ centres fs) as Hin.
      { apply (centres_kept fs 0 f); [by rewrite Ek|done]. }
      rewrite Hnone in Hin. by apply elem_of_nil in Hin.
Qed.

Lemma step_Enclosed mapReady ss e :
  Enclosed (state ss) -> Enclosed (state (step mapReady ss e)).
Proof.
  intros Hs. unfold Enclosed.
  destruct (step_data mapReady ss e) as [(-> & -> & _)|(fs & -> & -> & _)]; [done|].
  by apply addCollection_Enclosed.
Qed.

(** X2: in every state of a session the accumulated bounds are absent
    exactly while the points buffer is empty, and otherwise are valid
    bounds that hold every point of the buffer. *)
Theorem bounds_enclose_buffer mapReady events s0 :
  let s := state (run mapReady events (startSession s0)) in
  match boundsRef s with
  | None => pointsRef s = []
  | Some bounds =>
      pointsRef s <> []
      /\ exists sw ne, bounds = Some (sw, ne)
           /\ forall p, p ∈ pointsRef s -> within sw ne (center_of p)
  end.
Proof.
  cbn zeta.
  assert (Enclosed (state (run mapReady events (startSession s0)))) as Hs.
  { assert (forall ss, Enclosed (state ss) ->
                       Enclosed (state (run mapReady events ss))) as Hrun.
    { induction events as [|e events IH]; intros ss Hss; [done|].
      rewrite run_cons. by apply IH, step_Enclosed. }
    by apply Hrun. }
  unfold Enclosed in Hs.
  destruct (boundsRef _) as [[[sw ne]|]|]; [|done|done].
  destruct Hs. split; [done|]. by exists sw, ne.
Qed.

End SessionData.

(** ** Invariants of a session *)

Section SessionInvariants.
Context `{Engine}.

Lemma run_invariant (P : State -> Prop) mapReady :
  (forall ss e, P (state ss) -> P (state (step mapReady ss e))) ->
  forall events ss, P (state ss) -> P (state (run mapReady events ss)).
Proof.
  intros Hstep events. induction events as [|e events IH]; intros ss Hss; [done|].
  rewrite run_cons. by apply IH, Hstep.
Qed.


(** *** The cluster index of a session *)

Lemma SessionIndex_ext h0 s s' :
  superclusterRef s' = superclusterRef s -> heap s' = heap s ->
  SessionIndex h0 s -> SessionIndex h0 s'.
Proof. unfold SessionIndex. by intros -> ->. Qed.

Lemma getSupercluster_SessionIndex h0 s :
  SessionIndex h0 s ->
  SessionIndex h0 (getSupercluster s).2
  /\ superclusterRef (getSupercluster s).2 = Some (getSupercluster s).1.
Proof.
  unfold SessionIndex, getSupercluster.
  destruct (superclusterRef s) as [a|] eqn:Es; cbn.
  - rewrite Es. by intros ?.
  - intros ->. split; [|by destruct s]. destruct s; cbn in *.
    split; [done|]. eexists. split; [reflexivity|]. by case_match.
Qed.

Lemma renderClusters_SessionIndex h0 s :
  SessionIndex h0 s -> SessionIndex h0 (renderClusters s).
Proof.
  intros Hs. destruct (renderClusters_instance s) as [Hr Hh].
  apply (SessionIndex_ext h0 (getSupercluster s).2); [done|done|].
  by apply getSupercluster_SessionIndex.
Qed.

Lemma addCollection_SessionIndex h0 mapReady fs s :
  SessionIndex h0 s -> SessionIndex h0 (addCollection mapReady fs s).
Proof.
  intros Hs.
  destruct (getSupercluster_SessionIndex h0 s Hs) as [H0 Ha].
  destruct (addCollection_cases mapReady fs s)
    as [[_ [[_ ->] | [_ ->]]] | (_ & table & new & sw & ne & _ & _ & _ & ->)];
    [done|done|].
  match goal with |- SessionIndex _ (_ ?t) =>
    assert (SessionIndex h0 t) as Ht end.
  { unfold SessionIndex in H0 |- *.
    destruct (getSupercluster s) as [a s1]; cbn [fst snd] in *.
    destruct s1; cbn in *. rewrite Ha in H0 |- *.
    destruct H0 as (-> & index & -> & Hr & Hm). split; [done|].
    eexists. split.
    - rewrite <- (Nat.add_0_r (length h0)), alter_app_r. reflexivity.
    - done. }
  destruct mapReady; [by apply renderClusters_SessionIndex|done].
Qed.

Lemma step_SessionIndex h0 mapReady ss e :
  SessionIndex h0 (state ss) -> SessionIndex h0 (state (step mapReady ss e)).
Proof.
  intros Hs. destruct ss as [s p c]; cbn [state] in Hs.
  destruct e as [[r|]| | | | | | view | | i].
  - destruct p; cbn; try done. destruct (negb (ok r)); cbn; [|done].
    destruct (load_catch_fields s) as (_&_&_&?&?&_).
    by apply (SessionIndex_ext h0 s).
  - destruct p; cbn; try done.
    destruct (load_catch_fields s) as (_&_&_&?&?&_).
    by apply (SessionIndex_ext h0 s).
  - destruct p; cbn -[addCollection]; try done.
    destruct (json response) as [payload|]; cbn -[addCollection].
    + pose proof (addCollection_SessionIndex h0 mapReady (features payload) s Hs) as Ha.
      destruct (negb (is_truthy (nextCursor payload))); cbn -[addCollection];
        apply (SessionIndex_ext h0 (addCollection mapReady (features payload) s));
        try done; unfold load_finally; by repeat case_match.
    + destruct (load_catch_fields s) as (_&_&_&?&?&_).
      by apply (SessionIndex_ext h0 s).
  - destruct p; cbn; try done.
    destruct (load_iterate_fields c s) as (_&_&_&?&?&_).
    by apply (SessionIndex_ext h0 s).
  - destruct p; by apply (SessionIndex_ext h0 s).
  - destruct p; by apply (SessionIndex_ext h0 s).
  - destruct p; by apply (SessionIndex_ext h0 s).
  - assert (SessionIndex h0 (set_mapRef ((fun _ => view) <$> mapRef s) s)) as Hv
      by (by apply (SessionIndex_ext h0 s)).
    destruct p; cbn -[renderClusters]; destruct mapReady;
      done || by apply renderClusters_SessionIndex.
  - destruct p; cbn -[renderClusters]; by apply renderClusters_SessionIndex.
  - destruct p; cbn -[onClusterClick]; repeat case_match; try done;
      match goal with
      | |- context [onClusterClick ?c ?s] =>
          destruct (onClusterClick_instance c s) as [? ?];
          by apply (SessionIndex_ext h0 s)
      end.
Qed.

(** X4: a session makes at most one Supercluster instance.  Until it
    does, the instances made before the session are all there is; once it
    has, the ref holds that one instance for the rest of the session: it
    was made with the radius and the maximal zoom of the view, it is the
    only addition to the instances made before, which are as they were,
    and its points are the whole points buffer. *)
Theorem session_has_one_index mapReady events s0 :
  let s := state (run mapReady events (startSession s0)) in
  match superclusterRef s with
  | None => heap s = heap s0
  | Some a =>
      a = length (heap s0)
      /\ exists index,
           heap s = heap s0 ++ [index]
           /\ radius index = CLUSTER_RADIUS
           /\ maxZoom index = CLUSTER_MAX_ZOOM
           /\ loaded index = pointsRef s
  end.
Proof.
  cbn zeta.
  pose proof (session_Indexed mapReady events s0) as Hi.
  assert (SessionIndex (heap s0) (state (run mapReady events (startSession s0)))) as Hs.
  { apply (run_invariant (SessionIndex (heap s0))).
    - intros ss e. apply step_SessionIndex.
    - by cbn. }
  unfold SessionIndex in Hs.
  destruct (superclusterRef _) as [a|] eqn:Ea; [|done].
  destruct Hs as (-> & index & Hh & Hr & Hm). split; [done|].
  exists index. repeat split; try done.
  destruct (index_current _ Hi _ Ea) as (index' & Hl & Hp).
  rewrite Hh, lookup_app_r, Nat.sub_diag in Hl by done. cbn in Hl. congruence.
Qed.

(** *** After the cleanup *)

Lemma step_cancelled_loading mapReady ss e :
  cancelledRef (state ss) = true ->
  isLoading (state (step mapReady ss e)) = isLoading (state ss).
Proof.
  intros Hc. destruct ss as [s p c]; cbn [state] in *.
  destruct e as [[r|]| | | | | | view | | i].
  - destruct p; cbn; try done. destruct (negb (ok r)); cbn; [|done].
    unfold load_catch, load_finally. destruct s; cbn in *. rewrite Hc.
    by repeat case_match.
  - destruct p; cbn; try done.
    unfold load_catch, load_finally. destruct s; cbn in *. rewrite Hc.
    by repeat case_match.
  - destruct p; cbn -[addCollection]; try done.
    pose proof (fun fs => addCollection_control mapReady fs s) as Ha.
    destruct (json response) as [payload|]; cbn -[addCollection].
    + specialize (Ha (features payload)).
      destruct (negb (is_truthy (nextCursor payload))); cbn -[addCollection].
      * unfold load_finally. cbn -[addCollection].
        rewrite (control_cancelledRef _ _ Ha), Hc. cbn -[addCollection].
        apply (control_isLoading _ _ Ha).
      * apply (control_isLoading _ _ Ha).
    + unfold load_catch, load_finally. destruct s; cbn in *. rewrite Hc.
      by repeat case_match.
  - destruct p; cbn; try done.
    unfold load_iterate, load_finally. rewrite Hc. by cbn.
  - by destruct p.
  - by destruct p.
  - by destruct p.
  - destruct p; cbn -[renderClusters]; destruct mapReady; try done;
      match goal with |- context [renderClusters ?t] =>
        by rewrite (same_isLoading _ _ (renderClusters_same t)) end.
  - destruct p; cbn -[renderClusters];
      by rewrite (same_isLoading _ _ (renderClusters_same s)).
  - destruct p; cbn -[onClusterClick]; repeat case_match; try done;
      match goal with
      | |- context [onClusterClick ?c ?s] =>
          by rewrite (same_isLoading _ _ (onClusterClick_same c s))
      end.
Qed.

Lemma run_cancelled_loading mapReady events ss :
  cancelledRef (state ss) = true ->
  isLoading (state (run mapReady events ss)) = isLoading (state ss).
Proof.
  revert ss. induction events as [|e events IH]; intros ss Hc; [done|].
  rewrite run_cons.
  destruct (step_cancelled mapReady ss e Hc) as [Hc1 _].
  rewrite (IH _ Hc1). by apply step_cancelled_loading.
Qed.

(** One run of the load effect by itself: once it has been cleaned up
    and while nothing lowers [cancelledRef] again, whatever happens next
    starts no network call and leaves the loading flag alone. *)
Lemma one_run_cleaned_up mapReady before after s0 :
  let at_cleanup := run mapReady (before ++ [Cleanup]) (startSession s0) in
  let later := run mapReady (before ++ Cleanup :: after) (startSession s0) in
  cancelledRef (state later) = true
  /\ fetches (state later) = fetches (state (run mapReady before (startSession s0)))
  /\ isLoading (state later) = isLoading (state at_cleanup).
Proof.
  cbn zeta.
  change (before ++ Cleanup :: after) with (before ++ [Cleanup] ++ after).
  rewrite app_assoc, (run_app _ (before ++ [Cleanup])), (run_app _ before).
  set (ss := run mapReady before (startSession s0)).
  change (run mapReady [Cleanup] ss) with (step mapReady ss Cleanup).
  assert (cancelledRef (state (step mapReady ss Cleanup)) = true) as Hc
    by (destruct ss as [s p c]; by destruct p).
  assert (fetches (state (step mapReady ss Cleanup)) = fetches (state ss)) as Hf
    by (destruct ss as [s p c]; by destruct p).
  destruct (run_cancelled mapReady after _ Hc) as [Hc' Hf'].
  split; [done|]. split; [congruence|].
  by apply run_cancelled_loading.
Qed.

End SessionInvariants.

(** ** What a render pass draws *)

Section Rendering.
Context `{Engine}.






(** X7: a click on a layer of the cluster layer never disturbs the
    loader or the data: the suspended [load] and its cursor, the points,
    the feature table, the drawn layers and the number of fits and of
    network calls are as before; the map keeps its view or is flown to a
    zoom of at most [CLUSTER_MAX_ZOOM]. *)
Theorem marker_click_is_local mapReady ss i :
  let ss' := step mapReady ss (MarkerClick i) in
  pc ss' = pc ss /\ cursor ss' = cursor ss
  /\ same_data (state ss) (state ss')
  /\ clusterLayerRef (state ss') = clusterLayerRef (state ss)
  /\ fits (state ss') = fits (state ss)
  /\ (mapRef (state ss') = mapRef (state ss)
      \/ exists m', mapRef (state ss') = Some m' /\ zoom m' <= CLUSTER_MAX_ZOOM).
Proof.
  cbn zeta.
  assert (forall c s,
            let s' := (onClusterClick c s).2 in
            clusterLayerRef s' = clusterLayerRef s
            /\ (mapRef s' = mapRef s
                \/ exists m', mapRef s' = Some m' /\ zoom m' <= CLUSTER_MAX_ZOOM)) as Hclick.
  { intros c s. unfold onClusterClick.
    destruct (length (pointsRef s) =? 0)%nat; [by split; [|left]|].
    destruct (expansion_lookup c s) as [z|]; cbn.
    - split; [by destruct s|]. destruct s; cbn. destruct mapRef0; cbn; [right|by left].
      eexists. split; [reflexivity|]. cbn. apply Z.le_min_r.
    - split; [by destruct s|]. left. by destruct s. }
  destruct ss as [s p c].
  assert (pc (step mapReady {| state := s; pc := p; cursor := c |} (MarkerClick i)) = p
          /\ cursor (step mapReady {| state := s; pc := p; cursor := c |} (MarkerClick i)) = c)
    as [-> ->] by (by destruct p).
  split; [done|]. split; [done|].
  assert (state (step mapReady {| state := s; pc := p; cursor := c |} (MarkerClick i)) = s
          \/ exists k, state (step mapReady {| state := s; pc := p; cursor := c |}
                                (MarkerClick i)) = (onClusterClick k s).2) as [->|[k ->]].
  { destruct p; cbn -[onClusterClick]; repeat case_match; eauto. }
  - cbn [state]. repeat split; try done. by left.
  - cbn [state]. destruct (Hclick k s) as [? ?].
    destruct (onClusterClick_fit k s) as [? _].
    split; [apply onClusterClick_same|]. done.
Qed.


End Rendering.

(** ** Pages of the endpoint *)

Section KeysetPages.

#[local] Instance id_le_trans : Transitive Route.id_le.
Proof. unfold Route.id_le. intros x y z. lia. Qed.

#[local] Instance id_le_total : Total Route.id_le.
Proof. unfold Route.id_le. intros x y. lia. Qed.

Lemma filter_none {A} (P : A -> Prop) `{!forall x, Decision (P x)} (l : list A) :
  (forall x, x ∈ l -> ~ P x) -> filter P l = [].
Proof.
  induction l as [|a l IH]; intros Hl; [done|].
  rewrite filter_cons_False by (apply Hl; left). apply IH. intros x Hx. apply Hl. by right.
Qed.

Lemma order_by_id_sorted rows : StronglySorted Route.id_le (Route.order_by_id rows).
Proof. apply StronglySorted_merge_sort; apply _. Qed.

Lemma order_by_id_perm rows : Route.order_by_id rows ≡ₚ rows.
Proof. apply merge_sort_Permutation. Qed.

Lemma sorted_strict l :
  StronglySorted Route.id_le l -> NoDup (Route.id <$> l) -> StronglySorted id_lt l.
Proof.
  induction 1 as [|a l Hl IH Ha]; intros Hnd; constructor.
  - apply IH. by apply NoDup_cons in Hnd as [_ ?].
  - apply NoDup_cons in Hnd as [Hnotin _].
    rewrite Forall_forall in Ha |- *. intros x Hx.
    specialize (Ha x Hx). unfold Route.id_le, id_lt in *.
    assert (Route.id a <> Route.id x); [|lia].
    intros E. apply Hnotin. rewrite E. apply list_elem_of_fmap. by exists x.
Qed.

Lemma selected_sublist db c : selected db c `sublist_of` Route.dm_sicar db.
Proof. destruct c; cbn; [apply sublist_filter|done]. Qed.

Lemma selected_NoDup db c :
  NoDup (Route.id <$> Route.dm_sicar db) -> NoDup (Route.id <$> selected db c).
Proof.
  intros Hnd. eapply sublist_NoDup; [exact Hnd|].
  apply fmap_sublist, selected_sublist.
Qed.

Lemma order_by_id_strict db c :
  NoDup (Route.id <$> Route.dm_sicar db) ->
  StronglySorted id_lt (Route.order_by_id (selected db c)).
Proof.
  intros Hnd. apply sorted_strict; [apply order_by_id_sorted|].
  rewrite (order_by_id_perm (selected db c)). by apply selected_NoDup.
Qed.

Lemma selected_next db c rl :
  rl ∈ selected db c ->
  selected db (Some (Route.id rl))
  = filter (fun r => Route.id rl < Route.id r) (selected db c).
Proof.
  intros Hr. destruct c as [c|]; cbn in *; [|done].
  apply list_elem_of_filter in Hr as [Hc Hr].
  rewrite list_filter_filter. apply list_filter_iff. intros x. lia.
Qed.

(** The rows after the last row of a page are the rows the page left
    out. *)
Lemma page_split db c (n : nat) rl :
  NoDup (Route.id <$> Route.dm_sicar db) ->
  last (take n (Route.order_by_id (selected db c))) = Some rl ->
  Route.order_by_id (selected db (Some (Route.id rl)))
  = drop n (Route.order_by_id (selected db c)).
Proof.
  intros Hnd Hlast.
  pose proof (order_by_id_strict db c Hnd) as Hsorted.
  pose proof (page_rows_selected db c n rl Hlast) as Hsel.
  set (L := Route.order_by_id (selected db c)) in *.
  apply last_Some in Hlast as [l1 Hl1].
  rewrite <- (take_drop n L), Hl1 in Hsorted.
  assert (filter (fun r => Route.id rl < Route.id r) L = drop n L) as Hfilter.
  { rewrite <- (take_drop n L) at 1. rewrite Hl1, !filter_app.
    rewrite (filter_all _ (drop n L)).
    - rewrite (filter_none _ l1).
      + rewrite filter_cons_False by lia. done.
      + intros x Hx.
        assert (id_lt x rl); [|unfold id_lt in *; lia].
        apply StronglySorted_app_1_l in Hsorted.
        eapply StronglySorted_app_1_elem_of; [exact Hsorted|done|left].
    - intros x Hx.
      eapply (StronglySorted_app_1_elem_of id_lt); [exact Hsorted| |done].
      apply elem_of_app. right. left. }
  apply (StronglySorted_unique_strong id_lt).
  - unfold id_lt. intros; lia.
  - by apply order_by_id_strict.
  - by apply StronglySorted_app_1_r in Hsorted.
  - rewrite order_by_id_perm, (selected_next db c rl Hsel), <- Hfilter.
    apply filter_Permutation. symmetry. apply order_by_id_perm.
Qed.

(** What the handler answers to a request with the cursor token of
    record [c], whatever the limit parameter. *)
Lemma GET_answer db limitParam (c : option Z) :
  Route.GET db limitParam (Route.encodeCursor <$> c)
  = match Route.online db, Route.limit_number limitParam with
    | true, Route.Num n =>
        let rows := take (Z.to_nat n) (Route.order_by_id (selected db c)) in
        {| Route.status := 200;
           Route.body :=
             Route.JsonPage
               {| Route.features := map Route.buildFeature rows;
                  Route.nextCursor :=
                    (fun r => Route.encodeCursor (Route.id r)) <$> last rows |} |}
    | _, _ =>
        {| Route.status := 500; Route.body := Route.JsonError "Failed to fetch data" |}
    end.
Proof.
  unfold Route.GET, Route.runQuery.
  destruct (Route.online db); [|done].
  destruct (Route.limit_number limitParam) as [n|q|negative|]; try done.
  destruct c as [c|]; cbn [fmap option_fmap option_map Route.cursorValue].
  - rewrite encodeCursor_truthy, cursor_token_decodes. reflexivity.
  - reflexivity.
Qed.

Lemma limit_number_range limitParam :
  (exists n, Route.limit_number limitParam = Route.Num n /\ 1 <= n <= Route.MAX_LIMIT)
  \/ (exists q, Route.limit_number limitParam = Route.Frac q
                /\ (1 < q)%Q /\ (q < inject_Z Route.MAX_LIMIT)%Q).
Proof.
  unfold Route.limit_number, Route.number_or, Route.Math_max, Route.Math_min,
    Route.MAX_LIMIT, Route.DEFAULT_LIMIT.
  destruct (Route.Number_param limitParam) as [[|p|p]|q|[|]|].
  1-3, 5-7: left; eexists; split; [reflexivity|lia].
  destruct (Qle_bool q (inject_Z 1)) eqn:E1.
  { left. eexists. split; [reflexivity|lia]. }
  destruct (Qle_bool (inject_Z 20000) q) eqn:E2.
  { left. eexists. split; [reflexivity|lia]. }
  right. exists q. split; [reflexivity|].
  split; apply Qnot_le_lt; intros Hle; apply Qle_bool_iff in Hle;
    [change (Qle_bool q (inject_Z 1) = true) in Hle|]; congruence.
Qed.

(** The limit of a request that gave a page is an integer: the number
    of rows asked for. *)
Lemma limit_of_page db limitParam cursorParam page :
  Route.body (Route.GET db limitParam cursorParam) = Route.JsonPage page ->
  Route.limit_number limitParam = Route.Num (limit_of limitParam)
  /\ (length (Route.features page) <= Z.to_nat (limit_of limitParam))%nat.
Proof.
  unfold Route.GET, Route.runQuery, limit_of.
  destruct (Route.online db); [|done].
  destruct (Route.limit_number limitParam) as [n|q|negative|]; try done.
  destruct (Route.cursorValue _) as [[k|?|?|]|]; try done;
    cbn; intros [= <-]; cbn; (split; [done|]); rewrite length_map, length_take; lia.
Qed.

(** X8: the handler answers with a page and status 200 or with an
    error and status 500, which the view does not take for a success.
    The limit it works with is always a number from 1 to [MAX_LIMIT]:
    [DEFAULT_LIMIT] when the parameter is missing or reads as [0] or as
    [NaN], and otherwise the number the parameter reads as, with an
    exponent, a fraction, a sign or as an infinity, brought into that
    range.  A page never holds more features than the limit, and a limit
    that is no integer gives no page.  For a parameter that is the
    decimal numeral of an integer [n] the limit is [DEFAULT_LIMIT] when
    [n] is [0] and [n] brought into the range otherwise. *)
Theorem GET_reply_bounded db limitParam cursorParam :
  let reply := Route.GET db limitParam cursorParam in
  let limit := Route.limit_number limitParam in
  ((exists n, limit = Route.Num n /\ 1 <= n <= Route.MAX_LIMIT)
   \/ (exists q, limit = Route.Frac q /\ (1 < q)%Q /\ (q < inject_Z Route.MAX_LIMIT)%Q))
  /\ match Route.Number_param limitParam with
     | Route.Num 0 | Route.NaN => limit = Route.Num Route.DEFAULT_LIMIT
     | Route.Num n => limit = Route.Num (Z.min (Z.max n 1) Route.MAX_LIMIT)
     | Route.Frac q =>
         limit = if Qle_bool q 1 then Route.Num 1
                 else if Qle_bool (inject_Z Route.MAX_LIMIT) q
                      then Route.Num Route.MAX_LIMIT
                      else Route.Frac q
     | Route.Infinity negative =>
         limit = Route.Num (if negative then 1 else Route.MAX_LIMIT)
     end
  /\ (forall n,
        Route.limit_number (Some (Route.String_of_number n))
        = Route.Num (if n =? 0 then Route.DEFAULT_LIMIT
                     else Z.min (Z.max n 1) Route.MAX_LIMIT))
  /\ match Route.body reply with
     | Route.JsonPage page =>
         Route.status reply = 200
         /\ exists n, limit = Route.Num n
                      /\ (length (Route.features page) <= Z.to_nat n)%nat
     | Route.JsonError _ =>
         Route.status reply = 500 /\ ok (received reply) = false
     end.
Proof.
  cbn zeta. split; [apply limit_number_range|]. split.
  - unfold Route.limit_number, Route.number_or, Route.Math_max, Route.Math_min.
    destruct (Route.Number_param limitParam) as [[|p|p]|q|[|]|]; try reflexivity.
    change (inject_Z 1) with 1%Q.
    destruct (Qle_bool q 1); [reflexivity|]. cbn [Route.Math_min].
    by destruct (Qle_bool (inject_Z Route.MAX_LIMIT) q).
  - split.
    { intros n. unfold Route.limit_number. cbn [Route.Number_param].
      rewrite Number_String. by destruct n. }
    destruct (Route.body (Route.GET db limitParam cursorParam)) as [page|e] eqn:Hbody.
    + destruct (limit_of_page db limitParam cursorParam page Hbody) as [Hn Hlen].
      split; [|by exists (limit_of limitParam)].
      revert Hbody. unfold Route.GET. by destruct (Route.runQuery _ _ _).
    + revert Hbody. unfold Route.GET. by destruct (Route.runQuery _ _ _).
Qed.

(** The limits of some parameters that are no plain numerals. *)
Example limit_of_numerals :
  Route.limit_number <$> [Some "Infinity"; Some "2e0"; Some " 2"; Some "+2";
                          Some "1.5"; Some "0x10"; Some "-3"; Some "abc";
                          Some ""; None]%string
  = [Route.Num 20000; Route.Num 2; Route.Num 2; Route.Num 2;
     Route.Frac (3 # 2); Route.Num 16; Route.Num 1; Route.Num 5000;
     Route.Num 5000; Route.Num 5000].
Proof. reflexivity. Qed.

(** X9: a page for the cursor of record [c] holds rows of the table
    with an id above [c], in ascending order of id; a selected row that
    is not on the page has an id no smaller than any on the page, so the
    page skips nothing; and the next cursor is the token of the last
    feature's id, which decodes to that id. *)
Theorem GET_page_in_order db limitParam (c : option Z) page :
  Route.body (Route.GET db limitParam (Route.encodeCursor <$> c)) = Route.JsonPage page ->
  StronglySorted Z.le (feature_id <$> Route.features page)
  /\ (forall f, f ∈ Route.features page ->
        exists r, r ∈ Route.dm_sicar db /\ f = Route.buildFeature r
                  /\ forall k, c = Some k -> k < Route.id r)
  /\ (forall r, r ∈ selected db c ->
        Route.buildFeature r ∈ Route.features page
        \/ forall f, f ∈ Route.features page -> feature_id f <= Route.id r)
  /\ Route.nextCursor page
     = (fun f => Route.encodeCursor (feature_id f)) <$> last (Route.features page)
  /\ (forall t, Route.nextCursor page = Some t ->
        exists f, last (Route.features page) = Some f
                  /\ Route.decodeCursor t = Route.Num (feature_id f)).
Proof.
  rewrite GET_answer. destruct (Route.online db); [|done].
  destruct (Route.limit_number limitParam) as [limit|?|?|]; try done. cbn.
  intros [= <-]. cbn.
  set (n := Z.to_nat limit).
  set (L := Route.order_by_id (selected db c)).
  pose proof (order_by_id_sorted (selected db c)) as Hsorted. fold L in Hsorted.
  rewrite <- (take_drop n L) in Hsorted.
  assert (forall r, r ∈ take n L -> r ∈ selected db c) as Hin.
  { intros r Hr. rewrite <- (order_by_id_perm (selected db c)). fold L.
    rewrite <- (take_drop n L). apply elem_of_app. by left. }
  split; [|split; [|split; [|split]]].
  - rewrite <- list_fmap_compose.
    apply (StronglySorted_fmap _ Route.id_le); [done|].
    by apply StronglySorted_app_1_l in Hsorted.
  - intros f (r & -> & Hr)%list_elem_of_fmap. exists r.
    specialize (Hin r Hr). split; [|split; [done|]].
    + destruct c as [k0|]; cbn in Hin; [|done].
      by apply list_elem_of_filter in Hin as [_ ?].
    + intros k ->. cbn in Hin. by apply list_elem_of_filter in Hin as [? _].
  - intros r Hr. rewrite <- (order_by_id_perm (selected db c)) in Hr. fold L in Hr.
    rewrite <- (take_drop n L) in Hr. apply elem_of_app in Hr as [Hr|Hr].
    + left. apply list_elem_of_fmap. by exists r.
    + right. intros f (x & -> & Hx)%list_elem_of_fmap. cbn.
      by apply (StronglySorted_app_1_elem_of Route.id_le _ _ x r Hsorted).
  - destruct (take n L) as [|x l] using rev_ind; [done|].
    rewrite map_app. cbn [map]. by rewrite !last_snoc.
  - intros t Ht. destruct (take n L) as [|x l] using rev_ind; [done|].
    rewrite last_snoc in Ht. injection Ht as <-.
    exists (Route.buildFeature x). rewrite map_app. cbn [map]. rewrite last_snoc.
    split; [done|].
    apply cursor_token_decodes.
Qed.

(** X10: with ids that identify the rows, following the next cursor
    neither repeats nor loses a row: a page and the page its next cursor
    leads to are, together, the first rows in id order after the cursor,
    twice the limit of them. *)
Theorem GET_pages_chain db limitParam (c : option Z) page t page' :
  NoDup (Route.id <$> Route.dm_sicar db) ->
  Route.body (Route.GET db limitParam (Route.encodeCursor <$> c)) = Route.JsonPage page ->
  Route.nextCursor page = Some t ->
  Route.body (Route.GET db limitParam (Some t)) = Route.JsonPage page' ->
  Route.features page ++ Route.features page'
  = Route.buildFeature
      <$> take (2 * Z.to_nat (limit_of limitParam))
            (Route.order_by_id (selected db c)).
Proof.
  intros Hnd. unfold limit_of. rewrite GET_answer.
  destruct (Route.online db) eqn:Hon; [|done].
  destruct (Route.limit_number limitParam) as [limit|?|?|] eqn:Hlimit; try done. cbn.
  intros [= <-]. cbn.
  destruct (last _) as [rl|] eqn:Hlast; [|done].
  intros [= <-].
  change (Some (Route.encodeCursor (Route.id rl)))
    with (Route.encodeCursor <$> Some (Route.id rl)).
  rewrite GET_answer, Hon, Hlimit. cbn -[selected]. intros [= <-]. cbn -[selected].
  change (filter (fun r => Route.id rl < Route.id r) (Route.dm_sicar db))
    with (selected db (Some (Route.id rl))).
  rewrite (page_split db c _ rl Hnd Hlast).
  rewrite <- map_app, take_take_drop. f_equal. f_equal. lia.
Qed.

End KeysetPages.

(** ** The whole table through the loader *)

Section Delivered.
Context `{Engine}.

Lemma addCollection_indexed_features mapReady fs s :
  Indexed s ->
  indexed_features (addCollection mapReady fs s)
  = indexed_features s ++ (Some <$> List.filter indexable fs).
Proof.
  intros Hs. pose proof (getSupercluster_same s) as Hg.
  destruct (addCollection_cases mapReady fs s)
    as [[Hnil [[_ ->] | [_ ->]]]
       | (Hne & table & new & sw & ne & Hlen & Hkept & Hother & ->)].
  - rewrite Hnil. cbn. by rewrite app_nil_r.
  - unfold indexed_features.
    rewrite (same_pointsRef _ _ Hg), (same_featureMapRef _ _ Hg), Hnil. cbn.
    by rewrite app_nil_r.
  - match goal with |- indexed_features (_ ?t) = _ =>
      assert (indexed_features ((if mapReady then renderClusters else id) t)
              = (fun p => table !! point_id p) <$> (pointsRef s ++ new)) as ->
    end.
    { unfold indexed_features. destruct mapReady.
      - match goal with |- context [renderClusters ?t] =>
          rewrite (same_pointsRef _ _ (renderClusters_same t)),
            (same_featureMapRef _ _ (renderClusters_same t)) end.
        by destruct (getSupercluster s).2.
      - by destruct (getSupercluster s).2. }
    rewrite fmap_app. f_equal.
    + unfold indexed_features. apply list_fmap_ext. intros i p Hp.
      apply list_elem_of_lookup_2 in Hp.
      destruct (Indexed_id_range s p Hs Hp) as [_ ?].
      apply Hother. lia.
    + apply list_eq. intros i. rewrite !list_lookup_fmap.
      destruct (List.filter indexable fs !! i) as [f|] eqn:Hf.
      * destruct (Hkept i f Hf) as (Ht & p & Hp & Hid & _).
        rewrite Hp. cbn. by rewrite Hid, Ht.
      * apply lookup_ge_None in Hf. rewrite <- Hlen in Hf.
        apply lookup_ge_None in Hf. by rewrite Hf.
Qed.




End Delivered.

(** ** The progress line *)

Section ProgressLine.
Context `{Engine}.

Lemma load_finally_control s :
  hasMore (load_finally s) = hasMore s
  /\ cancelledRef (load_finally s) = cancelledRef s
  /\ totalFetched (load_finally s) = totalFetched s
  /\ isLoading (load_finally s) = if cancelledRef s then isLoading s else false.
Proof. unfold load_finally. destruct s; cbn. by destruct cancelledRef0. Qed.

Lemma load_catch_control s :
  hasMore (load_catch s) = hasMore s
  /\ cancelledRef (load_catch s) = cancelledRef s
  /\ totalFetched (load_catch s) = totalFetched s
  /\ isLoading (load_catch s) = if cancelledRef s then isLoading s else false.
Proof.
  unfold load_catch, load_finally. destruct s; cbn.
  by destruct cancelledRef0, toastRef0.
Qed.

(** How one step moves the flags of the progress line. *)
Lemma step_flags mapReady ss e :
  let s := state ss in
  let ss' := step mapReady ss e in
  let s' := state ss' in
  (cancelledRef s' = cancelledRef s \/ cancelledRef s' = true)
  /\ (isLoading s' = isLoading s \/ cancelledRef s = false /\ isLoading s' = false)
  /\ (hasMore s' = hasMore s
      \/ hasMore s' = false /\ pc ss' = Finished
         /\ cancelledRef s' = cancelledRef s
         /\ isLoading s' = if cancelledRef s then isLoading s else false)
  /\ (pc ss = Finished ->
      hasMore s' = hasMore s /\ isLoading s' = isLoading s
      /\ totalFetched s' = totalFetched s).
Proof.
  pose (passive := fun s s' : State =>
          cancelledRef s' = cancelledRef s /\ isLoading s' = isLoading s
          /\ hasMore s' = hasMore s /\ totalFetched s' = totalFetched s).
  assert (forall s s', same_control s s' -> passive s s') as Hsame.
  { intros s s' []. by repeat split. }
  assert (forall s s' p p',
            passive s s' ->
            (cancelledRef s' = cancelledRef s \/ cancelledRef s' = true)
            /\ (isLoading s' = isLoading s \/ cancelledRef s = false /\ isLoading s' = false)
            /\ (hasMore s' = hasMore s
                \/ hasMore s' = false /\ p' = Finished
                   /\ cancelledRef s' = cancelledRef s
                   /\ isLoading s' = if cancelledRef s then isLoading s else false)
            /\ (p = Finished ->
                hasMore s' = hasMore s /\ isLoading s' = isLoading s
                /\ totalFetched s' = totalFetched s)) as Hpassive.
  { intros s s' p p' (?&?&?&?). split; [by left|]. split; [by left|].
    split; [by left|]. by intros _. }
  assert (forall s s' p,
            p <> Finished ->
            hasMore s' = hasMore s -> cancelledRef s' = cancelledRef s ->
            isLoading s' = (if cancelledRef s then isLoading s else false) ->
            (cancelledRef s' = cancelledRef s \/ cancelledRef s' = true)
            /\ (isLoading s' = isLoading s \/ cancelledRef s = false /\ isLoading s' = false)
            /\ (hasMore s' = hasMore s
                \/ hasMore s' = false /\ Finished = Finished
                   /\ cancelledRef s' = cancelledRef s
                   /\ isLoading s' = if cancelledRef s then isLoading s else false)
            /\ (p = Finished ->
                hasMore s' = hasMore s /\ isLoading s' = isLoading s
                /\ totalFetched s' = totalFetched s)) as Hend.
  { intros s s' p Hp Hm Hc Hl. split; [by left|]. split; [|split; [by left|done]].
    destruct (cancelledRef s); [by left|by right]. }
  destruct ss as [s p c]. cbn [state].
  destruct e as [[r|]| | | | | | view | | i].
  - destruct p; cbn; try (by apply Hpassive).
    destruct (negb (ok r)); cbn; [|by apply Hpassive].
    destruct (load_catch_control s) as (Hm & Hc & _ & Hl). by apply Hend.
  - destruct p; cbn; try (by apply Hpassive).
    destruct (load_catch_control s) as (Hm & Hc & _ & Hl). by apply Hend.
  - destruct p; cbn -[addCollection]; try (by apply Hpassive).
    destruct (json response) as [payload|]; cbn -[addCollection].
    + pose proof (addCollection_control mapReady (features payload) s) as [].
      destruct (negb (is_truthy (nextCursor payload))); cbn -[addCollection].
      * match goal with |- context [load_finally ?t] =>
          destruct (load_finally_control t) as (Hm & Hc & _ & Hl) end.
        cbn -[addCollection] in Hm, Hc, Hl.
        rewrite control_cancelledRef0 in Hc.
        rewrite control_cancelledRef0, control_isLoading0 in Hl.
        split; [by left|]. split.
        { destruct (cancelledRef s) eqn:E; [by left|by right]. }
        split; [|done]. right. by repeat split.
      * split; [by left|]. split; [by left|]. split; [by left|done].
    + destruct (load_catch_control s) as (Hm & Hc & _ & Hl). by apply Hend.
  - destruct p; cbn; try (by apply Hpassive).
    unfold load_iterate.
    destruct (cancelledRef s) eqn:Ecan; cbn.
    + destruct (load_finally_control s) as (Hm & Hc & Ht & Hl).
      rewrite Ecan in Hl, Hc. split; [by left|]. split; [by left|].
      split; [by left|done].
    + split; [by left|]. split; [by left|]. split; [by left|done].
  - destruct p; cbn;
      (split; [by right|split; [by left|split; [by left|by intros _]]]).
  - destruct p; cbn; by apply Hpassive.
  - destruct p; cbn; by apply Hpassive.
  - assert (same_control s
              (if mapReady
               then renderClusters (set_mapRef ((fun _ => view) <$> mapRef s) s)
               else set_mapRef ((fun _ => view) <$> mapRef s) s)) as Hv.
    { destruct mapReady; [|by split].
      apply (same_control_trans _ (set_mapRef ((fun _ => view) <$> mapRef s) s));
        [by split|]. apply same_data_control, renderClusters_same. }
    destruct p; cbn -[renderClusters]; by apply Hpassive, Hsame.
  - pose proof (same_data_control _ _ (renderClusters_same s)) as Hv.
    destruct p; cbn -[renderClusters]; by apply Hpassive, Hsame.
  - assert (same_control s
              match clusterLayerRef s with
              | Some layers =>
                  match layers !! i with
                  | Some (Marker _ _ _ (Some c0)) => (onClusterClick c0 s).2
                  | _ => s
                  end
              | None => s
              end) as Hv.
    { repeat case_match; try (by split).
      apply same_data_control, onClusterClick_same. }
    destruct p; cbn -[onClusterClick]; by apply Hpassive, Hsame.
Qed.

Lemma run_session_invariant (P : Session -> Prop) mapReady :
  (forall ss e, P ss -> P (step mapReady ss e)) ->
  forall events ss, P ss -> P (run mapReady events ss).
Proof.
  intros Hstep events. induction events as [|e events IH]; intros ss Hss; [done|].
  rewrite run_cons. by apply IH, Hstep.
Qed.

Lemma session_flags mapReady events s0 :
  let ss := run mapReady events (startSession s0) in
  (hasMore (state ss) = false -> cancelledRef (state ss) = false ->
   isLoading (state ss) = false)
  /\ (pc ss <> Finished -> hasMore (state ss) = true).
Proof.
  cbn zeta.
  apply (run_session_invariant
           (fun ss =>
              (hasMore (state ss) = false -> cancelledRef (state ss) = false ->
               isLoading (state ss) = false)
              /\ (pc ss <> Finished -> hasMore (state ss) = true))).
  - intros ss e [Hload Hmore].
    destruct (step_flags mapReady ss e) as (Hc & Hl & Hm & Hfin). cbn zeta in *.
    split.
    + intros Hm' Hc'.
      assert (cancelledRef (state ss) = false) as Hc0
        by (destruct Hc as [Hc|Hc]; congruence).
      destruct Hm as [Hm|(_ & _ & _ & Hl')].
      * destruct Hl as [Hl|[_ Hl]]; [|done]. rewrite Hl. apply Hload; congruence.
      * by rewrite Hl', Hc0.
    + intros Hpc.
      destruct Hm as [Hm|(_ & Hpc' & _)]; [|done].
      rewrite Hm. apply Hmore. intros Hpc0.
      by destruct (step_finished mapReady ss e Hpc0) as [? _].
  - by cbn.
Qed.


(** X13: while the effect has not been cleaned up, a visible progress
    panel never reads [Concluído]: in every state of a session that is not
    cancelled and shows the panel there is more to come, and the label is
    the [Carregando] one while loading and the [Preparando dados] one
    otherwise. *)
Theorem concluded_label_never_shown (toLocaleString : Z -> string)
  mapReady events s0 :
  let s := state (run mapReady events (startSession s0)) in
  cancelledRef s = false ->
  showProgress s = true ->
  hasMore s = true
  /\ progressLabel toLocaleString s
     = ((if isLoading s then "Carregando: " else "Preparando dados: ")
          ++ toLocaleString (totalFetched s) ++ " registros carregados")%string.
Proof.
  cbn zeta. intros Hc Hshow.
  destruct (session_flags mapReady events s0) as [Hload _]. cbn zeta in Hload.
  unfold showProgress, progressLabel in *.
  destruct (hasMore _) eqn:Hm.
  - split; [done|]. by destruct (isLoading _).
  - rewrite (Hload eq_refl Hc) in Hshow. done.
Qed.


Lemma step_toasts mapReady ss e :
  let ss' := step mapReady ss e in
  toasts (state ss') = toasts (state ss)
  \/ (toasts (state ss') = S (toasts (state ss))
      /\ pc ss <> Finished /\ pc ss' = Finished).
Proof.
  assert (forall s, toasts (load_catch s) = toasts s
                    \/ toasts (load_catch s) = S (toasts s)) as Hcatch.
  { intros s. destruct (load_catch_fields s) as (_&_&_&_&_&_&_&_&_&_&Ht).
    rewrite Ht. destruct (toastRef s); [right|left]; lia. }
  destruct ss as [s p c]. cbn [state].
  destruct e as [[r|]| | | | | | view | | i].
  - destruct p; cbn; try (by left). destruct (negb (ok r)); cbn; [|by left].
    destruct (Hcatch s) as [->| ->]; [by left|by right].
  - destruct p; cbn; try (by left).
    destruct (Hcatch s) as [->| ->]; [by left|by right].
  - destruct p; cbn -[addCollection]; try (by left).
    destruct (json response) as [payload|]; cbn -[addCollection].
    + left.
      rewrite <- (control_toasts _ _ (addCollection_control mapReady (features payload) s)).
      destruct (negb (is_truthy (nextCursor payload))); cbn -[addCollection];
        unfold load_finally; by repeat case_match.
    + destruct (Hcatch s) as [->| ->]; [by left|by right].
  - left. destruct p; cbn; try done.
    by destruct (load_iterate_fields c s) as (_&_&_&_&_&_&_&_&_&?&_).
  - left. by destruct p.
  - left. by destruct p.
  - left. by destruct p.
  - left. destruct p; cbn -[renderClusters]; destruct mapReady; try done;
      match goal with |- context [renderClusters ?t] =>
        by rewrite (same_toasts _ _ (renderClusters_same t)) end.
  - left. destruct p; cbn -[renderClusters];
      by rewrite (same_toasts _ _ (renderClusters_same s)).
  - left. destruct p; cbn -[onClusterClick]; repeat case_match; try done;
      match goal with
      | |- context [onClusterClick ?c ?s] =>
          by rewrite (same_toasts _ _ (onClusterClick_same c s))
      end.
Qed.

(** One run of the load effect by itself shows at most one error
    notification, and only as it ends. *)
Lemma one_run_one_toast mapReady events s0 :
  let ss := run mapReady events (startSession s0) in
  (pc ss <> Finished -> toasts (state ss) = toasts s0)
  /\ (toasts s0 <= toasts (state ss) <= S (toasts s0))%nat.
Proof.
  cbn zeta.
  apply (run_session_invariant
           (fun ss =>
              (pc ss <> Finished -> toasts (state ss) = toasts s0)
              /\ (toasts s0 <= toasts (state ss) <= S (toasts s0))%nat)).
  - intros ss e [Hrun Hle].
    destruct (step_toasts mapReady ss e) as [Ht|(Ht & Hpc & Hpc')]; cbn zeta in *.
    + rewrite Ht. split; [|done]. intros Hpc'. apply Hrun. intros Hpc.
      by destruct (step_finished mapReady ss e Hpc) as [? _].
    + rewrite Ht, (Hrun Hpc). split; [done|lia].
  - unfold startSession, load_iterate. cbn.
    unfold toasts, count_effects. cbn. rewrite List.filter_app, length_app. cbn.
    split; [intros _|]; lia.
Qed.

End ProgressLine.

(** ** The view that queues collections (src/unnamed/part_000) *)

Section Queued.
Context `{Engine}.
Import QueuedView.

Lemma draw_fields s c :
  geoJsonLayerRef (draw s c) = Some (default [] (geoJsonLayerRef s) ++ [c])
  /\ queueRef (draw s c) = queueRef s
  /\ (is_Some (mapRef (draw s c)) <-> is_Some (mapRef s))
  /\ fit_balance_queued (draw s c) = fit_balance_queued s.
Proof.
  unfold draw, fit_balance_queued, QueuedView.fits, QueuedView.log.
  destruct s as [? [m|] ? ? ? [|] ? ? ? ?]; cbn -[layer_bounds]; try done.
  match goal with |- context [layer_bounds ?l] =>
    destruct (layer_bounds l) as [[sw ne]|] end; [|done].
  destruct (fit_view (sw, ne)) as [ctr z]. cbn.
  split; [done|]. split; [done|]. split; [done|].
  rewrite List.filter_app, length_app. cbn. lia.
Qed.

Lemma fold_draw_fields cs :
  forall s,
    default [] (geoJsonLayerRef (fold_left draw cs s))
    = default [] (geoJsonLayerRef s) ++ cs
    /\ (cs <> [] -> is_Some (geoJsonLayerRef (fold_left draw cs s)))
    /\ (cs = [] -> fold_left draw cs s = s)
    /\ queueRef (fold_left draw cs s) = queueRef s
    /\ (is_Some (mapRef (fold_left draw cs s)) <-> is_Some (mapRef s))
    /\ fit_balance_queued (fold_left draw cs s) = fit_balance_queued s.
Proof.
  induction cs as [|c cs IH]; intros s.
  - cbn. rewrite app_nil_r. by repeat split.
  - cbn [fold_left].
    destruct (draw_fields s c) as (Hl & Hq & Hm & Hb).
    destruct (IH (draw s c)) as (Hl' & Hs' & _ & Hq' & Hm' & Hb').
    rewrite Hl', Hq', Hm', Hb', Hl, Hq, Hm, Hb. cbn. rewrite <- app_assoc.
    repeat split; try done; try tauto.
    intros _. destruct cs as [|c' cs]; [cbn; by rewrite Hl|by apply Hs'].
Qed.

Lemma Keeps_trans x y s1 s2 s3 :
  Keeps x s1 s2 -> Keeps y s2 s3 -> Keeps (x ++ y) s1 s3.
Proof.
  intros [Hb H12] [Hb' H23]. split; [congruence|]. intros Hd.
  destruct (H12 Hd) as (Hh & Hd2). destruct (H23 Hd2) as (Hh' & Hd3).
  rewrite Hh', Hh, app_assoc. by split.
Qed.

Lemma Keeps_fields s s' :
  geoJsonLayerRef s' = geoJsonLayerRef s -> queueRef s' = queueRef s ->
  mapRef s' = mapRef s -> fit_balance_queued s' = fit_balance_queued s ->
  Keeps [] s s'.
Proof.
  intros Hl Hq Hm Hb. split; [done|]. intros Hd. unfold held, Drained in *.
  rewrite Hl, Hq, Hm, app_nil_r. by split.
Qed.

Lemma ensureLayer_Keeps s : Keeps [] s (ensureLayer s).2.
Proof.
  unfold ensureLayer. destruct s as [? [m|] [l|] ? ? ? ? ? ? ?]; cbn;
    try (by apply Keeps_fields).
  split; [done|]. intros Hd. unfold held, Drained in *. cbn in *.
  rewrite app_nil_r. by split.
Qed.

Lemma applyQueue_fields s :
  held (applyQueue s) = held s ++ []
  /\ Drained (applyQueue s)
  /\ fit_balance_queued (applyQueue s) = fit_balance_queued s.
Proof.
  unfold applyQueue, ensureLayer.
  destruct (mapRef s) as [m|] eqn:Em.
  - assert (forall t, mapRef t = Some m ->
              held (fold_left draw (queueRef t) (set_queueRef [] t)) = held t ++ []
              /\ Drained (fold_left draw (queueRef t) (set_queueRef [] t))
              /\ fit_balance_queued (fold_left draw (queueRef t) (set_queueRef [] t))
                 = fit_balance_queued t) as Hfold.
    { intros t Ht.
      destruct (fold_draw_fields (queueRef t) (set_queueRef [] t))
        as (Hl & _ & _ & Hq & _ & Hb).
      unfold held, Drained. rewrite Hl, Hq, Hb, !app_nil_r. by destruct t. }
    destruct (geoJsonLayerRef s) as [l|] eqn:El; [by apply Hfold|].
    destruct (Hfold (set_geoJsonLayerRef (Some []) s)) as (Hh & Hd & Hb);
      [by destruct s|].
    replace (queueRef s) with (queueRef (set_geoJsonLayerRef (Some []) s))
      by (by destruct s).
    rewrite Hh, Hb. unfold held. destruct s; cbn in *. subst. by repeat split.
  - unfold held, Drained. rewrite Em, app_nil_r. repeat split. by intros [? ?].
Qed.

Lemma applyQueue_Keeps s : Keeps [] s (applyQueue s).
Proof.
  destruct (applyQueue_fields s) as (Hh & Hd & Hb). split; [done|]. by intros _.
Qed.

Lemma applyQueue_drains s : is_Some (mapRef s) -> queueRef (applyQueue s) = [].
Proof.
  intros [m Em]. unfold applyQueue, ensureLayer. rewrite Em.
  destruct (geoJsonLayerRef s) as [l|];
    match goal with |- context [fold_left draw ?cs ?t] =>
      destruct (fold_draw_fields cs t) as (_ & _ & _ & -> & _) end;
    by destruct s.
Qed.

Lemma addCollection_Keeps c s : Keeps [c] s (addCollection c s).
Proof.
  unfold addCollection, ensureLayer.
  destruct (mapRef s) as [m|] eqn:Em.
  - assert (forall t, mapRef t = mapRef s -> queueRef t = queueRef s ->
              default [] (geoJsonLayerRef t) = default [] (geoJsonLayerRef s) ->
              fit_balance_queued t = fit_balance_queued s ->
              Keeps [c] s (draw t c)) as Hdraw.
    { intros t Hm Hq Hl Hb. destruct (draw_fields t c) as (Hl' & Hq' & _ & Hb').
      split; [congruence|]. intros Hd.
      assert (queueRef s = []) as Hnil by (apply Hd; by rewrite Em).
      unfold held, Drained. rewrite Hl', Hq', Hq, Hl, Hnil, !app_nil_r. by split. }
    destruct (geoJsonLayerRef s) as [l|] eqn:El; cbv iota beta;
      [apply Hdraw; try done; by rewrite El|].
    apply Hdraw; destruct s; cbn in *; by subst.
  - cbv iota beta. split; [by destruct s|]. intros _. unfold held, Drained.
    destruct s; cbn in *. subst. rewrite app_assoc. split; [done|]. by intros [? ?].
Qed.

Lemma log_Keeps e s : is_fit e = false -> Keeps [] s (QueuedView.log e s).
Proof.
  intros He. apply Keeps_fields; try (by destruct s).
  unfold fit_balance_queued, QueuedView.fits, QueuedView.log. destruct s; cbn.
  rewrite List.filter_app, length_app. cbn. rewrite He. cbn. lia.
Qed.

Lemma load_finally_Keeps s : Keeps [] s (QueuedView.load_finally s).
Proof.
  unfold QueuedView.load_finally. destruct (negb (cancelledRef s)).
  - apply (Keeps_trans [] [] _ (applyQueue s)); [apply applyQueue_Keeps|].
    apply Keeps_fields; by destruct (applyQueue s).
  - by apply Keeps_fields.
Qed.

Lemma load_catch_Keeps s : Keeps [] s (QueuedView.load_catch s).
Proof.
  unfold QueuedView.load_catch.
  apply (Keeps_trans [] [] _ (QueuedView.log ConsoleError s)); [by apply log_Keeps|].
  destruct (toastRef _).
  - apply (Keeps_trans [] [] _ (QueuedView.log ToastShow (QueuedView.log ConsoleError s)));
      [by apply log_Keeps|apply load_finally_Keeps].
  - apply load_finally_Keeps.
Qed.

Lemma load_iterate_Keeps c s : Keeps [] s (state (QueuedView.load_iterate c s)).
Proof.
  unfold QueuedView.load_iterate. destruct (negb (cancelledRef s)); cbn.
  - by apply log_Keeps.
  - apply load_finally_Keeps.
Qed.

Lemma step_Keeps ss e :
  Keeps (arrival ss e) (state ss) (state (QueuedView.step ss e)).
Proof.
  destruct ss as [s p c]. cbn [state].
  destruct e as [[r|]| | | | instance | attached].
  - destruct p; cbn; try (by apply Keeps_fields).
    destruct (negb (ok r)); cbn; [apply load_catch_Keeps|by apply Keeps_fields].
  - destruct p; cbn; try (by apply Keeps_fields). apply load_catch_Keeps.
  - destruct p; cbn -[addCollection applyQueue QueuedView.load_finally];
      try (by apply Keeps_fields).
    destruct (json response) as [payload|];
      cbn -[addCollection applyQueue QueuedView.load_finally];
      [|apply load_catch_Keeps].
    set (s1 := addCollection (features payload) s).
    assert (Keeps [features payload] s s1) as H1 by apply addCollection_Keeps.
    set (s2 := set_totalFetched _ s1).
    assert (Keeps [] s1 s2) as H2 by (apply Keeps_fields; by destruct s1).
    destruct (negb (is_truthy (nextCursor payload)));
      cbn -[addCollection applyQueue QueuedView.load_finally].
    + change [features payload] with ([features payload] ++ [] ++ [] ++ [] ++ []).
      eapply Keeps_trans; [exact H1|]. eapply Keeps_trans; [exact H2|].
      eapply Keeps_trans; [|eapply Keeps_trans;
                             [apply applyQueue_Keeps|apply load_finally_Keeps]].
      apply Keeps_fields; by destruct s2.
    + change [features payload] with ([features payload] ++ [] ++ []).
      eapply Keeps_trans; [exact H1|]. eapply Keeps_trans; [exact H2|].
      apply applyQueue_Keeps.
  - destruct p; cbn; try (by apply Keeps_fields). apply load_iterate_Keeps.
  - destruct p; cbn; apply Keeps_fields; by destruct s.
  - assert (Keeps [] s (applyQueue (ensureLayer (set_mapRef instance s)).2)) as Hm.
    { set (s1 := set_mapRef instance s).
      assert (held s1 = held s /\ fit_balance_queued s1 = fit_balance_queued s)
        as [Hh1 Hb1] by (by destruct s).
      assert (held (ensureLayer s1).2 = held s1
              /\ fit_balance_queued (ensureLayer s1).2 = fit_balance_queued s1)
        as (Hh2 & Hb2).
      { unfold ensureLayer. destruct s1 as [? [m|] [l|] ? ? ? ? ? ? ?]; by cbn. }
      destruct (applyQueue_fields (ensureLayer s1).2) as (Hh3 & Hd3 & Hb3).
      split; [congruence|]. intros _. rewrite Hh3, Hh2, Hh1. by split. }
    destruct p; exact Hm.
  - destruct p; cbn; apply Keeps_fields; by destruct s.
Qed.

Lemma run_Keeps events :
  forall ss,
    Keeps (arrivals ss events) (state ss) (state (QueuedView.run events ss)).
Proof.
  induction events as [|e events IH]; intros ss.
  - by apply Keeps_fields.
  - cbn [arrivals]. change (QueuedView.run (e :: events) ss)
      with (QueuedView.run events (QueuedView.step ss e)).
    eapply Keeps_trans; [apply step_Keeps|apply IH].
Qed.

Lemma startSession_Keeps s0 :
  held (state (QueuedView.startSession s0)) = held s0
  /\ mapRef (state (QueuedView.startSession s0)) = mapRef s0
  /\ queueRef (state (QueuedView.startSession s0)) = queueRef s0
  /\ fit_balance_queued (state (QueuedView.startSession s0)) = S (QueuedView.fits s0).
Proof.
  unfold QueuedView.startSession, QueuedView.load_iterate, held, fit_balance_queued,
    QueuedView.fits, QueuedView.log.
  destruct s0; cbn. rewrite List.filter_app, length_app. cbn. repeat split. lia.
Qed.

(** X15: the view that queues collections loses none, repeats none
    and keeps them in the order they arrived: started from a state in
    which nothing is queued while a map is attached, after any events the
    collections on the layer followed by those in the queue are those held
    at the start followed by every collection a page delivered, in order;
    and whenever a map is attached the queue is empty. *)
Theorem queued_view_keeps_collections events s0 :
  (is_Some (QueuedView.mapRef s0) -> QueuedView.queueRef s0 = []) ->
  let ss := QueuedView.startSession s0 in
  let s := QueuedView.state (QueuedView.run events ss) in
  held s = held s0 ++ arrivals ss events
  /\ (is_Some (QueuedView.mapRef s) -> QueuedView.queueRef s = []).
Proof.
  intros Hd. cbn zeta.
  destruct (startSession_Keeps s0) as (Hh & Hm & Hq & _).
  destruct (run_Keeps events (QueuedView.startSession s0)) as [_ Hk].
  destruct Hk as [Hh' Hd']; [unfold Drained; by rewrite Hm, Hq|].
  by rewrite Hh', Hh.
Qed.

(** X16: the view that queues collections fits the map at most once
    in a session: counted from the start of the session there has been one
    fit when the fit flag is down and none while it is up, whatever the
    events. *)
Theorem queued_view_fits_once events s0 :
  let s := QueuedView.state (QueuedView.run events (QueuedView.startSession s0)) in
  QueuedView.fits s
  = (QueuedView.fits s0 + if QueuedView.shouldFitBoundsRef s then 0 else 1)%nat.
Proof.
  cbn zeta.
  destruct (startSession_Keeps s0) as (_ & _ & _ & Hb).
  destruct (run_Keeps events (QueuedView.startSession s0)) as [Hb' _].
  rewrite Hb in Hb'. unfold fit_balance_queued in Hb'.
  destruct (shouldFitBoundsRef _); lia.
Qed.

End Queued.

(** ** The database access layer *)

Section Database.

(** X17: [withClient] hands the work one client and takes it back
    whether the work resolves or rejects: the promise settles as the
    work's promise does, or as the rejected [connect] does, and the clients
    on lease afterwards are those on lease before. *)
Theorem withClient_scoped {T : Type} (up : bool) (fn : nat -> Db.Settled T) p :
  Db.Fresh p ->
  let result := Db.withClient up fn p in
  Db.leased result.2 = Db.leased p
  /\ Db.Fresh result.2
  /\ result.1 = (if up then fn (Db.made p) else Db.Rejected "connect").
Proof.
  intros Hp. unfold Db.withClient, Db.connect, Db.release.
  destruct up; cbn; [|done].
  assert (List.filter (fun c => negb (c =? Db.made p)%nat) (Db.leased p) = Db.leased p)
    as Hkeep.
  { unfold Db.Fresh in Hp. induction (Db.leased p) as [|c l IH]; [done|].
    cbn. assert (c < Db.made p)%nat as Hc by (apply Hp; left).
    destruct (c =? Db.made p)%nat eqn:E; [apply Nat.eqb_eq in E; lia|].
    cbn. f_equal. apply IH. intros x Hx. apply Hp. by right. }
  rewrite Nat.eqb_refl. cbn. rewrite Hkeep. split; [done|]. split; [|done].
  intros c Hc. unfold Db.Fresh in Hp. cbn in *.
  rewrite ?Nat.eqb_refl in Hc. cbn in Hc. rewrite ?Hkeep in Hc.
  specialize (Hp c Hc). lia.
Qed.

End Database.

(** ** The size of the feature table, and pages of any size *)

Section Growth.
Context `{Engine}.

Lemma Indexed_next s :
  Indexed s -> nextFeatureIdRef s = Z.of_nat (length (pointsRef s)) + 1.
Proof.
  intros Hs. pose proof (next_positive s Hs).
  pose proof (f_equal length (ids_sequential s Hs)) as Hlen.
  rewrite length_fmap, length_seqZ in Hlen. lia.
Qed.

Lemma Indexed_lookup_id s i p :
  Indexed s -> pointsRef s !! i = Some p -> point_id p = Z.of_nat i + 1.
Proof.
  intros Hs Hp.
  assert ((point_id <$> pointsRef s) !! i = Some (point_id p)) as Hi
    by (by rewrite list_lookup_fmap, Hp).
  rewrite (ids_sequential s Hs) in Hi. apply lookup_seqZ in Hi. lia.
Qed.

Lemma Indexed_table_keys s k :
  Indexed s ->
  is_Some (featureMapRef s !! k) <-> 1 <= k <= Z.of_nat (length (pointsRef s)).
Proof.
  intros Hs. pose proof (Indexed_next s Hs) as Hn. split.
  - intros [f Hf]. pose proof (table_assigned s Hs k f Hf). lia.
  - intros Hk.
    destruct (lookup_lt_is_Some_2 (pointsRef s) (Z.to_nat (k - 1))) as [p Hp]; [lia|].
    pose proof (Indexed_lookup_id s _ p Hs Hp) as Hid.
    destruct (ids_resolve s Hs p) as (f & Hf & _);
      [by apply list_elem_of_lookup_2 in Hp|].
    exists f. rewrite <- Hf. f_equal. lia.
Qed.

(** X18: in every state of a session the feature table holds one
    entry for each point of the buffer and no other: its keys are the ids
    1 to n of the n buffered points, its size is n, and the next id to
    hand out is n + 1. *)
Theorem table_matches_buffer mapReady events s0 :
  let s := state (run mapReady events (startSession s0)) in
  let n := length (pointsRef s) in
  size (featureMapRef s) = n
  /\ nextFeatureIdRef s = Z.of_nat n + 1
  /\ forall k, is_Some (featureMapRef s !! k) <-> 1 <= k <= Z.of_nat n.
Proof.
  cbn zeta. pose proof (session_Indexed mapReady events s0) as Hs.
  set (s := state (run mapReady events (startSession s0))) in *.
  split; [|split; [by apply Indexed_next|intros k; by apply Indexed_table_keys]].
  apply Nat.le_antisymm; [|by apply Indexed_buffer_le_table].
  rewrite <- size_dom.
  transitivity (size (list_to_set (C := gset Z)
                        (seqZ 1 (Z.of_nat (length (pointsRef s)))))).
  - apply subseteq_size. intros k Hk%elem_of_dom.
    apply elem_of_list_to_set, elem_of_seqZ.
    apply (Indexed_table_keys s k Hs) in Hk. lia.
  - rewrite size_list_to_set by apply NoDup_seqZ. rewrite length_seqZ. lia.
Qed.

Lemma Indexed_determined a b :
  Indexed a -> Indexed b ->
  indexed_features a = indexed_features b ->
  pointsRef a = pointsRef b /\ featureMapRef a = featureMapRef b.
Proof.
  intros Ha Hb Hf.
  assert (length (pointsRef a) = length (pointsRef b)) as Hlen.
  { apply (f_equal length) in Hf. unfold indexed_features in Hf.
    by rewrite !length_fmap in Hf. }
  assert (forall i pa pb,
            pointsRef a !! i = Some pa -> pointsRef b !! i = Some pb ->
            pa = pb /\ featureMapRef a !! point_id pa = featureMapRef b !! point_id pa)
    as Hpoint.
  { intros i pa pb Hpa Hpb.
    pose proof (Indexed_lookup_id a i pa Ha Hpa) as Hia.
    pose proof (Indexed_lookup_id b i pb Hb Hpb) as Hib.
    assert (featureMapRef a !! point_id pa = featureMapRef b !! point_id pb) as Ht.
    { apply (f_equal (fun l => l !! i)) in Hf. unfold indexed_features in Hf.
      rewrite !list_lookup_fmap, Hpa, Hpb in Hf. by injection Hf. }
    destruct (ids_resolve a Ha pa) as (fa & Hfa & Hca);
      [by apply list_elem_of_lookup_2 in Hpa|].
    destruct (ids_resolve b Hb pb) as (fb & Hfb & Hcb);
      [by apply list_elem_of_lookup_2 in Hpb|].
    assert (fa = fb) as <- by congruence.
    assert (center_of pa = center_of pb) as Hc by congruence.
    split; [|by rewrite Ht, Hia, Hib].
    destruct pa as [[xa ya] ida], pb as [[xb yb] idb]. cbn in *.
    injection Hc as ? ?. subst. f_equal; lia. }
  split.
  - apply list_eq. intros i.
    destruct (pointsRef a !! i) as [pa|] eqn:Hpa.
    + destruct (lookup_lt_is_Some_2 (pointsRef b) i) as [pb Hpb].
      { rewrite <- Hlen. by apply lookup_lt_Some in Hpa. }
      destruct (Hpoint i pa pb Hpa Hpb) as [-> _]. by rewrite Hpb.
    + symmetry. apply lookup_ge_None. rewrite <- Hlen. by apply lookup_ge_None.
  - apply map_eq. intros k.
    destruct (decide (1 <= k <= Z.of_nat (length (pointsRef a)))) as [Hk|Hk].
    + destruct (lookup_lt_is_Some_2 (pointsRef a) (Z.to_nat (k - 1))) as [pa Hpa]; [lia|].
      destruct (lookup_lt_is_Some_2 (pointsRef b) (Z.to_nat (k - 1))) as [pb Hpb]; [lia|].
      destruct (Hpoint _ pa pb Hpa Hpb) as [_ Ht].
      pose proof (Indexed_lookup_id a _ pa Ha Hpa) as Hia.
      replace k with (point_id pa) by lia. done.
    + assert (featureMapRef a !! k = None) as ->.
      { apply eq_None_not_Some. intros Hs. by apply (Indexed_table_keys a k Ha) in Hs. }
      symmetry. apply eq_None_not_Some. intros Hs.
      apply (Indexed_table_keys b k Hb) in Hs. lia.
Qed.

(** X19: where the pages are cut does not matter to the index: from
    a consistent state, indexing a batch in one go, or its front part and
    then the rest, gives the same points buffer, the same feature table and
    the same next id. *)
Theorem page_boundaries_do_not_matter mapReady fs1 fs2 s :
  Indexed s ->
  let one := addCollection mapReady (fs1 ++ fs2) s in
  let two := addCollection mapReady fs2 (addCollection mapReady fs1 s) in
  pointsRef one = pointsRef two
  /\ featureMapRef one = featureMapRef two
  /\ nextFeatureIdRef one = nextFeatureIdRef two.
Proof.
  intros Hs. cbn zeta.
  pose proof (addCollection_Indexed mapReady (fs1 ++ fs2) s Hs) as H1.
  pose proof (addCollection_Indexed mapReady fs1 s Hs) as Hmid.
  pose proof (addCollection_Indexed mapReady fs2 _ Hmid) as H2.
  destruct (Indexed_determined _ _ H1 H2) as [Hp Ht].
  { rewrite !addCollection_indexed_features by done.
    by rewrite List.filter_app, fmap_app, app_assoc. }
  split; [done|]. split; [done|].
  by rewrite (Indexed_next _ H1), (Indexed_next _ H2), Hp.
Qed.

(** X20: a render pass without a map only makes sure the session has
    its cluster index: it draws nothing, fits nothing and logs nothing. *)
Theorem render_without_map s :
  mapRef s = None ->
  renderClusters s = (getSupercluster s).2
  /\ clusterLayerRef (renderClusters s) = clusterLayerRef s
  /\ effects (renderClusters s) = effects s
  /\ is_Some (superclusterRef (renderClusters s)).
Proof.
  intros Hm.
  assert (renderClusters s = (getSupercluster s).2) as ->.
  { unfold renderClusters, ensureClusterLayer. rewrite Hm.
    by destruct (getSupercluster s). }
  split; [done|]. split; [|split; [|apply getSupercluster_ref]];
    unfold getSupercluster; by destruct (superclusterRef s), s.
Qed.

End Growth.

(* ===================================================================== *)
(** * The further properties at concrete inputs                             *)
(* ===================================================================== *)

Lemma sample_db_ids : NoDup (Route.id <$> Route.dm_sicar sample_db).
Proof. apply (bool_decide_unpack _). vm_compute. reflexivity. Defined.


Lemma GET_page_in_order_witness :
  let page :=
    {| Route.features :=
         map Route.buildFeature (take 2 (Route.order_by_id (Route.dm_sicar sample_db)));
       Route.nextCursor := Some "Mg"%string |} in
  Route.body (Route.GET sample_db (Some "2"%string) (Route.encodeCursor <$> None))
  = Route.JsonPage page
  /\ StronglySorted Z.le (feature_id <$> Route.features page)
  /\ (forall f, f ∈ Route.features page ->
        exists r, r ∈ Route.dm_sicar sample_db /\ f = Route.buildFeature r
                  /\ forall k, @None Z = Some k -> k < Route.id r)
  /\ (forall r, r ∈ selected sample_db None ->
        Route.buildFeature r ∈ Route.features page
        \/ forall f, f ∈ Route.features page -> feature_id f <= Route.id r)
  /\ Route.nextCursor page
     = (fun f => Route.encodeCursor (feature_id f)) <$> last (Route.features page)
  /\ (forall t, Route.nextCursor page = Some t ->
        exists f, last (Route.features page) = Some f
                  /\ Route.decodeCursor t = Route.Num (feature_id f)).
Proof.
  intros page.
  assert (Route.body (Route.GET sample_db (Some "2"%string) (Route.encodeCursor <$> None))
          = Route.JsonPage page) as Hpage by (vm_compute; reflexivity).
  split; [exact Hpage|].
  exact (GET_page_in_order sample_db (Some "2"%string) None page Hpage).
Defined.

Lemma GET_pages_chain_witness :
  let page :=
    {| Route.features :=
         map Route.buildFeature (take 2 (Route.order_by_id (Route.dm_sicar sample_db)));
       Route.nextCursor := Some "Mg"%string |} in
  let page' :=
    {| Route.features :=
         map Route.buildFeature (drop 2 (Route.order_by_id (Route.dm_sicar sample_db)));
       Route.nextCursor := Some "Mw"%string |} in
  NoDup (Route.id <$> Route.dm_sicar sample_db)
  /\ Route.body (Route.GET sample_db (Some "2"%string) (Route.encodeCursor <$> None))
     = Route.JsonPage page
  /\ Route.nextCursor page = Some "Mg"%string
  /\ Route.body (Route.GET sample_db (Some "2"%string) (Some "Mg"%string))
     = Route.JsonPage page'
  /\ Route.features page ++ Route.features page'
     = Route.buildFeature
         <$> take (2 * Z.to_nat (limit_of (Some "2"%string)))
               (Route.order_by_id (selected sample_db None)).
Proof.
  intros page page'.
  assert (Route.body (Route.GET sample_db (Some "2"%string) (Route.encodeCursor <$> None))
          = Route.JsonPage page) as Hpage by (vm_compute; reflexivity).
  assert (Route.body (Route.GET sample_db (Some "2"%string) (Some "Mg"%string))
          = Route.JsonPage page') as Hpage' by (vm_compute; reflexivity).
  split; [exact sample_db_ids|]. split; [exact Hpage|]. split; [reflexivity|].
  split; [exact Hpage'|].
  exact (GET_pages_chain sample_db (Some "2"%string) None page "Mg"%string page'
           sample_db_ids Hpage eq_refl Hpage').
Defined.

Lemma concluded_label_never_shown_witness :
  let s := state (run (H := planar_engine) false [] (startSession mounted)) in
  cancelledRef s = false
  /\ showProgress s = true
  /\ hasMore s = true
  /\ progressLabel Route.String_of_number s
     = ((if isLoading s then "Carregando: " else "Preparando dados: ")
          ++ Route.String_of_number (totalFetched s) ++ " registros carregados")%string.
Proof.
  intros s. split; [reflexivity|]. split; [reflexivity|].
  exact (concluded_label_never_shown (H := planar_engine) Route.String_of_number
           false [] mounted eq_refl eq_refl).
Defined.


Lemma queued_view_keeps_collections_witness :
  let page (fs : list Feature) (next : option string) :=
    {| ok := true; status := 200;
       json := Some {| features := fs; nextCursor := next |} |} in
  let events :=
    [QueuedView.FetchSettled (Some (page [sample_point 1 1 10] (Some "A"%string)));
     QueuedView.JsonSettled;
     QueuedView.MapRefSet (Some {| center := INITIAL_VIEW; zoom := INITIAL_ZOOM |});
     QueuedView.DelayElapsed;
     QueuedView.FetchSettled (Some (page [sample_point 2 2 11] None));
     QueuedView.JsonSettled] in
  let ss := QueuedView.startSession (H := planar_engine) QueuedView.mounted in
  let s := QueuedView.state (QueuedView.run (H := planar_engine) events ss) in
  (is_Some (QueuedView.mapRef QueuedView.mounted)
   -> QueuedView.queueRef QueuedView.mounted = [])
  /\ QueuedView.held s
     = QueuedView.held QueuedView.mounted
       ++ QueuedView.arrivals (H := planar_engine) ss events
  /\ (is_Some (QueuedView.mapRef s) -> QueuedView.queueRef s = []).
Proof.
  intros page events ss s.
  split; [intros _; reflexivity|].
  exact (queued_view_keeps_collections (H := planar_engine) events QueuedView.mounted
           (fun _ => eq_refl)).
Defined.

Lemma withClient_scoped_witness :
  let p := {| Db.leased := [0; 1]%nat; Db.made := 2 |} in
  let result := Db.withClient true (fun client => Db.Resolved (Z.of_nat client)) p in
  Db.Fresh p
  /\ Db.leased result.2 = Db.leased p
  /\ Db.Fresh result.2
  /\ result.1 = Db.Resolved 2.
Proof.
  intros p result.
  assert (Db.Fresh p) as Hp.
  { intros c Hc. apply list_elem_of_In in Hc. cbn in *. lia. }
  split; [exact Hp|].
  exact (withClient_scoped true (fun client => Db.Resolved (Z.of_nat client)) p Hp).
Defined.

Lemma page_boundaries_do_not_matter_witness :
  let s := state (startSession mounted) in
  let fs1 := [sample_point 1 1 10] in
  let fs2 := [sample_empty 11; sample_point 2 2 12] in
  let one := addCollection (H := planar_engine) false (fs1 ++ fs2) s in
  let two := addCollection (H := planar_engine) false fs2
               (addCollection (H := planar_engine) false fs1 s) in
  Indexed s
  /\ pointsRef one = pointsRef two
  /\ featureMapRef one = featureMapRef two
  /\ nextFeatureIdRef one = nextFeatureIdRef two.
Proof.
  intros s fs1 fs2 one two.
  assert (Indexed s) as Hs by apply startSession_Indexed.
  split; [exact Hs|].
  exact (page_boundaries_do_not_matter (H := planar_engine) false fs1 fs2 s Hs).
Defined.

Lemma render_without_map_witness :
  mapRef mounted = None
  /\ renderClusters (H := planar_engine) mounted
     = (getSupercluster mounted).2
  /\ clusterLayerRef (renderClusters (H := planar_engine) mounted)
     = clusterLayerRef mounted
  /\ effects (renderClusters (H := planar_engine) mounted) = effects mounted
  /\ is_Some (superclusterRef (renderClusters (H := planar_engine) mounted)).
Proof.
  split; [reflexivity|].
  exact (render_without_map (H := planar_engine) mounted eq_refl).
Defined.


(* ===================================================================== *)
(** ** The render pass when the listener runs inside [fitBounds]            *)
(* ===================================================================== *)

Section SyncFit.
Context `{Engine}.

(** With no event inside [fitBounds] the pass is [renderClusters]. *)
Lemma renderClusters_sync_quiet stack s :
  renderClusters_sync (S stack) 0 s = (Normal, renderClusters s).
Proof.
  destruct s. unfold renderClusters. cbn [renderClusters_sync fire].
  unfold ensureClusterLayer, getSupercluster.
  repeat first [ progress cbn -[getClusters Nat.ltb Nat.eqb fold_left fitBounds]
               | case_match; simplify_eq/= ]; reflexivity.
Qed.

(** One pass that finds the flag up, the map attached, points in the
    buffer and valid bounds: the view is fitted, and the listeners run on
    a state that still has the flag up. *)
Lemma renderClusters_sync_fit stack inside s m sw ne :
  mapRef s = Some m ->
  pointsRef s <> [] ->
  boundsRef s = Some (Some (sw, ne)) ->
  shouldFitBoundsRef s = true ->
  exists t,
    is_Some (mapRef t)
    /\ pointsRef t = pointsRef s
    /\ boundsRef t = boundsRef s
    /\ shouldFitBoundsRef t = true
    /\ effects t = effects s ++ [FitBounds sw ne]
    /\ renderClusters_sync (S stack) inside s
       = match fire (renderClusters_sync stack inside) inside t with
         | (Normal, u) => (Normal, set_shouldFitBoundsRef false u)
         | (Throw, u) => (Throw, u)
         end.
Proof.
  intros Hmap Hpts Hbounds Hflag.
  destruct s. cbn in Hmap, Hpts, Hbounds, Hflag. subst.
  destruct pointsRef0 as [|p0 pts]; [done|].
  cbn [renderClusters_sync].
  unfold ensureClusterLayer, getSupercluster, fitBounds, log.
  destruct clusterLayerRef0, superclusterRef0;
    cbn -[getClusters fire renderClusters_sync];
    match goal with
    | |- context [fold_left (drawCluster ?a) ?cs ?t] =>
        let L := fresh "L" in
        destruct (fold_drawCluster_layers a cs t) as [L ->]
    end;
    cbn -[getClusters fire renderClusters_sync];
    destruct (fit_view (sw, ne));
    (eexists; split; [|split; [|split; [|split; [|split]]]];
       [ | | | | | reflexivity ]; [cbn; by eexists | reflexivity ..]).
Qed.

(** C7 (what the code does): a render pass finds the flag up, the map
    attached, points in the buffer and valid bounds, and Leaflet fires
    [moveend] before [fitBounds] returns.  The pass the event starts finds
    the flag still up and fits again, and so does the next: the view is
    fitted once for every nested call the engine allows, the pass ends
    with [RangeError], and the flag is still up. *)
Theorem fit_repeats_inside_fitBounds stack inside s m sw ne :
  (0 < inside)%nat ->
  mapRef s = Some m ->
  pointsRef s <> [] ->
  boundsRef s = Some (Some (sw, ne)) ->
  shouldFitBoundsRef s = true ->
  let result := renderClusters_sync stack inside s in
  result.1 = Throw
  /\ effects result.2 = effects s ++ replicate stack (FitBounds sw ne)
  /\ fits result.2 = (fits s + stack)%nat
  /\ shouldFitBoundsRef result.2 = true.
Proof.
  intros Hinside. revert s m.
  induction stack as [|stack IH]; intros s m Hmap Hpts Hbounds Hflag; cbn zeta.
  { cbn. rewrite app_nil_r. repeat split; [lia|done]. }
  destruct (renderClusters_sync_fit stack inside s m sw ne Hmap Hpts Hbounds Hflag)
    as (t & [m' Hm'] & Hp & Hb & Hf & He & ->).
  destruct inside as [|inside]; [lia|]. cbn [fire].
  destruct (IH t m' Hm' ltac:(congruence) ltac:(congruence) Hf)
    as (Hthrow & Heff & Hfits & Hup).
  destruct (renderClusters_sync stack (S inside) t) as [[|] u]; [done|].
  cbn [fst snd] in *.
  split; [done|]. split; [|split; [|done]].
  - rewrite Heff, He, <- app_assoc. done.
  - rewrite Hfits. unfold fits, count_effects. rewrite He, List.filter_app, length_app.
    cbn. lia.
Qed.

End SyncFit.

(* ===================================================================== *)
(** ** The component over its renders                                       *)
(* ===================================================================== *)

Import Component.

Section ComponentFacts.
Context `{Engine}.

Lemma crun_cons move moves v : crun (move :: moves) v = crun moves (cstep v move).
Proof. reflexivity. Qed.

Lemma crun_app moves more v : crun (moves ++ more) v = crun more (crun moves v).
Proof. apply fold_left_app. Qed.

Lemma crun_invariant (P : View -> Prop) :
  (forall v move, P v -> P (cstep v move)) ->
  forall moves v, P v -> P (crun moves v).
Proof.
  intros Hstep moves. induction moves as [|move moves IH]; intros v Hv; [done|].
  rewrite crun_cons. by apply IH, Hstep.
Qed.

(** How many runs have ended, when one of them moves on. *)
Lemma finished_insert (ls : list Loop) i l l' :
  ls !! i = Some l ->
  (length (List.filter is_finished (<[i := l']> ls))
   + (if is_finished l then 1 else 0)
   = length (List.filter is_finished ls) + (if is_finished l' then 1 else 0))%nat.
Proof.
  intros Hi.
  rewrite insert_take_drop by (by apply lookup_lt_Some in Hi).
  rewrite <- (take_drop_middle ls i l Hi) at 3.
  rewrite !List.filter_app, !length_app. cbn [List.filter].
  destruct (is_finished l), (is_finished l'); cbn [length]; lia.
Qed.

Lemma resume_loops i e v l :
  loops v !! i = Some l ->
  let ss := step (closure_mapReady l) (session_of v l) e in
  shared (resume i e v) = state ss
  /\ loops (resume i e v)
     = <[i := {| closure_mapReady := closure_mapReady l;
                 loop_pc := pc ss; loop_cursor := cursor ss |}]> (loops v)
  /\ mapReady (resume i e v) = mapReady v
  /\ rendered_mapReady (resume i e v) = rendered_mapReady v
  /\ unmounted (resume i e v) = unmounted v.
Proof. intros Hl. unfold resume. rewrite Hl. done. Qed.

(** A view that is unmounted and cancelled stays so, and fetches
    nothing. *)
Lemma cstep_unmounted v move :
  unmounted v = true ->
  cancelledRef (shared v) = true ->
  unmounted (cstep v move) = true
  /\ cancelledRef (shared (cstep v move)) = true
  /\ fetches (shared (cstep v move)) = fetches (shared v)
  /\ length (loops (cstep v move)) = length (loops v).
Proof.
  intros Hu Hc. destruct move as [i e|e| |]; cbn [cstep].
  - destruct (is_settlement e); [|done].
    destruct (loops v !! i) as [l|] eqn:Hl; [|unfold resume; by rewrite Hl].
    destruct (resume_loops i e v l Hl) as (-> & -> & _ & _ & ->).
    destruct (step_cancelled (closure_mapReady l) (session_of v l) e Hc) as [-> ->].
    by rewrite length_insert.
  - unfold happen. by rewrite Hu.
  - unfold render. rewrite Hu, andb_false_r. done.
  - done.
Qed.

(** X5: once the view is unmounted, whatever happens next starts no
    network call and no further run of the load effect: the number of
    fetches stays what it was at the unmount, for every sequence of moves
    before and after it. *)
Theorem no_fetch_after_unmount s0 before after :
  let at_unmount := crun (before ++ [Unmount]) (mount s0) in
  let later := crun after at_unmount in
  unmounted later = true
  /\ cancelledRef (shared later) = true
  /\ fetches (shared later) = fetches (shared (crun before (mount s0)))
  /\ length (loops later) = length (loops (crun before (mount s0))).
Proof.
  cbn zeta. rewrite crun_app.
  set (v := crun before (mount s0)).
  change (crun [Unmount] v) with (unmount v).
  change (fetches (shared v)) with (fetches (shared (unmount v))).
  change (length (loops v)) with (length (loops (unmount v))).
  assert (unmounted (unmount v) = true /\ cancelledRef (shared (unmount v)) = true)
    as [Hu Hc] by done.
  revert Hu Hc. generalize (unmount v). clear v. intros v.
  induction after as [|move after IH] in v |- *; intros Hu Hc; [done|].
  rewrite crun_cons.
  destruct (cstep_unmounted v move Hu Hc) as (Hu' & Hc' & <- & <-).
  by apply IH.
Qed.

Lemma startSession_toasts s :
  toasts (state (startSession s)) = toasts s
  /\ pc (startSession s) <> Finished.
Proof.
  unfold startSession, load_iterate. cbn. split; [|done].
  unfold toasts, count_effects. cbn. rewrite List.filter_app, length_app. cbn. lia.
Qed.

(** What a move does to the notifications and to the runs. *)
Lemma cstep_toasts v move :
  let v' := cstep v move in
  length (loops v) = (if rendered_mapReady v then 2 else 1)%nat ->
  length (loops v') = (if rendered_mapReady v' then 2 else 1)%nat
  /\ (toasts (shared v) <= toasts (shared v'))%nat
  /\ (toasts (shared v') + finished v <= toasts (shared v) + finished v')%nat.
Proof.
  cbn zeta. intros Hlen. destruct move as [i e|e| |]; cbn [cstep].
  - destruct (is_settlement e); [|by repeat split].
    destruct (loops v !! i) as [l|] eqn:Hl;
      [|unfold resume; rewrite Hl; by repeat split].
    destruct (resume_loops i e v l Hl) as (Hs & Hloops & _ & Hr & _).
    unfold finished. rewrite Hs, Hloops, Hr, length_insert. split; [done|].
    pose proof (finished_insert (loops v) i l
                  {| closure_mapReady := closure_mapReady l;
                     loop_pc := pc (step (closure_mapReady l) (session_of v l) e);
                     loop_cursor := cursor (step (closure_mapReady l) (session_of v l) e) |}
                  Hl) as Hcount.
    unfold is_finished at 2 4 in Hcount. cbn [loop_pc] in Hcount.
    set (k := length (List.filter is_finished (<[i := _]> (loops v)))) in *.
    destruct (step_toasts (closure_mapReady l) (session_of v l) e)
      as [Ht|(Ht & Hpc & Hpc')]; cbn zeta in Ht; cbn [session_of state pc] in *.
    + rewrite Ht. split; [done|].
      destruct (loop_pc l) eqn:Epc; try lia.
      destruct (step_finished (closure_mapReady l) (session_of v l) e Epc) as [Hfin _].
      rewrite Hfin in Hcount. lia.
    + rewrite Ht, Hpc' in *. split; [lia|].
      destruct (loop_pc l); [lia..|done].
  - unfold happen.
    destruct (unmounted v || is_settlement e); [by repeat split|].
    assert (toasts (state (step (listening v)
                             {| state := shared v; pc := Finished; cursor := None |} e))
            = toasts (shared v)) as Ht
      by (by destruct (step_finished (listening v)
                         {| state := shared v; pc := Finished; cursor := None |} e eq_refl)
            as (_ & _ & ? & _)).
    destruct e; cbn [shared loops rendered_mapReady finished]; unfold finished;
      cbn [loops]; rewrite ?Ht; by repeat split.
  - unfold render.
    destruct (mapReady v && negb (rendered_mapReady v) && negb (unmounted v)) eqn:E;
      [|by repeat split].
    apply andb_prop in E as [[_ Hr%negb_true_iff]%andb_prop _].
    rewrite Hr in Hlen. unfold finished. cbn [shared loops rendered_mapReady].
    rewrite length_app, Hlen. split; [done|].
    rewrite (same_toasts _ _ (renderClusters_same _)).
    destruct (startSession_toasts (set_cancelledRef true (shared v))) as [-> Hpc].
    rewrite List.filter_app, length_app.
    change (toasts (set_cancelledRef true (shared v))) with (toasts (shared v)).
    lia.
  - unfold finished. cbn. by repeat split.
Qed.

(** X22: every run of the load effect shows at most one error
    notification, and only as it ends; the component starts at most two
    runs.  So at no time have more notifications been shown than runs
    have ended, and never more than two. *)
Theorem one_toast_for_each_run s0 moves :
  let v := crun moves (mount s0) in
  (toasts s0 <= toasts (shared v) <= toasts s0 + finished v)%nat
  /\ (finished v <= length (loops v) <= 2)%nat.
Proof.
  cbn zeta.
  assert (let v := crun moves (mount s0) in
          length (loops v) = (if rendered_mapReady v then 2 else 1)%nat
          /\ (toasts s0 <= toasts (shared v) <= toasts s0 + finished v)%nat) as [Hlen Ht].
  { apply (crun_invariant
             (fun v => length (loops v) = (if rendered_mapReady v then 2 else 1)%nat
                       /\ (toasts s0 <= toasts (shared v)
                           <= toasts s0 + finished v)%nat)).
    - intros v move [Hlen Ht].
      destruct (cstep_toasts v move Hlen) as (Hlen' & Hle & Hfin).
      split; [done|lia].
    - destruct (startSession_toasts s0) as [Ht _].
      unfold mount. cbn [loops rendered_mapReady shared length]. rewrite Ht.
      split; [done|lia]. }
  split; [done|]. split.
  - unfold finished. apply List.filter_length_le.
  - rewrite Hlen. by destruct (rendered_mapReady _); lia.
Qed.

End ComponentFacts.

(** ** Two runs of the load effect over one endpoint *)

Import Runs.

Section TwoRuns.
Context `{Engine}.


















End TwoRuns.

(* ===================================================================== *)
(** * The component at concrete inputs                                      *)
(* ===================================================================== *)

(** C2 (as stated, without the bound on the coordinates): a batch of
    two points, one of them at longitude 200.  Both are indexed, and the
    query over the full-world bounds at zoom 0 stands for one. *)
Lemma world_query_misses_point_off_the_map :
  let fs := [sample_point 200 10 20; sample_point 1 1 21] in
  let s := state (run (H := planar_engine) false [] (startSession mounted)) in
  let s' := addCollection (H := planar_engine) false fs s in
  let counted index := represented (getClusters (H := planar_engine) index world 0) in
  fs <> []
  /\ (loaded <$> current_index s') = Some (pointsRef s')
  /\ length (pointsRef s') = 2%nat
  /\ (counted <$> current_index s') = Some 1
  /\ ~ (exists index,
          current_index s' = Some index
          /\ counted index = Z.of_nat (length (pointsRef s'))).
Proof.
  intros fs s s' counted.
  assert ((counted <$> current_index s') = Some 1) as Hone by (vm_compute; reflexivity).
  assert (length (pointsRef s') = 2%nat) as Hlen by (vm_compute; reflexivity).
  split; [done|]. split; [vm_compute; reflexivity|]. split; [done|]. split; [done|].
  intros (index & Hindex & Hcount).
  rewrite Hindex, Hlen in *. cbn in Hone. injection Hone as Hone. lia.
Qed.

(** C3 (what the code does): the endpoint answers the first request
    with three features and the cursor ["A"], and the request after ["A"]
    with two features and no cursor.  The map attaches while the first
    request is in flight, the load effect runs again, and both runs go
    through both pages: ten features counted and four network calls. *)
Theorem two_pages_counted_twice :
  let fs1 := [sample_point 1 1 10; sample_empty 11; sample_point 1 1 12] in
  let fs2 := [sample_point 50 50 13; sample_point 2 2 14] in
  let page1 := {| ok := true; status := 200;
                  json := Some {| features := fs1; nextCursor := Some "A"%string |} |} in
  let page2 := {| ok := true; status := 200;
                  json := Some {| features := fs2; nextCursor := None |} |} in
  let server (limit : string) (cursor : option string) :=
    match cursor with
    | None => page1
    | Some _ => page2
    end in
  let v0 := crun (H := planar_engine)
              [Happen (MapRefSet (Some {| center := INITIAL_VIEW; zoom := INITIAL_ZOOM |}));
               Render]
              (mount mounted) in
  let v := serve_all (H := planar_engine) server
             [0; 0; 1; 1; 0; 1; 0; 0; 1; 1]%nat v0 in
  length fs1 = 3%nat
  /\ length fs2 = 2%nat
  /\ fetches (shared (mount mounted)) = 1%nat
  /\ all_finished v = true
  /\ totalFetched (shared v) = 10
  /\ hasMore (shared v) = false
  /\ fetches (shared v) = 4%nat
  /\ List.filter is_fetch (effects (shared v))
     = [Fetch "5000" None; Fetch "5000" None;
        Fetch "5000" (Some "A"%string); Fetch "5000" (Some "A"%string)].
Proof. vm_compute. repeat split. Qed.

(** C4 (what the code does): the map attaches while the first request
    is in flight, so two runs of the load effect are under way.  The
    second run has indexed a page when the request of the first run
    fails: one notification, and the indexed data is kept.  The second
    run goes on all the same: it fetches the next page, and when that
    request fails too a second notification is shown. *)
Theorem failed_fetch_leaves_second_run_loading :
  let page := {| ok := true; status := 200;
                 json := Some {| features := [sample_point 1 1 10];
                                 nextCursor := Some "A"%string |} |} in
  let failure := {| ok := false; status := 500; json := None |} in
  let at_failure :=
    crun (H := planar_engine)
      [Happen (MapRefSet (Some {| center := INITIAL_VIEW; zoom := INITIAL_ZOOM |}));
       Render;
       Resume 1 (FetchSettled (Some page)); Resume 1 JsonSettled;
       Resume 0 (FetchSettled (Some failure))]
      (mount mounted) in
  let later :=
    crun (H := planar_engine)
      [Resume 1 DelayElapsed; Resume 1 (FetchSettled (Some failure))] at_failure in
  toasts (shared at_failure) = 1%nat
  /\ fetches (shared at_failure) = 2%nat
  /\ length (pointsRef (shared at_failure)) = 1%nat
  /\ (loop_pc <$> loops at_failure) = [Finished; AwaitDelay]
  /\ fetches (shared later) = 3%nat
  /\ toasts (shared later) = 2%nat
  /\ pointsRef (shared later) = pointsRef (shared at_failure)
  /\ featureMapRef (shared later) = featureMapRef (shared at_failure)
  /\ all_finished later = true.
Proof. vm_compute. repeat split. Qed.

(** The endpoint is down from the start: each of the two runs fails at
    its first request, and each shows the notification. *)
Example endpoint_down_two_toasts :
  let down := {| Route.dm_sicar := Route.dm_sicar sample_db; Route.online := false |} in
  let v0 := crun (H := planar_engine)
              [Happen (MapRefSet (Some {| center := INITIAL_VIEW; zoom := INITIAL_ZOOM |}));
               Render]
              (mount mounted) in
  let v := serve_all (H := planar_engine) (endpoint down) [0; 1]%nat v0 in
  all_finished v = true
  /\ fetches (shared v) = 2%nat
  /\ toasts (shared v) = 2%nat.
Proof. vm_compute. repeat split. Qed.

Lemma fit_repeats_inside_fitBounds_witness :
  let m := {| center := INITIAL_VIEW; zoom := INITIAL_ZOOM |} in
  let v0 := crun (H := planar_engine) [Happen (MapRefSet (Some m)); Render]
              (mount mounted) in
  let s := addCollection (H := planar_engine) false [sample_point 1 1 10] (shared v0) in
  let corner := {| lat := 2 # 2; lng := 2 # 2 |} in
  let result := renderClusters_sync (H := planar_engine) 3 1 s in
  listening v0 = true
  /\ (0 < 1)%nat
  /\ mapRef s = Some m
  /\ pointsRef s <> []
  /\ boundsRef s = Some (Some (corner, corner))
  /\ shouldFitBoundsRef s = true
  /\ result.1 = Throw
  /\ effects result.2 = effects s ++ replicate 3 (FitBounds corner corner)
  /\ fits result.2 = (fits s + 3)%nat
  /\ shouldFitBoundsRef result.2 = true.
Proof.
  intros m v0 s corner result.
  assert (mapRef s = Some m) as Hmap by (vm_compute; reflexivity).
  assert (pointsRef s <> []) as Hpts by (vm_compute; discriminate).
  assert (boundsRef s = Some (Some (corner, corner))) as Hbounds
    by (vm_compute; reflexivity).
  assert (shouldFitBoundsRef s = true) as Hflag by (vm_compute; reflexivity).
  split; [vm_compute; reflexivity|]. split; [lia|]. split; [exact Hmap|].
  split; [exact Hpts|]. split; [exact Hbounds|]. split; [exact Hflag|].
  exact (fit_repeats_inside_fitBounds (H := planar_engine) 3 1 s m corner corner
           (le_n 1) Hmap Hpts Hbounds Hflag).
Defined.



(** The three sample rows, the runs taking turns: six rows counted, and
    the two rows with a point indexed twice. *)
Example sample_load_twice :
  let m := {| center := INITIAL_VIEW; zoom := INITIAL_ZOOM |} in
  let v0 := crun (H := planar_engine) [Happen (MapRefSet (Some m)); Render]
              (mount mounted) in
  let v := serve_all (H := planar_engine) (endpoint sample_db)
             [0; 1; 1; 0; 0; 1; 1; 0; 0; 1; 1; 0]%nat v0 in
  all_finished v = true
  /\ totalFetched (shared v) = 6
  /\ List.map (option_map feature_id) (indexed_features (shared v))
     = [Some 1; Some 3; Some 1; Some 3]
  /\ point_id <$> pointsRef (shared v) = [1; 2; 3; 4].
Proof. vm_compute. repeat split. Qed.
